(** * EqmAlleleFreqs: genotypes, demes and the 2D torus metapopulation

    A shallow embedding of [genotype.py], [deme.py] and [metapopulation.py]
    and the properties of the simulation engine that follow from the code.

    Conventions of the embedding.
    - A Python [float] is an exact rational ([Qc], canonical fractions with
      Leibniz equality): the arithmetic is the idealised one, without
      rounding, infinities or NaN.
    - A Python exception is a value of [exn]; a computation that may raise
      returns a [result].  A failed [assert] raises [AssertionError].
    - Objects that the code mutates through references (the density list a
      deme was handed at construction, the demes themselves) live in a
      [Heap] and are named by their address; two demes built from the same
      list object share one address. *)

From Stdlib Require Import QArith Qcanon ZArith Lia Ascii.
From stdpp Require Import base tactics option numbers list sorting strings
  pretty.

Local Open Scope Qc_scope.

(** ** Python primitives *)

Inductive exn : Set :=
| AssertionError
| IndexError
| ZeroDivisionError
| ValueError
| AttributeError
| DanglingReference (* not a Python exception: an address outside the heap *).

Inductive result (A : Type) : Type :=
| Ok (a : A)
| Raise (e : exn).
Arguments Ok {A} a.
Arguments Raise {A} e.

Global Instance exn_eq_dec : EqDecision exn.
Proof. solve_decision. Defined.
Global Instance result_eq_dec {A} `{EqDecision A} : EqDecision (result A).
Proof. solve_decision. Defined.

Global Instance result_ret : MRet result := λ A a, Ok a.
Global Instance result_bind : MBind result := λ A B f m,
  match m with Ok a => f a | Raise e => Raise e end.
Global Instance result_fmap : FMap result := λ A B f m,
  match m with Ok a => Ok (f a) | Raise e => Raise e end.

Definition is_Ok {A} (r : result A) : Prop := ∃ a, r = Ok a.

(** [assert c] *)
Definition assert (c : bool) : result unit :=
  if c then Ok () else Raise AssertionError.

(** [for x in xs: s = body(s, x)], stopping at the first exception. *)
Fixpoint foldM {S X : Type} (body : S → X → result S) (s : S) (xs : list X)
  : result S :=
  match xs with
  | [] => Ok s
  | x :: xs' => s' ← body s x; foldM body s' xs'
  end.

(** [range(n)] for a non-negative [n]. *)
Definition range (n : nat) : list nat := seq 0 n.

(** [l[i]] and [l[i] = x] for an index produced by [range]: it is
    non-negative, so Python looks at position [i] or raises IndexError. *)
Definition index {A} (l : list A) (i : nat) : result A :=
  match l !! i with Some x => Ok x | None => Raise IndexError end.

Definition store {A} (l : list A) (i : nat) (x : A) : result (list A) :=
  if decide (i < length l)%nat then Ok (<[i:=x]> l) else Raise IndexError.

(** [l[i]] and [l[i] = x] for an arbitrary Python int: a negative index
    counts from the end of the list. *)
Definition norm_index {A} (l : list A) (i : Z) : result nat :=
  let n := Z.of_nat (length l) in
  let j := if decide (i < 0)%Z then (i + n)%Z else i in
  if decide (0 ≤ j < n)%Z then Ok (Z.to_nat j) else Raise IndexError.

Definition getitem {A} (l : list A) (i : Z) : result A :=
  j ← norm_index l i; index l j.

Definition setitem {A} (l : list A) (i : Z) (x : A) : result (list A) :=
  j ← norm_index l i; store l j x.

(** [sum(l)]: the running total starts at 0 and adds from the left. *)
Definition sum (l : list Qc) : Qc := fold_left Qcplus l 0.

(** [x / y] on floats raises on a zero divisor. *)
Definition truediv (x y : Qc) : result Qc :=
  if decide (y = 0) then Raise ZeroDivisionError else Ok (x / y).

(** [max(l)] raises ValueError on an empty sequence. *)
Definition pymax (l : list Z) : result Z :=
  match l with
  | [] => Raise ValueError
  | x :: l' => Ok (fold_left Z.max l' x)
  end.

(** [sep.join(l)] *)
Fixpoint join (sep : string) (l : list string) : string :=
  match l with
  | [] => EmptyString
  | x :: l' =>
      match l' with
      | [] => x
      | _ :: _ => x +:+ sep +:+ join sep l'
      end
  end.

(** [float(n)] for an int. *)
Definition float_of_nat (n : nat) : Qc := Qc_of_Z (Z.of_nat n).

(** The values a caller may put in an [alleles] list; [isinstance(x, int)]
    holds of the first kind only.  ([bool], a subclass of [int], is left
    out: [True] and [False] behave as the ints 1 and 0 here.) *)
Inductive pyval : Type :=
| PyInt (z : Z)
| PyFloat (q : Qc)
| PyStr (s : string)
| PyNone.

Definition isinstance_int (v : pyval) : bool :=
  match v with PyInt _ => true | _ => false end.

Definition int_value (v : pyval) : Z :=
  match v with PyInt z => z | _ => 0%Z end.

(** ** genotype.py *)

Module Genotype.

Record t : Type := mk {
  alleles : list Z;
  fitness : Qc;
  growthRate : Qc;
  maxDensity : Qc
}.

Global Instance Genotype_eq_dec : EqDecision t.
Proof. solve_decision. Defined.

(** [Genotype.__init__]: the type check on the alleles, the in-place sort,
    then the two range checks in the order of the source. *)
Definition init (alleles : list pyval) (fitness growthRate maxDensity : Qc)
  : result t :=
  _ ← assert (forallb isinstance_int alleles);
  let alleles := merge_sort Z.le (int_value <$> alleles) in
  _ ← assert (bool_decide (0 ≤ fitness) && bool_decide (fitness ≤ 1));
  _ ← assert (bool_decide (0 < maxDensity) && bool_decide (maxDensity ≤ 1));
  Ok (mk alleles fitness growthRate maxDensity).

(** ["/".join([str(x) for x in self.alleles])]: [str] of an int is its
    decimal numeral, with a minus sign if it is negative.  (This is the
    string for alleles that are ints proper; an allele given as a bool
    would print as [True] or [False].) *)
Definition toString (self : t) : string :=
  join "/" (pretty <$> alleles self).

(** [sum([x == allele for x in self.alleles])] *)
Definition alleleCount (self : t) (allele : Z) : nat :=
  sum_list ((λ x, Nat.b2n (bool_decide (x = allele))) <$> alleles self).

(** [float(self.alleleCount(allele)) / len(self.alleles)] *)
Definition alleleFreq (self : t) (allele : Z) : result Qc :=
  truediv (float_of_nat (alleleCount self allele))
          (float_of_nat (length (alleles self))).

Definition logisticGrowth (self : t) (density totalDensity : Qc) : result Qc :=
  _ ← assert (bool_decide (0 < totalDensity) && bool_decide (totalDensity ≤ 1));
  let lam := 1 + growthRate self in
  q ← truediv (growthRate self) (maxDensity self);
  let lam := lam - q * totalDensity in
  Ok (density * lam).

End Genotype.

(** ** deme.py *)

Module Neighbour.

(** [neighbour] is the address of the target deme. *)
Record t : Type := mk {
  neighbour : nat;
  migrationRate : Qc;
  migrantPool : list Qc
}.

Global Instance Neighbour_eq_dec : EqDecision t.
Proof. solve_decision. Defined.

Definition init (neighbour : nat) (migrationRate : Qc) : result t :=
  _ ← assert (bool_decide (0 ≤ migrationRate) && bool_decide (migrationRate ≤ 1));
  Ok (mk neighbour migrationRate []).

(** [self.migrantPool = [x * self.migrationRate for x in sourceDensities]] *)
Definition fillPool (self : t) (sourceDensities : list Qc) : t :=
  mk (neighbour self) (migrationRate self)
     ((λ x, x * migrationRate self) <$> sourceDensities).

Definition emptyPool (self : t) : t :=
  mk (neighbour self) (migrationRate self) [].

End Neighbour.

Module Deme.

(** [genotypeDensities] is the address of the list object the deme was
    constructed with: the deme keeps the caller's list and updates it in
    place. *)
Record t : Type := mk {
  genotypes : list Genotype.t;
  genotypeDensities : nat;
  refugeProportion : Qc;
  alleles : list Z;
  alleleFreqs : list Qc;
  neighbours : list Neighbour.t
}.

Global Instance Deme_eq_dec : EqDecision t.
Proof. solve_decision. Defined.

Definition with_alleleFreqs (d : t) (fs : list Qc) : t :=
  mk (genotypes d) (genotypeDensities d) (refugeProportion d) (alleles d) fs
     (neighbours d).

Definition with_neighbours (d : t) (ns : list Neighbour.t) : t :=
  mk (genotypes d) (genotypeDensities d) (refugeProportion d) (alleles d)
     (alleleFreqs d) ns.

(** *** The object store *)

Record heap : Type := Heap {
  heap_lists : list (list Qc);
  heap_demes : list t
}.

Global Instance heap_eq_dec : EqDecision heap.
Proof. solve_decision. Defined.

(** A method is a function of the store that returns a value and the new
    store, or raises; the store reached when an exception escapes is not
    observed. *)
Definition M (A : Type) : Type := heap → result (A * heap).

Global Instance M_ret : MRet M := λ A a h, Ok (a, h).
Global Instance M_bind : MBind M := λ A B f m h,
  match m h with Ok (a, h') => f a h' | Raise e => Raise e end.

Definition lift {A} (r : result A) : M A := λ h,
  match r with Ok a => Ok (a, h) | Raise e => Raise e end.

Definition get_list (a : nat) : M (list Qc) := λ h,
  match heap_lists h !! a with
  | Some l => Ok (l, h)
  | None => Raise DanglingReference
  end.

Definition set_list (a : nat) (l : list Qc) : M unit := λ h,
  if decide (a < length (heap_lists h))%nat
  then Ok ((), Heap (<[a:=l]> (heap_lists h)) (heap_demes h))
  else Raise DanglingReference.

Definition get_deme (a : nat) : M t := λ h,
  match heap_demes h !! a with
  | Some d => Ok (d, h)
  | None => Raise DanglingReference
  end.

Definition set_deme (a : nat) (d : t) : M unit := λ h,
  if decide (a < length (heap_demes h))%nat
  then Ok ((), Heap (heap_lists h) (<[a:=d]> (heap_demes h)))
  else Raise DanglingReference.

Definition new_deme (d : t) : M nat := λ h,
  Ok (length (heap_demes h), Heap (heap_lists h) (heap_demes h ++ [d])).

(** [for x in xs: body(x)] on the store. *)
Fixpoint for_each {X : Type} (xs : list X) (body : X → M unit) : M unit :=
  match xs with
  | [] => mret ()
  | x :: xs' => _ ← body x; for_each xs' body
  end.

(** *** Reading the densities *)

(** [[x / tot for x in self.genotypeDensities]] *)
Definition genotypeFreqs_of (dens : list Qc) : result (list Qc) :=
  let tot := sum dens in
  foldM (λ acc x, q ← truediv x tot; Ok (acc ++ [q])) [] dens.

(** The body of [updateAlleleFreqs]: the new contents of
    [self.alleleFreqs]. *)
Definition updateAlleleFreqs_of (self : t) (dens : list Qc)
  : result (list Qc) :=
  gFreqs ← genotypeFreqs_of dens;
  foldM (λ alleleFreqs a,
           freq ← foldM (λ freq g,
                           gt ← index (genotypes self) g;
                           af ← Genotype.alleleFreq gt a;
                           gf ← index gFreqs g;
                           Ok (freq + af * gf))
                        0 (range (length (genotypes self)));
           setitem alleleFreqs a freq)
        (alleleFreqs self) (alleles self).

(** *** The three local phases, as functions of the density list

    A method of a deme reads and writes one list object only, the deme's
    own [genotypeDensities]; its loop is given as a function from the
    contents of that list before the call to its contents after it, and
    the method proper (below) fetches the list and puts the result back at
    the same address. *)

Definition randomMating_of (self : t) (dens : list Qc)
  : result (list Qc) :=
  let totDensity := sum dens in
  let gIdx := range (length (genotypes self)) in
  let newDensities := (λ _, 0) <$> gIdx in
  newDensities ← foldM (λ newDensities g,
      gt ← index (genotypes self) g;
      let a := Genotype.alleles gt in
      a0 ← index a 0;
      a1 ← index a 1;
      if decide (a0 = a1)
      then p ← getitem (alleleFreqs self) a0;
           store newDensities g (p ^ 2)
      else p ← getitem (alleleFreqs self) a0;
           q ← getitem (alleleFreqs self) a1;
           store newDensities g (p * q * 2))
    newDensities gIdx;
  let newDensities := (λ x, x * totDensity) <$> newDensities in
  foldM (λ dens g, x ← index newDensities g; store dens g x) dens gIdx.

Definition logisticGrowth_of (self : t) (dens : list Qc)
  : result (list Qc) :=
  let totDensity := sum dens in
  foldM (λ dens g,
           gt ← index (genotypes self) g;
           let lam := 1 + Genotype.growthRate gt in
           q ← truediv (Genotype.growthRate gt) (Genotype.maxDensity gt);
           let lam := lam - q * totDensity in
           x ← index dens g;
           store dens g (x * lam))
        dens (range (length (genotypes self))).

Definition selection_of (self : t) (dens : list Qc) : result (list Qc) :=
  let selected := (λ x, x * (1 - refugeProportion self)) <$> dens in
  let unselected := (λ x, x * refugeProportion self) <$> dens in
  let gIdx := range (length (genotypes self)) in
  selected ← foldM (λ selected g,
      x ← index selected g;
      gt ← index (genotypes self) g;
      store selected g (x * Genotype.fitness gt))
    selected gIdx;
  let newDensities := (λ x, sum [x.1; x.2]) <$> zip selected unselected in
  foldM (λ dens g, x ← index newDensities g; store dens g x) dens gIdx.

Definition receiveMigrants_of (self : t) (dens migrants : list Qc)
  : result (list Qc) :=
  _ ← assert (bool_decide (length dens = length migrants));
  foldM (λ dens g,
           x ← index dens g;
           m ← index migrants g;
           store dens g (x + m))
        dens (range (length (genotypes self))).

(** The two loops of [fillMigrantPools]: first every pool is filled from
    the untouched densities, then every pool is subtracted. *)
Definition fillMigrantPools_pools (ns : list Neighbour.t) (dens : list Qc)
  : result (list Neighbour.t) :=
  foldM (λ ns n, nb ← index ns n; store ns n (Neighbour.fillPool nb dens))
        ns (range (length ns)).

Definition fillMigrantPools_of (ns : list Neighbour.t) (dens : list Qc)
  : result (list Qc) :=
  foldM (λ dens n,
           foldM (λ dens g,
                    x ← index dens g;
                    nb ← index ns n;
                    p ← index (Neighbour.migrantPool nb) g;
                    store dens g (x - p))
                 dens (range (length dens)))
        dens (range (length ns)).

(** *** The methods *)

Definition currentDensity (self : nat) : M Qc :=
  d ← get_deme self;
  dens ← get_list (genotypeDensities d);
  mret (sum dens).

Definition genotypeFreqs (self : nat) : M (list Qc) :=
  d ← get_deme self;
  dens ← get_list (genotypeDensities d);
  lift (genotypeFreqs_of dens).

Definition updateAlleleFreqs (self : nat) : M unit :=
  d ← get_deme self;
  dens ← get_list (genotypeDensities d);
  fs ← lift (updateAlleleFreqs_of d dens);
  set_deme self (with_alleleFreqs d fs).

(** The sorted distinct alleles of the genotypes:
    [sorted(set(self.alleles))]. *)
Definition alleles_of (genotypeList : list Genotype.t) : list Z :=
  merge_sort Z.le (remove_dups (mbind Genotype.alleles genotypeList)).

Definition init (genotypeList : list Genotype.t) (genotypeDensities : nat)
    (refugeProportion : Qc) : M nat :=
  dens ← get_list genotypeDensities;
  _ ← lift (assert (bool_decide (sum dens ≤ 1)));
  _ ← lift (assert (bool_decide (0 ≤ refugeProportion)
                    && bool_decide (refugeProportion ≤ 1)));
  let alleles := alleles_of genotypeList in
  top ← lift (pymax alleles);
  let alleleFreqs := replicate (Z.to_nat (top + 1)) 0 in
  let self := mk genotypeList genotypeDensities refugeProportion alleles
                 alleleFreqs [] in
  fs ← lift (updateAlleleFreqs_of self dens);
  new_deme (with_alleleFreqs self fs).

Definition randomMating (self : nat) : M unit :=
  _ ← updateAlleleFreqs self;
  d ← get_deme self;
  dens ← get_list (genotypeDensities d);
  dens' ← lift (randomMating_of d dens);
  set_list (genotypeDensities d) dens'.

Definition logisticGrowth (self : nat) : M unit :=
  d ← get_deme self;
  dens ← get_list (genotypeDensities d);
  dens' ← lift (logisticGrowth_of d dens);
  set_list (genotypeDensities d) dens'.

Definition selection (self : nat) : M unit :=
  d ← get_deme self;
  dens ← get_list (genotypeDensities d);
  dens' ← lift (selection_of d dens);
  set_list (genotypeDensities d) dens'.

Definition addNeighbour (self : nat) (neighbour : nat) (migrationRate : Qc)
  : M unit :=
  d ← get_deme self;
  nb ← lift (Neighbour.init neighbour migrationRate);
  set_deme self (with_neighbours d (neighbours d ++ [nb])).

Definition receiveMigrants (self : nat) (migrants : list Qc) : M unit :=
  d ← get_deme self;
  dens ← get_list (genotypeDensities d);
  dens' ← lift (receiveMigrants_of d dens migrants);
  set_list (genotypeDensities d) dens'.

Definition fillMigrantPools (self : nat) : M unit :=
  d ← get_deme self;
  dens ← get_list (genotypeDensities d);
  ns ← lift (fillMigrantPools_pools (neighbours d) dens);
  _ ← set_deme self (with_neighbours d ns);
  dens' ← lift (fillMigrantPools_of ns dens);
  set_list (genotypeDensities d) dens'.

(** [Neighbour.sendMigrants] followed by [Neighbour.emptyPool], for every
    neighbour in turn. *)
Definition sendMigrants (self : nat) : M unit :=
  d ← get_deme self;
  for_each (range (length (neighbours d))) (λ n,
    d ← get_deme self;
    nb ← lift (index (neighbours d) n);
    _ ← receiveMigrants (Neighbour.neighbour nb) (Neighbour.migrantPool nb);
    d ← get_deme self;
    nb ← lift (index (neighbours d) n);
    ns ← lift (store (neighbours d) n (Neighbour.emptyPool nb));
    set_deme self (with_neighbours d ns)).

(** The methods of class [Deme] that take no argument, by name; the value
    a method returns is dropped, as the callers below do.  A name the class
    does not define raises AttributeError. *)
Definition method (name : string) : option (nat → M unit) :=
  if decide (name = "currentDensity") then
    Some (λ self, _ ← currentDensity self; mret ())
  else if decide (name = "genotypeFreqs") then
    Some (λ self, _ ← genotypeFreqs self; mret ())
  else if decide (name = "updateAlleleFreqs") then Some updateAlleleFreqs
  else if decide (name = "randomMating") then Some randomMating
  else if decide (name = "logisticGrowth") then Some logisticGrowth
  else if decide (name = "selection") then Some selection
  else if decide (name = "fillMigrantPools") then Some fillMigrantPools
  else if decide (name = "sendMigrants") then Some sendMigrants
  else None.

Definition call (self : nat) (name : string) : M unit :=
  match method name with
  | Some m => m self
  | None => λ _, Raise AttributeError
  end.

End Deme.

(** ** metapopulation.py *)

Module TwoDTorus.

Import Deme.

(** [demes] holds the addresses of the demes, row by row. *)
Record t : Type := mk {
  xlen : Z;
  ylen : Z;
  refugeProps : list Qc;
  demes : list (list nat)
}.

Global Instance TwoDTorus_eq_dec : EqDecision t.
Proof. solve_decision. Defined.

(** The [refugeProportion] argument: one float, or a list of floats. *)
Inductive refuge_arg : Type :=
| RefugeFloat (r : Qc)
| RefugeList (rs : list Qc).

(** [range(n)] for any int: empty when [n] is negative. *)
Definition zrange (n : Z) : list nat := range (Z.to_nat n).

(** [range(0, stop, step)]: ValueError on a zero step; otherwise the
    multiples of [step] from 0 up to (down to, for a negative step) but not
    including [stop]. *)
Definition range_step (stop step : Z) : result (list Z) :=
  if decide (step = 0)%Z then Raise ValueError
  else
    let count := if decide (0 < step)%Z
                 then ((stop + step - 1) / step)%Z
                 else ((stop + step + 1) / step)%Z in
    Ok ((λ k, Z.of_nat k * step)%Z <$> range (Z.to_nat count)).

(** [d[lo : hi]]: a negative bound counts from the end of the list, and a
    bound outside the list is clipped to it. *)
Definition slice {A} (d : list A) (lo hi : Z) : list A :=
  let n := Z.of_nat (length d) in
  let clip i := if decide (i < 0)%Z then Z.max (i + n) 0 else Z.min i n in
  take (Z.to_nat (clip hi - clip lo)) (drop (Z.to_nat (clip lo)) d).

(** The deme at [self.demes[r][c]]. *)
Definition deme_at (demes : list (list nat)) (r c : nat) : result nat :=
  row ← index demes r; index row c.

(** The deme at [self.demes[r][c]] for indices computed from the lengths
    ([xlen - 1], [ylen - 1]). *)
Definition deme_at_int (demes : list (list nat)) (r c : Z) : result nat :=
  row ← getitem demes r; getitem row c.

(** The loop that creates the demes: [d.append(Deme(genotypes,
    genotypeDensities[x], self.refugeProps[x]))] for every [x]. *)
Fixpoint create_demes (genotypes : list Genotype.t)
    (genotypeDensities : list nat) (refugeProps : list Qc)
    (xs : list nat) (d : list nat) : M (list nat) :=
  match xs with
  | [] => mret d
  | x :: xs' =>
      gd ← lift (index genotypeDensities x);
      rp ← lift (index refugeProps x);
      a ← Deme.init genotypes gd rp;
      create_demes genotypes genotypeDensities refugeProps xs' (d ++ [a])
  end.

(** The left and right neighbours of the deme at row [r], column [c]. *)
Definition wire_row_cell (xlen : Z) (demes : list (list nat))
    (migrationRate : Qc) (r c : nat) : M unit :=
  self ← lift (deme_at demes r c);
  left ← lift (if decide (c = 0)%nat
               then deme_at_int demes (Z.of_nat r) (xlen - 1)
               else deme_at demes r (c - 1));
  _ ← addNeighbour self left migrationRate;
  self ← lift (deme_at demes r c);
  right ← lift (if decide (Z.of_nat c = xlen - 1)%Z
                then deme_at demes r 0
                else deme_at demes r (c + 1));
  addNeighbour self right migrationRate.

(** The upper and lower neighbours of the deme at row [r], column [c]. *)
Definition wire_column_cell (ylen : Z) (demes : list (list nat))
    (migrationRate : Qc) (r c : nat) : M unit :=
  self ← lift (deme_at demes r c);
  up ← lift (if decide (r = 0)%nat
             then deme_at_int demes (ylen - 1) (Z.of_nat c)
             else deme_at demes (r - 1) c);
  _ ← addNeighbour self up migrationRate;
  self ← lift (deme_at demes r c);
  down ← lift (if decide (Z.of_nat r = ylen - 1)%Z
               then deme_at demes 0 c
               else deme_at demes (r + 1) c);
  addNeighbour self down migrationRate.

Definition init (xlen ylen : Z) (genotypes : list Genotype.t)
    (genotypeDensities : list nat) (migrationRate : Qc)
    (refugeProportion : refuge_arg) : M t :=
  refugeProps ← lift (match refugeProportion with
                      | RefugeFloat r =>
                          Ok ((λ _, r) <$> zrange (xlen * ylen))
                      | RefugeList rs =>
                          _ ← assert (bool_decide
                                 (Z.of_nat (length rs) = xlen * ylen)%Z);
                          Ok rs
                      end);
  (* Create demes *)
  d ← create_demes genotypes genotypeDensities refugeProps
        (zrange (xlen * ylen)) [];
  (* Place demes in a matrix *)
  starts ← lift (range_step (xlen * ylen) xlen);
  let demes := (λ x, slice d x (x + xlen)) <$> starts in
  (* Set up neighbours and migration rates: rows, then columns *)
  _ ← for_each (zrange ylen) (λ r,
        for_each (zrange xlen) (λ c,
          wire_row_cell xlen demes migrationRate r c));
  _ ← for_each (zrange xlen) (λ c,
        for_each (zrange ylen) (λ r,
          wire_column_cell ylen demes migrationRate r c));
  mret (mk xlen ylen refugeProps demes).

(** [for r in range(self.ylen): for c in range(self.xlen):
       self.demes[r][c].name()] *)
Definition for_all_demes (self : t) (name : string) : M unit :=
  for_each (zrange (ylen self)) (λ r,
    for_each (zrange (xlen self)) (λ c,
      target ← lift (deme_at (demes self) r c);
      Deme.call target name)).

Definition randomMating (self : t) : M unit :=
  for_all_demes self "randomMating".

Definition logisticGrowth (self : t) : M unit :=
  for_all_demes self "logisticGrowth".

(** The source calls [selectio], a name class [Deme] does not define. *)
Definition selection (self : t) : M unit :=
  for_all_demes self "selectio".

Definition migration (self : t) : M unit :=
  _ ← for_all_demes self "fillMigrantPools";
  for_all_demes self "sendMigrants".

(** [getGenotypeDensities] is not written yet: its body is [pass], so it
    returns [None] and touches nothing. *)
Definition getGenotypeDensities (self : t) : M pyval := mret PyNone.

End TwoDTorus.

(** ** Notions used to state the properties *)


(** What [Genotype.__init__] checks of the alleles: every element is an
    int. *)
Definition alleles_are_ints (alleles : list pyval) : Prop :=
  Forall (λ v, ∃ z, v = PyInt z) alleles.

(** [pointwise F n l]: the list [l] with [F g] applied at every position
    [g < n]; the effect of a loop [for g in range(n): l[g] = F(g, l[g])]. *)
Definition pointwise {A} (F : nat → A → A) (n : nat) (l : list A) : list A :=
  imap (λ g x, if decide (g < n)%nat then F g x else x) l.

(** The fitness of the genotype at position [g]. *)
Definition fitness_at (d : Deme.t) (g : nat) : Qc :=
  from_option Genotype.fitness 1 (Deme.genotypes d !! g).

(** The density a genotype is left with by [selection]: the selected part
    scaled by the fitness, plus the refuge part. *)
Definition selected_density (d : Deme.t) (g : nat) (x : Qc) : Qc :=
  0 + x * (1 - Deme.refugeProportion d) * fitness_at d g
    + x * Deme.refugeProportion d.

(** The density list of the deme at address [self], when both exist. *)
Definition densities_of (h : Deme.heap) (self : nat) : option (list Qc) :=
  d ← Deme.heap_demes h !! self;
  Deme.heap_lists h !! Deme.genotypeDensities d.

(** The growth factor [lam] of the genotype at position [g] under total
    density [tot]. *)
Definition lam_at (d : Deme.t) (g : nat) (tot : Qc) : Qc :=
  match Deme.genotypes d !! g with
  | Some gt =>
      1 + Genotype.growthRate gt
      - Genotype.growthRate gt / Genotype.maxDensity gt * tot
  | None => 1
  end.

(** [Deme.logisticGrowth] as the specification words it: every density is
    replaced by the result of [Genotype.logisticGrowth] on that density and
    the total density taken once, before the loop. *)
Definition logisticGrowth_spec_of (self : Deme.t) (dens : list Qc)
  : result (list Qc) :=
  let totDensity := sum dens in
  foldM (λ dens g,
           gt ← index (Deme.genotypes self) g;
           x ← index dens g;
           y ← Genotype.logisticGrowth gt x totDensity;
           store dens g y)
        dens (range (length (Deme.genotypes self))).

Definition logisticGrowth_spec (self : nat) : Deme.M unit :=
  d ← Deme.get_deme self;
  dens ← Deme.get_list (Deme.genotypeDensities d);
  dens' ← Deme.lift (logisticGrowth_spec_of d dens);
  Deme.set_list (Deme.genotypeDensities d) dens'.

(** The lengths of the density vector and of the genotype list of the deme
    at address [self]. *)
Definition deme_lengths (h : Deme.heap) (self : nat) : option (nat * nat) :=
  d ← Deme.heap_demes h !! self;
  dens ← Deme.heap_lists h !! Deme.genotypeDensities d;
  Some (length dens, length (Deme.genotypes d)).

(** A computation keeps the lengths when, if it returns, every deme has the
    density-vector length and the genotype-list length it had before. *)
Definition keeps_lengths {A} (m : Deme.M A) : Prop :=
  ∀ h a h', m h = Ok (a, h') →
    ∀ self n, deme_lengths h self = Some n → deme_lengths h' self = Some n.

(** What the operations of a deme never change: the length of every list
    object, and the genotype list and density-list address of every deme. *)
Definition shape (h : Deme.heap) : list nat * list (list Genotype.t * nat) :=
  (length <$> Deme.heap_lists h,
   (λ d, (Deme.genotypes d, Deme.genotypeDensities d)) <$> Deme.heap_demes h).

(** Wrap-around on a ring of [len] positions, with the case split of the
    constructor: the position before 0 is [len - 1], the position after
    [len - 1] is 0. *)
Definition torus_prev (len i : nat) : nat :=
  if decide (i = 0)%nat then (len - 1)%nat else (i - 1)%nat.

Definition torus_next (len i : nat) : nat :=
  if decide (i = len - 1)%nat then 0%nat else (i + 1)%nat.

(** The neighbour edges of the deme at address [a]. *)
Definition neighbours_of (h : Deme.heap) (a : nat)
  : option (list Neighbour.t) :=
  Deme.neighbours <$> Deme.heap_demes h !! a.

(** The matrix of addresses [base], [base + 1], ... in rows of [X]. *)
Definition grid (base X Y : nat) : list (list nat) :=
  (λ r, seq (base + r * X) X) <$> seq 0 Y.

(** [appends h h' a es]: from [h] to [h'] the deme at [a] got the edges
    [es] appended, and nothing else changed in the lists, the number of
    demes, their genotype lists and density-list addresses, or the edges of
    the other demes. *)
Definition appends (h h' : Deme.heap) (a : nat) (es : list Neighbour.t)
  : Prop :=
  Deme.heap_lists h' = Deme.heap_lists h
  ∧ shape h' = shape h
  ∧ neighbours_of h' a = (λ ns, ns ++ es) <$> neighbours_of h a
  ∧ ∀ b, b ≠ a → neighbours_of h' b = neighbours_of h b.

(** The edges the constructor gives the deme at row [r], column [c] of the
    grid that starts at address [base]: left and right, then up and down. *)
Definition row_edges (base X : nat) (rate : Qc) (r c : nat)
  : list Neighbour.t :=
  [Neighbour.mk (base + r * X + torus_prev X c) rate [];
   Neighbour.mk (base + r * X + torus_next X c) rate []].

Definition column_edges (base X Y : nat) (rate : Qc) (r c : nat)
  : list Neighbour.t :=
  [Neighbour.mk (base + torus_prev Y r * X + c) rate [];
   Neighbour.mk (base + torus_next Y r * X + c) rate []].

(** *** The metapopulation as a whole *)

(** What [currentDensity()] returns for the deme at [a]. *)
Definition density_at (h : Deme.heap) (a : nat) : Qc :=
  sum (default [] (densities_of h a)).

(** The sum over the demes [ds] of [currentDensity()]. *)
Definition total_density (h : Deme.heap) (ds : list nat) : Qc :=
  sum (density_at h <$> ds).


(** The demes of a torus, row after row. *)
Definition all_demes (t : TwoDTorus.t) : list nat := concat (TwoDTorus.demes t).

(** The matrix of the torus has [ylen] rows of [xlen] demes. *)
Definition rectangular (t : TwoDTorus.t) : Prop :=
  length (TwoDTorus.demes t) = Z.to_nat (TwoDTorus.ylen t)
  ∧ Forall (λ row, length row = Z.to_nat (TwoDTorus.xlen t)) (TwoDTorus.demes t).

(** The deme at [a] exists, its density vector and its genotype list have
    length [L], and its neighbours are demes of [ds]. *)
Definition deme_ok (h : Deme.heap) (ds : list nat) (L : nat) (a : nat) : Prop :=
  ∃ d dens,
    Deme.heap_demes h !! a = Some d
    ∧ Deme.heap_lists h !! Deme.genotypeDensities d = Some dens
    ∧ length dens = L
    ∧ length (Deme.genotypes d) = L
    ∧ Forall (λ nb, Neighbour.neighbour nb ∈ ds) (Deme.neighbours d).

(** No two demes of [ds] were constructed with the same list object. *)
Definition own_lists (h : Deme.heap) (ds : list nat) : Prop :=
  ∀ a b da db,
    a ∈ ds → b ∈ ds →
    Deme.heap_demes h !! a = Some da → Deme.heap_demes h !! b = Some db →
    Deme.genotypeDensities da = Deme.genotypeDensities db → a = b.

(** A well-formed metapopulation: distinct demes, each with its own
    density vector, all over genotype lists of one length [L]. *)
Definition metapopulation_ok (h : Deme.heap) (ds : list nat) (L : nat) : Prop :=
  NoDup ds ∧ Forall (deme_ok h ds L) ds ∧ own_lists h ds.

(** Every pool of the deme at [a] holds [L] densities. *)
Definition pools_filled (h : Deme.heap) (L : nat) (a : nat) : Prop :=
  Forall (λ nb, length (Neighbour.migrantPool nb) = L)
         (default [] (neighbours_of h a)).

(** The targets of the edges of the deme at [a]. *)
Definition targets_of (h : Deme.heap) (a : nat) : option (list nat) :=
  (λ ns : list Neighbour.t, Neighbour.neighbour <$> ns) <$> neighbours_of h a.

(** [frame h h']: from [h] to [h'] no list changed its length, no deme
    changed its genotype list or its density-list address, and no edge
    changed its target. *)
Definition frame (h h' : Deme.heap) : Prop :=
  shape h' = shape h ∧ ∀ a, targets_of h' a = targets_of h a.

(** *** Random mating *)


(** The value of [alleleFreq] for a genotype that has alleles. *)
Definition alleleFreq_value (gt : Genotype.t) (a : Z) : Qc :=
  float_of_nat (Genotype.alleleCount gt a)
  / float_of_nat (length (Genotype.alleles gt)).

(** The frequency of allele [a] in a deme: what [updateAlleleFreqs] stores
    at index [a]. *)
Definition allele_frequency (gts : list Genotype.t) (dens : list Qc) (a : Z)
  : Qc :=
  sum (zip_with (λ gt x, alleleFreq_value gt a * (x / sum dens)) gts dens).

(** The Hardy-Weinberg frequency [randomMating] computes for a genotype
    with alleles [al] from the allele frequencies [p]. *)
Definition hardy_weinberg (p : Z → Qc) (al : list Z) : Qc :=
  match al with
  | a0 :: a1 :: _ => if decide (a0 = a1) then p a0 ^ 2 else p a0 * p a1 * 2
  | _ => 0
  end.

(** *** Strings, shares and migrants *)

(** The character ['/'] does not occur in [s]. *)
Fixpoint no_slash (s : string) : Prop :=
  match s with
  | EmptyString => True
  | String c s' => c ≠ "/"%char ∧ no_slash s'
  end.



(** The edges of a deme, their pools set aside. *)
Definition edges_of (h : Deme.heap) (a : nat) : option (list Neighbour.t) :=
  (λ ns : list Neighbour.t, Neighbour.emptyPool <$> ns) <$> neighbours_of h a.

(** The deme that the edge number [k] of the deme at [a] leads to. *)
Definition edge_target (h : Deme.heap) (a k : nat) : option nat :=
  ns ← neighbours_of h a; Neighbour.neighbour <$> ns !! k.

(** The density of genotype [g] in the deme at [b] (0 where there is
    none). *)
Definition density_entry (h : Deme.heap) (b g : nat) : Qc :=
  default 0 (densities_of h b ≫= (.!! g)).

(** The sum of the migration rates of the edges of the deme at [b]. *)
Definition out_rate (h : Deme.heap) (b : nat) : Qc :=
  sum (Neighbour.migrationRate <$> default [] (neighbours_of h b)).

(** What the edges [ns] of one deme carry to the deme at [b], when every
    edge carries [amount] of its own. *)
Definition carried (amount : Neighbour.t → Qc) (b : nat)
    (ns : list Neighbour.t) : Qc :=
  sum ((λ nb, if decide (Neighbour.neighbour nb = b) then amount nb else 0)
         <$> ns).

(** The migrants of genotype [g] that the demes [ds] send to the deme at
    [b]: over every edge that leads to [b], the density at the source
    times the rate of the edge. *)
Definition incoming (h : Deme.heap) (ds : list nat) (b g : nat) : Qc :=
  sum ((λ a, carried (λ nb, density_entry h a g * Neighbour.migrationRate nb)
               b (default [] (neighbours_of h a))) <$> ds).

(** The row and the column of an address of the grid. *)
Definition row_of (base X a : nat) : nat := ((a - base) / X)%nat.
Definition col_of (base X a : nat) : nat := ((a - base) mod X)%nat.

(** The only exceptions [r] can raise are those satisfying [P]. *)
Definition only_raises {A} (P : exn → Prop) (r : result A) : Prop :=
  ∀ e, r = Raise e → P e.

(** The store a computation leaves behind (the initial one if it raises). *)
Definition heap_after {A} (m : Deme.M A) (h : Deme.heap) : Deme.heap :=
  match m h with Ok (_, h') => h' | Raise _ => h end.

(** *** Concrete objects for the examples *)

Definition q (n : Z) (d : positive) : Qc := Q2Qc (n # d).

Definition eg_g00 : Genotype.t := Genotype.mk [0; 0]%Z 1 1 1.
Definition eg_g01 : Genotype.t := Genotype.mk [0; 1]%Z (q 1 2) 1 1.

(** A genotype that grows fast: growth rate 3. *)
Definition eg_fast : Genotype.t := Genotype.mk [0; 0]%Z 1 (q 3 1) 1.

(** A caller's store before any deme exists: one density list. *)
Definition eg_lists (dens : list Qc) : Deme.heap := Deme.Heap [dens] [].

(** One deme over the genotypes 0/0 and 0/1 with densities 0.4 and 0.4,
    all of it refuge. *)
Definition eg_refuge_heap : Deme.heap :=
  heap_after (Deme.init [eg_g00; eg_g01] 0 1) (eg_lists [q 2 5; q 2 5]).

(** The same deme without refuge. *)
Definition eg_open_heap : Deme.heap :=
  heap_after (Deme.init [eg_g00; eg_g01] 0 0) (eg_lists [q 2 5; q 2 5]).


(** One deme of the fast genotype at density 0.5, after one round of
    growth: its density is 1.25. *)
Definition eg_grown_heap : Deme.heap :=
  heap_after (a ← Deme.init [eg_fast] 0 0; Deme.logisticGrowth a)
             (eg_lists [q 1 2]).

(** A 2 x 2 torus over the genotypes 0/0 and 0/1, every deme with its own
    density list, migration rate 0.1. *)
Definition eg_torus_lists : Deme.heap :=
  Deme.Heap [[q 2 5; q 2 5]; [q 1 5; q 3 10]; [q 1 2; q 0 1]; [q 1 10; q 1 10]]
            [].

Definition eg_torus_init : Deme.M TwoDTorus.t :=
  TwoDTorus.init 2 2 [eg_g00; eg_g01] [0; 1; 2; 3]%nat (q 1 10)
                 (TwoDTorus.RefugeFloat 0).

Definition eg_torus : TwoDTorus.t :=
  match eg_torus_init eg_torus_lists with
  | Ok (t, _) => t
  | Raise _ => TwoDTorus.mk 0 0 [] []
  end.

Definition eg_torus_heap : Deme.heap := heap_after eg_torus_init eg_torus_lists.




(** A 3 x 1 torus whose first two demes were given the same list object. *)
Definition eg_shared_lists : Deme.heap :=
  Deme.Heap [[q 2 5; q 2 5]; [q 3 10; q 3 10]] [].

Definition eg_shared_init : Deme.M TwoDTorus.t :=
  TwoDTorus.init 3 1 [eg_g00; eg_g01] [0; 0; 1]%nat (q 1 10)
                 (TwoDTorus.RefugeFloat 0).

Definition eg_shared_torus : TwoDTorus.t :=
  match eg_shared_init eg_shared_lists with
  | Ok (t, _) => t
  | Raise _ => TwoDTorus.mk 0 0 [] []
  end.

Definition eg_shared_heap : Deme.heap :=
  heap_after eg_shared_init eg_shared_lists.

(** ** Basic facts about the primitives *)

Lemma sum_from (l : list Qc) (a : Qc) : fold_left Qcplus l a = a + sum l.
Proof.
  unfold sum. revert a. induction l as [|x l IH]; intros a; simpl.
  - ring.
  - rewrite (IH (a + x)), (IH (0 + x)). ring.
Qed.

Lemma sum_nil : sum [] = 0.
Proof. reflexivity. Qed.

Lemma sum_cons (x : Qc) (l : list Qc) : sum (x :: l) = x + sum l.
Proof. unfold sum at 1. simpl. rewrite sum_from. ring. Qed.

Lemma sum_app (l k : list Qc) : sum (l ++ k) = sum l + sum k.
Proof.
  induction l as [|x l IH]; simpl.
  - rewrite sum_nil. ring.
  - rewrite !sum_cons, IH. ring.
Qed.

Lemma range_S (n : nat) : range (S n) = range n ++ [n].
Proof. unfold range. by rewrite seq_S. Qed.

Lemma foldM_app {S X} (body : S → X → result S) (s : S) (xs ys : list X) :
  foldM body s (xs ++ ys) = s' ← foldM body s xs; foldM body s' ys.
Proof.
  revert s. induction xs as [|x xs IH]; intros s; simpl; [done|].
  destruct (body s x); simpl; auto.
Qed.

(** A property that every iteration keeps holds when the loop is over. *)
Lemma foldM_invariant {S X} (P : S → Prop) (body : S → X → result S) xs :
  (∀ s x s', body s x = Ok s' → P s → P s') →
  ∀ s s', foldM body s xs = Ok s' → P s → P s'.
Proof.
  intros Hbody. induction xs as [|x xs IH]; intros s s'; simpl.
  - by intros [= ->].
  - destruct (body s x) as [s1|] eqn:E; simpl; [|done]. eauto.
Qed.

Lemma index_Ok {A} (l : list A) i x : l !! i = Some x → index l i = Ok x.
Proof. unfold index. by intros ->. Qed.

Lemma index_Ok_inv {A} (l : list A) i x : index l i = Ok x → l !! i = Some x.
Proof. unfold index. by destruct (l !! i); intros [= ->]. Qed.

Lemma index_raises {A} (l : list A) i :
  (length l ≤ i)%nat → index l i = Raise IndexError.
Proof. intros H. unfold index. by rewrite (lookup_ge_None_2 l i). Qed.

Lemma store_Ok {A} (l : list A) i x :
  (i < length l)%nat → store l i x = Ok (<[i:=x]> l).
Proof. intros H. unfold store. by rewrite decide_True. Qed.

Lemma store_Ok_inv {A} (l l' : list A) i x :
  store l i x = Ok l' → l' = <[i:=x]> l ∧ (i < length l)%nat.
Proof. unfold store. case_decide; [|done]. by intros [= <-]. Qed.

Lemma store_length {A} (l l' : list A) i x :
  store l i x = Ok l' → length l' = length l.
Proof. intros [-> _]%store_Ok_inv. apply length_insert. Qed.

Lemma pointwise_length {A} (F : nat → A → A) n l :
  length (pointwise F n l) = length l.
Proof. apply length_imap. Qed.

Lemma pointwise_lookup {A} (F : nat → A → A) n l i :
  pointwise F n l !! i
  = (λ x, if decide (i < n)%nat then F i x else x) <$> l !! i.
Proof. unfold pointwise. by rewrite list_lookup_imap. Qed.

Lemma pointwise_0 {A} (F : nat → A → A) l : pointwise F 0 l = l.
Proof.
  apply list_eq. intros i. rewrite pointwise_lookup.
  destruct (l !! i); simpl; [|done]. repeat case_decide; done || lia.
Qed.

Lemma pointwise_S {A} (F : nat → A → A) n l x :
  l !! n = Some x →
  pointwise F (S n) l = <[n:=F n x]> (pointwise F n l).
Proof.
  intros Hx. apply list_eq. intros i. rewrite pointwise_lookup.
  destruct (decide (i = n)) as [->|Hne].
  - rewrite list_lookup_insert_eq.
    + rewrite Hx. simpl. repeat case_decide; done || lia.
    + rewrite pointwise_length. by eapply lookup_lt_Some.
  - rewrite list_lookup_insert_ne by done. rewrite pointwise_lookup.
    destruct (l !! i); simpl; [|done].
    repeat case_decide; done || lia.
Qed.

Lemma pointwise_id {A} (F : nat → A → A) n l :
  (∀ g x, (g < n)%nat → l !! g = Some x → F g x = x) → pointwise F n l = l.
Proof.
  intros HF. apply list_eq. intros i. rewrite pointwise_lookup.
  destruct (l !! i) eqn:E; simpl; [|done].
  case_decide; [|done]. f_equal. by apply HF.
Qed.

(** A loop [for g in range(n)] whose iteration [g] replaces the element at
    [g] by [F g] of its old value computes [pointwise F n]. *)
Lemma foldM_pointwise {A} (body : list A → nat → result (list A))
    (F : nat → A → A) (n : nat) (l : list A) :
  (n ≤ length l)%nat →
  (∀ l' g x, (g < n)%nat → l' !! g = Some x → body l' g = Ok (<[g:=F g x]> l')) →
  foldM body l (range n) = Ok (pointwise F n l).
Proof.
  intros Hn Hbody. induction n as [|n IH].
  - simpl. by rewrite pointwise_0.
  - rewrite range_S, foldM_app, IH by (auto with lia). simpl.
    destruct (lookup_lt_is_Some_2 l n) as [x Hx]; [lia|].
    rewrite (Hbody _ n x); [|lia|].
    + by rewrite (pointwise_S _ _ _ x).
    + rewrite pointwise_lookup, Hx. simpl. repeat case_decide; done || lia.
Qed.

(** ** Genotype *)

Lemma assert_Ok_inv (c : bool) (u : unit) : assert c = Ok u → c = true.
Proof. by destruct c. Qed.

Lemma range_check_true (lo x hi : Qc) :
  bool_decide (lo ≤ x) && bool_decide (x ≤ hi) = true ↔ lo ≤ x ∧ x ≤ hi.
Proof. by rewrite andb_true_iff, !bool_decide_eq_true. Qed.

Lemma open_range_check_true (lo x hi : Qc) :
  bool_decide (lo < x) && bool_decide (x ≤ hi) = true ↔ lo < x ∧ x ≤ hi.
Proof. by rewrite andb_true_iff, !bool_decide_eq_true. Qed.

Lemma isinstance_int_all (alleles : list pyval) :
  forallb isinstance_int alleles = true ↔ alleles_are_ints alleles.
Proof.
  unfold alleles_are_ints. induction alleles as [|v vs IH]; simpl.
  - split; [constructor|done].
  - rewrite andb_true_iff, Forall_cons, IH. split; intros [Hv Hvs]; split; try done.
    + destruct v; try done. by eexists.
    + by destruct Hv as [z ->].
Qed.


(** What a successful construction has checked, and what it stored. *)
Lemma Genotype_init_Ok_inv alleles fitness growthRate maxDensity g :
  Genotype.init alleles fitness growthRate maxDensity = Ok g →
  g = Genotype.mk (merge_sort Z.le (int_value <$> alleles))
                  fitness growthRate maxDensity
  ∧ alleles_are_ints alleles
  ∧ (0 ≤ fitness ∧ fitness ≤ 1) ∧ (0 < maxDensity ∧ maxDensity ≤ 1).
Proof.
  unfold Genotype.init. intros H.
  destruct (forallb isinstance_int alleles) eqn:Ha; simpl in H; [|done].
  destruct (bool_decide (0 ≤ fitness) && bool_decide (fitness ≤ 1)) eqn:Hf;
    simpl in H; [|done].
  destruct (bool_decide (0 < maxDensity) && bool_decide (maxDensity ≤ 1)) eqn:Hk;
    simpl in H; [|done].
  injection H as <-.
  by rewrite isinstance_int_all in Ha; rewrite range_check_true in Hf;
    rewrite open_range_check_true in Hk.
Qed.

Lemma Genotype_init_Ok alleles fitness growthRate maxDensity :
  alleles_are_ints alleles →
  0 ≤ fitness ∧ fitness ≤ 1 → 0 < maxDensity ∧ maxDensity ≤ 1 →
  Genotype.init alleles fitness growthRate maxDensity
  = Ok (Genotype.mk (merge_sort Z.le (int_value <$> alleles))
                    fitness growthRate maxDensity).
Proof.
  intros Ha Hf Hk. unfold Genotype.init.
  apply isinstance_int_all in Ha. apply range_check_true in Hf.
  apply open_range_check_true in Hk. by rewrite Ha, Hf, Hk.
Qed.


(** C4: for every constructed genotype, [logisticGrowth(density,
    totalDensity)] fails its assertion when [totalDensity <= 0] or
    [totalDensity > 1], and otherwise returns [density * lam] with
    [lam = 1 + growthRate - (growthRate / maxDensity) * totalDensity]. *)
Theorem C4_logisticGrowth_contract
    alleles fitness growthRate maxDensity g density totalDensity :
  Genotype.init alleles fitness growthRate maxDensity = Ok g →
  (totalDensity ≤ 0 ∨ 1 < totalDensity →
     Genotype.logisticGrowth g density totalDensity = Raise AssertionError)
  ∧ (0 < totalDensity ∧ totalDensity ≤ 1 →
     Genotype.logisticGrowth g density totalDensity
     = Ok (density * (1 + growthRate - growthRate / maxDensity * totalDensity))).
Proof.
  intros (-> & _ & _ & HK & _)%Genotype_init_Ok_inv.
  unfold Genotype.logisticGrowth. simpl. split.
  - intros Hout.
    destruct (bool_decide (0 < totalDensity) && bool_decide (totalDensity ≤ 1))
      eqn:E; [|done].
    apply open_range_check_true in E as [Hlo Hhi].
    destruct Hout as [H|H].
    + by apply Qcle_not_lt in H.
    + by apply Qclt_not_le in H.
  - intros Hin. apply open_range_check_true in Hin. rewrite Hin. simpl.
    unfold truediv. rewrite decide_False; [done|].
    intros ->. by apply Qclt_not_eq in HK.
Qed.

Lemma C4_logisticGrowth_contract_witness :
  Genotype.init [PyInt 0; PyInt 1] 1 1 1
  = Ok (Genotype.mk [0; 1]%Z 1 1 1)
  ∧ Genotype.logisticGrowth (Genotype.mk [0; 1]%Z 1 1 1) 1 (1 + 1)
    = Raise AssertionError.
Proof.
  split; [reflexivity|].
  apply (C4_logisticGrowth_contract [PyInt 0; PyInt 1] 1 1 1 _ 1 (1 + 1));
    [reflexivity|].
  right. reflexivity.
Defined.



(** ** Reasoning about computations on the store *)

Lemma bind_Ok_inv {A B} (m : Deme.M A) (f : A → Deme.M B) h b h' :
  (m ≫= f) h = Ok (b, h') → ∃ a h1, m h = Ok (a, h1) ∧ f a h1 = Ok (b, h').
Proof.
  unfold mbind, Deme.M_bind. destruct (m h) as [[a h1]|]; [|done]. eauto.
Qed.

Lemma bind_Ok {A B} (m : Deme.M A) (f : A → Deme.M B) h a h1 :
  m h = Ok (a, h1) → (m ≫= f) h = f a h1.
Proof. unfold mbind, Deme.M_bind. by intros ->. Qed.

Lemma result_bind_Ok_inv {A B} (m : result A) (f : A → result B) b :
  m ≫= f = Ok b → ∃ a, m = Ok a ∧ f a = Ok b.
Proof. destruct m; [|done]. eauto. Qed.

Lemma lift_Ok_inv {A} (r : result A) h a h' :
  Deme.lift r h = Ok (a, h') → r = Ok a ∧ h' = h.
Proof. unfold Deme.lift. destruct r; [|done]. by intros [= -> ->]. Qed.

Lemma lift_Ok {A} (r : result A) h a : r = Ok a → Deme.lift r h = Ok (a, h).
Proof. by intros ->. Qed.

Lemma get_deme_Ok_inv a h d h' :
  Deme.get_deme a h = Ok (d, h') → Deme.heap_demes h !! a = Some d ∧ h' = h.
Proof.
  unfold Deme.get_deme. destruct (Deme.heap_demes h !! a); [|done].
  by intros [= -> ->].
Qed.

Lemma get_deme_Ok a h d :
  Deme.heap_demes h !! a = Some d → Deme.get_deme a h = Ok (d, h).
Proof. unfold Deme.get_deme. by intros ->. Qed.

Lemma get_list_Ok_inv a h l h' :
  Deme.get_list a h = Ok (l, h') → Deme.heap_lists h !! a = Some l ∧ h' = h.
Proof.
  unfold Deme.get_list. destruct (Deme.heap_lists h !! a); [|done].
  by intros [= -> ->].
Qed.

Lemma get_list_Ok a h l :
  Deme.heap_lists h !! a = Some l → Deme.get_list a h = Ok (l, h).
Proof. unfold Deme.get_list. by intros ->. Qed.

Lemma set_list_Ok_inv a l h u h' :
  Deme.set_list a l h = Ok (u, h') →
  h' = Deme.Heap (<[a:=l]> (Deme.heap_lists h)) (Deme.heap_demes h)
  ∧ (a < length (Deme.heap_lists h))%nat.
Proof. unfold Deme.set_list. case_decide; [|done]. by intros [= <- <-]. Qed.

Lemma set_list_Ok a l h :
  (a < length (Deme.heap_lists h))%nat →
  Deme.set_list a l h
  = Ok ((), Deme.Heap (<[a:=l]> (Deme.heap_lists h)) (Deme.heap_demes h)).
Proof. intros H. unfold Deme.set_list. by rewrite decide_True. Qed.

Lemma set_deme_Ok_inv a d h u h' :
  Deme.set_deme a d h = Ok (u, h') →
  h' = Deme.Heap (Deme.heap_lists h) (<[a:=d]> (Deme.heap_demes h))
  ∧ (a < length (Deme.heap_demes h))%nat.
Proof. unfold Deme.set_deme. case_decide; [|done]. by intros [= <- <-]. Qed.

Lemma set_deme_Ok a d h :
  (a < length (Deme.heap_demes h))%nat →
  Deme.set_deme a d h
  = Ok ((), Deme.Heap (Deme.heap_lists h) (<[a:=d]> (Deme.heap_demes h))).
Proof. intros H. unfold Deme.set_deme. by rewrite decide_True. Qed.

(** Inversion of a successful run, one step at a time. *)
Ltac inv_run H :=
  lazymatch type of H with
  | (_ ≫= _) _ = Ok _ =>
      let H1 := fresh "Hrun" in
      let H2 := fresh "Hrun" in
      apply bind_Ok_inv in H as (? & ? & H1 & H2); inv_run H1; inv_run H2
  | Deme.lift _ _ = Ok _ => apply lift_Ok_inv in H as [H ->]
  | Deme.get_deme _ _ = Ok _ => apply get_deme_Ok_inv in H as [H ->]
  | Deme.get_list _ _ = Ok _ => apply get_list_Ok_inv in H as [H ->]
  | Deme.set_list _ _ _ = Ok _ => apply set_list_Ok_inv in H as [-> H]
  | Deme.set_deme _ _ _ = Ok _ => apply set_deme_Ok_inv in H as [-> H]
  | mret _ _ = Ok _ => injection H as <- <-
  | _ => idtac
  end.

Ltac inv_result H :=
  repeat (apply result_bind_Ok_inv in H as (? & ? & H)).

(** Every iteration of a loop that returns has returned, from a state that
    satisfies the invariant of the loop. *)
Lemma foldM_Ok_each {S X} (P : S → Prop) (body : S → X → result S) xs :
  (∀ s x s', body s x = Ok s' → P s → P s') →
  ∀ s s', foldM body s xs = Ok s' → P s →
  ∀ x, x ∈ xs → ∃ s1 s2, P s1 ∧ body s1 x = Ok s2.
Proof.
  intros Hbody.
  induction xs as [|y xs IH]; intros s s' Hrun HP x Hx; simpl in Hrun.
  - by apply elem_of_nil in Hx.
  - apply result_bind_Ok_inv in Hrun as (s1 & H1 & H2).
    apply elem_of_cons in Hx as [->|Hx]; [by eauto|].
    eapply IH; [exact H2|by eapply Hbody|done].
Qed.

(** ** Deme: the local phases as list transformers *)

(** The loop that copies [newDensities] into the density list. *)
Lemma copy_loop (new dens : list Qc) (n : nat) :
  (n ≤ length dens)%nat → (n ≤ length new)%nat →
  foldM (λ dens g, x ← index new g; store dens g x) dens (range n)
  = Ok (pointwise (λ g _, default 0 (new !! g)) n dens).
Proof.
  intros Hd Hn. apply foldM_pointwise; [done|].
  intros l' g x Hg Hx.
  destruct (lookup_lt_is_Some_2 new g) as [y Hy]; [lia|].
  rewrite (index_Ok _ _ _ Hy), Hy. simpl.
  apply store_Ok. by eapply lookup_lt_Some.
Qed.

Lemma selection_of_pointwise (d : Deme.t) (dens : list Qc) :
  (length (Deme.genotypes d) ≤ length dens)%nat →
  Deme.selection_of d dens
  = Ok (pointwise (selected_density d) (length (Deme.genotypes d)) dens).
Proof.
  intros Hlen. unfold Deme.selection_of.
  set (n := length (Deme.genotypes d)) in *.
  set (r := Deme.refugeProportion d).
  rewrite (foldM_pointwise _ (λ g x, x * fitness_at d g)).
  - simpl. rewrite copy_loop; [| done |].
    + f_equal. apply list_eq. intros i. rewrite !pointwise_lookup.
      destruct (dens !! i) as [x|] eqn:Hx; simpl; [|done].
      case_decide; [|done]. f_equal.
      rewrite list_lookup_fmap, lookup_zip_with, pointwise_lookup,
        !list_lookup_fmap, Hx. simpl.
      rewrite decide_True by done. simpl.
      unfold sum, selected_density. simpl. done.
    + rewrite length_fmap, length_zip_with, pointwise_length, !length_fmap. lia.
  - by rewrite length_fmap.
  - intros l' g x Hg Hx. rewrite (index_Ok _ _ _ Hx). simpl.
    destruct (lookup_lt_is_Some_2 (Deme.genotypes d) g) as [gt Hgt]; [done|].
    rewrite (index_Ok _ _ _ Hgt). simpl.
    unfold fitness_at. rewrite Hgt. simpl.
    apply store_Ok. by eapply lookup_lt_Some.
Qed.

(** A method that rewrites the density list of the deme at [self]. *)
Lemma update_densities_run (f : Deme.t → list Qc → result (list Qc))
    (h : Deme.heap) (self : nat) (d : Deme.t) (dens dens' : list Qc) :
  Deme.heap_demes h !! self = Some d →
  Deme.heap_lists h !! Deme.genotypeDensities d = Some dens →
  f d dens = Ok dens' →
  (d ← Deme.get_deme self;
   dens ← Deme.get_list (Deme.genotypeDensities d);
   dens' ← Deme.lift (f d dens);
   Deme.set_list (Deme.genotypeDensities d) dens') h
  = Ok ((), Deme.Heap (<[Deme.genotypeDensities d:=dens']> (Deme.heap_lists h))
                      (Deme.heap_demes h)).
Proof.
  intros Hd Hl Hf. unfold mbind, Deme.M_bind, Deme.get_deme. rewrite Hd.
  unfold Deme.get_list. rewrite Hl. unfold Deme.lift. rewrite Hf.
  unfold Deme.set_list. simpl. rewrite decide_True; [done|].
  by eapply lookup_lt_Some.
Qed.

Lemma selection_run (h : Deme.heap) (self : nat) (d : Deme.t) (dens : list Qc) :
  Deme.heap_demes h !! self = Some d →
  Deme.heap_lists h !! Deme.genotypeDensities d = Some dens →
  (length (Deme.genotypes d) ≤ length dens)%nat →
  Deme.selection self h
  = Ok ((), Deme.Heap
              (<[Deme.genotypeDensities d :=
                   pointwise (selected_density d) (length (Deme.genotypes d)) dens]>
                 (Deme.heap_lists h))
              (Deme.heap_demes h)).
Proof.
  intros Hd Hl Hlen. unfold Deme.selection.
  apply (update_densities_run Deme.selection_of h self d dens); try done.
  by apply selection_of_pointwise.
Qed.

(** The first loop of [selection] reads [selected[g]] for every genotype
    index: it succeeds only if the density list is at least as long as the
    genotype list. *)
Lemma selection_of_covers d dens dens' :
  Deme.selection_of d dens = Ok dens' →
  (length (Deme.genotypes d) ≤ length dens)%nat.
Proof.
  unfold Deme.selection_of. intros H.
  apply result_bind_Ok_inv in H as (selected & H & _).
  destruct (decide (length (Deme.genotypes d) ≤ length dens)%nat) as [|Hgt];
    [done|].
  eapply (foldM_Ok_each (λ l : list Qc, length l = length dens))
    with (x := length dens) in H as (s1 & s2 & Hs1 & Hbody).
  2:{ intros s x s' Hb <-. inv_result Hb. by eapply store_length. }
  2:{ by rewrite length_fmap. }
  2:{ unfold range. apply elem_of_seq. lia. }
  apply result_bind_Ok_inv in Hbody as (x & Hx & _).
  apply index_Ok_inv, lookup_lt_Some in Hx. lia.
Qed.

Lemma selection_Ok_inv self h u h' :
  Deme.selection self h = Ok (u, h') →
  ∃ d dens,
    Deme.heap_demes h !! self = Some d
    ∧ Deme.heap_lists h !! Deme.genotypeDensities d = Some dens
    ∧ (length (Deme.genotypes d) ≤ length dens)%nat.
Proof.
  unfold Deme.selection. intros Hrun.
  apply bind_Ok_inv in Hrun as (d & h1 & Hd & Hrun). inv_run Hd.
  apply bind_Ok_inv in Hrun as (dens & h1 & Hl & Hrun). inv_run Hl.
  apply bind_Ok_inv in Hrun as (dens' & h1 & Hsel & Hrun). inv_run Hsel.
  exists d, dens. split_and!; [done..|]. by eapply selection_of_covers.
Qed.

(** C7: with [refugeProportion = 1.0], a call of [selection()] leaves every
    genotype density (indeed the whole store) unchanged, whatever the
    fitness values are; the call returns when the density vector covers
    the genotype list, as it does after construction. *)
Theorem C7_selection_full_refuge
    (h : Deme.heap) (self : nat) (d : Deme.t) :
  Deme.heap_demes h !! self = Some d →
  Deme.refugeProportion d = 1 →
  (∀ u h', Deme.selection self h = Ok (u, h') → h' = h)
  ∧ (∀ dens,
       Deme.heap_lists h !! Deme.genotypeDensities d = Some dens →
       (length (Deme.genotypes d) ≤ length dens)%nat →
       Deme.selection self h = Ok ((), h)).
Proof.
  intros Hd Hr.
  assert (∀ dens,
       Deme.heap_lists h !! Deme.genotypeDensities d = Some dens →
       (length (Deme.genotypes d) ≤ length dens)%nat →
       Deme.selection self h = Ok ((), h)) as Hrun.
  { intros dens Hl Hlen. rewrite (selection_run h self d dens) by done.
    rewrite pointwise_id.
    - rewrite list_insert_id by done. by destruct h.
    - intros g x _ _. unfold selected_density. rewrite Hr. ring. }
  split; [|done].
  intros u h' Hsel.
  destruct (selection_Ok_inv _ _ _ _ Hsel) as (d' & dens & Hd' & Hl & Hlen).
  assert (d' = d) as -> by congruence.
  rewrite (Hrun dens Hl Hlen) in Hsel. by injection Hsel as _ <-.
Qed.


Lemma C7_selection_full_refuge_witness :
  Deme.selection 0 eg_refuge_heap = Ok ((), eg_refuge_heap).
Proof.
  refine (proj2 (C7_selection_full_refuge eg_refuge_heap 0 _ _ _) _ _ _).
  - vm_compute. reflexivity.
  - reflexivity.
  - reflexivity.
  - simpl. lia.
Defined.


Lemma logisticGrowth_of_pointwise (d : Deme.t) (dens : list Qc) :
  (length (Deme.genotypes d) ≤ length dens)%nat →
  Forall (λ gt, Genotype.maxDensity gt ≠ 0) (Deme.genotypes d) →
  Deme.logisticGrowth_of d dens
  = Ok (pointwise (λ g x, x * lam_at d g (sum dens))
                  (length (Deme.genotypes d)) dens).
Proof.
  intros Hlen HK. unfold Deme.logisticGrowth_of.
  apply foldM_pointwise; [done|].
  intros l' g x Hg Hx.
  destruct (lookup_lt_is_Some_2 (Deme.genotypes d) g) as [gt Hgt]; [done|].
  rewrite (index_Ok _ _ _ Hgt). simpl.
  unfold truediv. rewrite decide_False by apply (Forall_lookup_1 _ _ _ _ HK Hgt).
  simpl. rewrite (index_Ok _ _ _ Hx). simpl.
  unfold lam_at. rewrite Hgt. apply store_Ok. by eapply lookup_lt_Some.
Qed.

Lemma logisticGrowth_spec_of_pointwise (d : Deme.t) (dens : list Qc) :
  (length (Deme.genotypes d) ≤ length dens)%nat →
  Forall (λ gt, Genotype.maxDensity gt ≠ 0) (Deme.genotypes d) →
  0 < sum dens ∧ sum dens ≤ 1 →
  logisticGrowth_spec_of d dens
  = Ok (pointwise (λ g x, x * lam_at d g (sum dens))
                  (length (Deme.genotypes d)) dens).
Proof.
  intros Hlen HK Htot. unfold logisticGrowth_spec_of.
  apply foldM_pointwise; [done|].
  intros l' g x Hg Hx.
  destruct (lookup_lt_is_Some_2 (Deme.genotypes d) g) as [gt Hgt]; [done|].
  rewrite (index_Ok _ _ _ Hgt). simpl. rewrite (index_Ok _ _ _ Hx). simpl.
  unfold Genotype.logisticGrowth.
  apply open_range_check_true in Htot. rewrite Htot. simpl.
  unfold truediv. rewrite decide_False by apply (Forall_lookup_1 _ _ _ _ HK Hgt).
  simpl. unfold lam_at. rewrite Hgt. apply store_Ok. by eapply lookup_lt_Some.
Qed.

Lemma logisticGrowth_spec_of_raises (d : Deme.t) (dens : list Qc) :
  (0 < length (Deme.genotypes d) ≤ length dens)%nat →
  ¬ (0 < sum dens ∧ sum dens ≤ 1) →
  logisticGrowth_spec_of d dens = Raise AssertionError.
Proof.
  intros [Hpos Hlen] Htot. unfold logisticGrowth_spec_of.
  destruct (Deme.genotypes d) as [|gt gts] eqn:Hg; simpl in *; [lia|].
  destruct dens as [|x dens]; simpl in *; [lia|].
  unfold Genotype.logisticGrowth.
  destruct (bool_decide (0 < sum (x :: dens)) && bool_decide (sum (x :: dens) ≤ 1))
    eqn:E; [|done].
  by apply open_range_check_true in E.
Qed.

(** C5, as stated, fails on a reachable total density: after one round of
    growth the deme of [eg_grown_heap] has total density 1.25; there
    [Deme.logisticGrowth] succeeds, while the per-genotype function of
    [Genotype] fails its assertion. *)
Lemma C5_counterexample :
  densities_of eg_grown_heap 0 = Some [q 5 4]
  ∧ is_Ok (Deme.logisticGrowth 0 eg_grown_heap)
  ∧ logisticGrowth_spec 0 eg_grown_heap = Raise AssertionError.
Proof.
  split_and!.
  - apply (bool_decide_eq_true_1 _). by vm_compute.
  - eexists. reflexivity.
  - reflexivity.
Qed.

(** C5, amended: [Deme.logisticGrowth()] replaces every genotype's density
    [x] by [x * lam], with [lam] computed from the total density taken once
    at the start of the phase; this is the result of [Genotype]'s
    per-genotype function whenever that total lies in (0,1], and outside
    that range the per-genotype function fails its assertion while
    [Deme.logisticGrowth()] still applies the formula. *)
Theorem C5_logisticGrowth_snapshot
    (h : Deme.heap) (self : nat) (d : Deme.t) (dens : list Qc) :
  Deme.heap_demes h !! self = Some d →
  Deme.heap_lists h !! Deme.genotypeDensities d = Some dens →
  (0 < length (Deme.genotypes d) ≤ length dens)%nat →
  Forall (λ gt, Genotype.maxDensity gt ≠ 0) (Deme.genotypes d) →
  Deme.logisticGrowth self h
  = Ok ((), Deme.Heap
              (<[Deme.genotypeDensities d :=
                   pointwise (λ g x, x * lam_at d g (sum dens))
                             (length (Deme.genotypes d)) dens]>
                 (Deme.heap_lists h))
              (Deme.heap_demes h))
  ∧ (0 < sum dens ∧ sum dens ≤ 1 →
     logisticGrowth_spec self h = Deme.logisticGrowth self h)
  ∧ (¬ (0 < sum dens ∧ sum dens ≤ 1) →
     logisticGrowth_spec self h = Raise AssertionError).
Proof.
  intros Hd Hl [Hpos Hlen] HK.
  assert (Deme.logisticGrowth self h
          = Ok ((), Deme.Heap
              (<[Deme.genotypeDensities d :=
                   pointwise (λ g x, x * lam_at d g (sum dens))
                             (length (Deme.genotypes d)) dens]>
                 (Deme.heap_lists h))
              (Deme.heap_demes h))) as Hcode.
  { apply (update_densities_run Deme.logisticGrowth_of h self d dens); try done.
    by apply logisticGrowth_of_pointwise. }
  split_and!; [done| |].
  - intros Htot. rewrite Hcode.
    apply (update_densities_run logisticGrowth_spec_of h self d dens); try done.
    by apply logisticGrowth_spec_of_pointwise.
  - intros Htot. unfold logisticGrowth_spec, mbind, Deme.M_bind, Deme.get_deme.
    rewrite Hd. unfold Deme.get_list. rewrite Hl. unfold Deme.lift.
    by rewrite logisticGrowth_spec_of_raises.
Qed.

Lemma C5_logisticGrowth_snapshot_witness :
  Deme.logisticGrowth 0 eg_open_heap
  = Ok ((), Deme.Heap
              (<[0%nat :=
                   pointwise (λ g x, x * lam_at (Deme.mk [eg_g00; eg_g01] 0 0
                                 [0; 1]%Z [q 3 4; q 1 4] []) g
                                 (sum [q 2 5; q 2 5]))
                             2 [q 2 5; q 2 5]]>
                 (Deme.heap_lists eg_open_heap))
              (Deme.heap_demes eg_open_heap))
  ∧ (0 < sum [q 2 5; q 2 5] ∧ sum [q 2 5; q 2 5] ≤ 1 →
     logisticGrowth_spec 0 eg_open_heap = Deme.logisticGrowth 0 eg_open_heap)
  ∧ (¬ (0 < sum [q 2 5; q 2 5] ∧ sum [q 2 5; q 2 5] ≤ 1) →
     logisticGrowth_spec 0 eg_open_heap = Raise AssertionError).
Proof.
  apply (C5_logisticGrowth_snapshot eg_open_heap 0
           (Deme.mk [eg_g00; eg_g01] 0 0 [0; 1]%Z [q 3 4; q 1 4] [])
           [q 2 5; q 2 5]).
  - apply (bool_decide_eq_true_1 _). by vm_compute.
  - reflexivity.
  - simpl. lia.
  - repeat constructor; by vm_compute.
Defined.

(** ** TwoDTorus: the orchestration methods *)

Lemma zrange_pos (n : Z) : (0 < n)%Z → ∃ k, TwoDTorus.zrange n = 0%nat :: seq 1 k.
Proof.
  intros Hn. unfold TwoDTorus.zrange, range.
  destruct (Z.to_nat n) as [|k] eqn:E; [lia|]. by exists k.
Qed.

(** C3 (the code departs from the claim): on a torus with at least one
    deme, [TwoDTorus.selection()] looks up the method [selectio] on the
    first deme, which class [Deme] does not define: the call raises
    AttributeError and no deme is updated. *)
Theorem C3_selection_raises_AttributeError
    (t : TwoDTorus.t) (h : Deme.heap) (a : nat) :
  (0 < TwoDTorus.xlen t)%Z → (0 < TwoDTorus.ylen t)%Z →
  TwoDTorus.deme_at (TwoDTorus.demes t) 0 0 = Ok a →
  TwoDTorus.selection t h = Raise AttributeError.
Proof.
  intros [kx Hx]%zrange_pos [ky Hy]%zrange_pos Ha.
  unfold TwoDTorus.selection, TwoDTorus.for_all_demes.
  rewrite Hx, Hy. simpl.
  unfold mbind at 1, Deme.M_bind at 1. unfold mbind at 1, Deme.M_bind at 1.
  unfold mbind at 1, Deme.M_bind at 1.
  unfold Deme.lift at 1. by rewrite Ha.
Qed.

Lemma C3_selection_raises_AttributeError_witness :
  TwoDTorus.selection eg_torus eg_torus_heap = Raise AttributeError.
Proof.
  apply (C3_selection_raises_AttributeError eg_torus eg_torus_heap 0).
  - reflexivity.
  - reflexivity.
  - reflexivity.
Defined.

(** What the claim asks for, for comparison: [Deme.selection] on the
    first deme of the same torus does succeed. *)
Lemma Deme_selection_on_eg_torus : is_Ok (Deme.selection 0 eg_torus_heap).
Proof. eexists. reflexivity. Qed.

(** ** Loops on the store *)

(** A property of the store that every iteration keeps holds after the
    loop. *)
Lemma for_each_invariant {X} (P : Deme.heap → Prop) (body : X → Deme.M unit) xs :
  (∀ x h u h', x ∈ xs → body x h = Ok (u, h') → P h → P h') →
  ∀ h u h', Deme.for_each xs body h = Ok (u, h') → P h → P h'.
Proof.
  induction xs as [|x xs IH]; intros Hbody h u h' Hrun HP; simpl in Hrun.
  - by injection Hrun as _ <-.
  - apply bind_Ok_inv in Hrun as (u1 & h1 & H1 & H2).
    eapply IH; [|done|].
    + intros y ?????. eapply Hbody; [|done..]. by right.
    + eapply Hbody; [|done..]. by left.
Qed.

Lemma for_each_app {X} (xs ys : list X) (body : X → Deme.M unit) h :
  Deme.for_each (xs ++ ys) body h
  = (_ ← Deme.for_each xs body; Deme.for_each ys body) h.
Proof.
  revert h. induction xs as [|x xs IH]; intros h; simpl; [done|].
  unfold mbind, Deme.M_bind. destruct (body x h) as [[u h1]|]; [|done].
  apply IH.
Qed.

(** A loop over [range(n)] with an invariant indexed by the number of
    iterations done. *)
Lemma for_range_invariant (P : nat → Deme.heap → Prop)
    (body : nat → Deme.M unit) (n : nat) :
  (∀ k h u h', (k < n)%nat → body k h = Ok (u, h') → P k h → P (S k) h') →
  ∀ h u h', Deme.for_each (range n) body h = Ok (u, h') → P 0%nat h → P n h'.
Proof.
  intros Hbody. induction n as [|n IH]; intros h u h' Hrun HP.
  - simpl in Hrun. by injection Hrun as _ <-.
  - rewrite range_S, for_each_app in Hrun.
    apply bind_Ok_inv in Hrun as (u1 & h1 & H1 & H2).
    simpl in H2. apply bind_Ok_inv in H2 as (u2 & h2 & H2 & H3).
    injection H3 as _ <-.
    eapply Hbody; [|done|]; [lia|].
    eapply IH; [|done..]. intros k ?????. eapply Hbody; [lia|done..].
Qed.

(** ** Lengths are never changed *)

(** A loop whose iterations end in a [store] keeps the length of the
    list. *)
Lemma store_loop_length {A X} (body : list A → X → result (list A)) xs :
  (∀ l x l', body l x = Ok l' → length l' = length l) →
  ∀ l l', foldM body l xs = Ok l' → length l' = length l.
Proof.
  intros Hbody l l' Hrun.
  apply (foldM_invariant (λ k, length k = length l) body xs) in Hrun; [done| |done].
  intros s x s' Hs <-. by eapply Hbody.
Qed.

Lemma copy_loop_length (new dens dens' : list Qc) xs :
  foldM (λ dens g, x ← index new g; store dens g x) dens xs = Ok dens' →
  length dens' = length dens.
Proof.
  apply store_loop_length. intros l x l' H. inv_result H.
  by eapply store_length.
Qed.

Lemma randomMating_of_length d dens dens' :
  Deme.randomMating_of d dens = Ok dens' → length dens' = length dens.
Proof.
  unfold Deme.randomMating_of. intros H.
  apply result_bind_Ok_inv in H as (new & _ & H).
  by apply copy_loop_length in H.
Qed.

Lemma logisticGrowth_of_length d dens dens' :
  Deme.logisticGrowth_of d dens = Ok dens' → length dens' = length dens.
Proof.
  unfold Deme.logisticGrowth_of. apply store_loop_length.
  intros l x l' H. inv_result H. by eapply store_length.
Qed.

Lemma selection_of_length d dens dens' :
  Deme.selection_of d dens = Ok dens' → length dens' = length dens.
Proof.
  unfold Deme.selection_of. intros H.
  apply result_bind_Ok_inv in H as (new & _ & H).
  by apply copy_loop_length in H.
Qed.

Lemma receiveMigrants_of_length d dens migrants dens' :
  Deme.receiveMigrants_of d dens migrants = Ok dens' →
  length dens' = length dens.
Proof.
  unfold Deme.receiveMigrants_of. intros H.
  apply result_bind_Ok_inv in H as (_ & _ & H). revert H.
  apply store_loop_length.
  intros l x l' H. inv_result H. by eapply store_length.
Qed.

Lemma fillMigrantPools_of_length ns dens dens' :
  Deme.fillMigrantPools_of ns dens = Ok dens' → length dens' = length dens.
Proof.
  unfold Deme.fillMigrantPools_of. apply store_loop_length.
  intros l n l'. apply store_loop_length.
  intros k g k' H. inv_result H. by eapply store_length.
Qed.

Lemma shape_set_list h a l l' :
  Deme.heap_lists h !! a = Some l → length l' = length l →
  shape (Deme.Heap (<[a:=l']> (Deme.heap_lists h)) (Deme.heap_demes h))
  = shape h.
Proof.
  intros Hl Hlen. unfold shape. simpl. f_equal.
  rewrite list_fmap_insert, Hlen. apply list_insert_id.
  by rewrite list_lookup_fmap, Hl.
Qed.

Lemma shape_set_deme h a d d' :
  Deme.heap_demes h !! a = Some d →
  Deme.genotypes d' = Deme.genotypes d →
  Deme.genotypeDensities d' = Deme.genotypeDensities d →
  shape (Deme.Heap (Deme.heap_lists h) (<[a:=d']> (Deme.heap_demes h)))
  = shape h.
Proof.
  intros Hd Hg Ha. unfold shape. simpl. f_equal.
  rewrite list_fmap_insert, Hg, Ha. apply list_insert_id.
  by rewrite list_lookup_fmap, Hd.
Qed.

Lemma shape_lookup_deme h h' a d :
  shape h' = shape h → Deme.heap_demes h !! a = Some d →
  ∃ d', Deme.heap_demes h' !! a = Some d'
        ∧ Deme.genotypes d' = Deme.genotypes d
        ∧ Deme.genotypeDensities d' = Deme.genotypeDensities d.
Proof.
  unfold shape. intros [= _ Hd] Ha.
  assert ((λ d, (Deme.genotypes d, Deme.genotypeDensities d))
            <$> Deme.heap_demes h' !! a
          = Some (Deme.genotypes d, Deme.genotypeDensities d)) as H.
  { by rewrite <-list_lookup_fmap, Hd, list_lookup_fmap, Ha. }
  destruct (Deme.heap_demes h' !! a) as [d'|]; [|done].
  injection H as ??. eauto.
Qed.

Lemma shape_lookup_list h h' a l :
  shape h' = shape h → Deme.heap_lists h !! a = Some l →
  ∃ l', Deme.heap_lists h' !! a = Some l' ∧ length l' = length l.
Proof.
  unfold shape. intros [= Hl _] Ha.
  assert (length <$> Deme.heap_lists h' !! a = Some (length l)) as H.
  { by rewrite <-list_lookup_fmap, Hl, list_lookup_fmap, Ha. }
  destruct (Deme.heap_lists h' !! a) as [l'|]; [|done].
  injection H as ?. eauto.
Qed.

Lemma shape_deme_lengths h h' :
  shape h' = shape h → ∀ self, deme_lengths h' self = deme_lengths h self.
Proof.
  unfold shape. intros [= Hl Hd] self. unfold deme_lengths.
  assert (∀ a, length <$> Deme.heap_lists h' !! a
               = length <$> Deme.heap_lists h !! a) as Hl'.
  { intros a. by rewrite <-!list_lookup_fmap, Hl. }
  assert ((λ d, (Deme.genotypes d, Deme.genotypeDensities d))
            <$> Deme.heap_demes h' !! self
          = (λ d, (Deme.genotypes d, Deme.genotypeDensities d))
            <$> Deme.heap_demes h !! self) as Hd'.
  { by rewrite <-!list_lookup_fmap, Hd. }
  destruct (Deme.heap_demes h' !! self) as [d'|],
           (Deme.heap_demes h !! self) as [d|]; simpl in *; try done.
  injection Hd' as -> ->. specialize (Hl' (Deme.genotypeDensities d)).
  destruct (Deme.heap_lists h' !! _), (Deme.heap_lists h !! _);
    simpl in *; try done.
  by injection Hl' as ->.
Qed.

Lemma keeps_shape_keeps_lengths {A} (m : Deme.M A) :
  (∀ h a h', m h = Ok (a, h') → shape h' = shape h) → keeps_lengths m.
Proof.
  intros Hm h a h' Hrun self n. by rewrite (shape_deme_lengths h h' (Hm _ _ _ Hrun)).
Qed.

(** A method that rewrites the density list of its deme with a list of the
    same length keeps the shape. *)
Lemma update_densities_shape (f : Deme.t → list Qc → result (list Qc)) self :
  (∀ d dens dens', f d dens = Ok dens' → length dens' = length dens) →
  ∀ h u h',
    (d ← Deme.get_deme self;
     dens ← Deme.get_list (Deme.genotypeDensities d);
     dens' ← Deme.lift (f d dens);
     Deme.set_list (Deme.genotypeDensities d) dens') h = Ok (u, h') →
    shape h' = shape h.
Proof.
  intros Hf h u h' Hrun. inv_run Hrun.
  eapply shape_set_list; [done|]. by eapply Hf.
Qed.

Lemma updateAlleleFreqs_shape self h u h' :
  Deme.updateAlleleFreqs self h = Ok (u, h') → shape h' = shape h.
Proof.
  unfold Deme.updateAlleleFreqs. intros Hrun. inv_run Hrun.
  by eapply shape_set_deme.
Qed.

Lemma randomMating_shape self h u h' :
  Deme.randomMating self h = Ok (u, h') → shape h' = shape h.
Proof.
  unfold Deme.randomMating. intros Hrun.
  apply bind_Ok_inv in Hrun as (u1 & h1 & H1 & H2).
  apply updateAlleleFreqs_shape in H1 as <-.
  revert H2. apply (update_densities_shape Deme.randomMating_of).
  apply randomMating_of_length.
Qed.

Lemma logisticGrowth_shape self h u h' :
  Deme.logisticGrowth self h = Ok (u, h') → shape h' = shape h.
Proof.
  apply (update_densities_shape Deme.logisticGrowth_of).
  apply logisticGrowth_of_length.
Qed.

Lemma selection_shape self h u h' :
  Deme.selection self h = Ok (u, h') → shape h' = shape h.
Proof.
  apply (update_densities_shape Deme.selection_of). apply selection_of_length.
Qed.

Lemma receiveMigrants_shape self migrants h u h' :
  Deme.receiveMigrants self migrants h = Ok (u, h') → shape h' = shape h.
Proof.
  apply (update_densities_shape (λ d dens, Deme.receiveMigrants_of d dens migrants)).
  intros d dens dens'. apply receiveMigrants_of_length.
Qed.

Lemma fillMigrantPools_shape self h u h' :
  Deme.fillMigrantPools self h = Ok (u, h') → shape h' = shape h.
Proof.
  unfold Deme.fillMigrantPools. intros Hrun.
  apply bind_Ok_inv in Hrun as (d & h1 & Hd & Hrun). inv_run Hd.
  apply bind_Ok_inv in Hrun as (dens & h1 & Hl & Hrun). inv_run Hl.
  apply bind_Ok_inv in Hrun as (ns & h1 & Hns & Hrun). inv_run Hns.
  apply bind_Ok_inv in Hrun as (u1 & h1 & Hset & Hrun). inv_run Hset.
  apply bind_Ok_inv in Hrun as (dens' & h1 & Hfill & Hrun). inv_run Hfill.
  inv_run Hrun.
  rewrite (shape_set_list _ _ dens); simpl.
  - by eapply shape_set_deme.
  - done.
  - by eapply fillMigrantPools_of_length.
Qed.

Lemma sendMigrants_shape self h u h' :
  Deme.sendMigrants self h = Ok (u, h') → shape h' = shape h.
Proof.
  unfold Deme.sendMigrants. intros Hrun.
  apply bind_Ok_inv in Hrun as (d & h1 & H1 & H2). inv_run H1.
  apply (for_each_invariant (λ k, shape k = shape h)) in H2; [done| |done].
  intros n k u' k' _ Hbody <-.
  apply bind_Ok_inv in Hbody as (d1 & k1 & Hb1 & Hbody). inv_run Hb1.
  apply bind_Ok_inv in Hbody as (nb & k1 & Hb2 & Hbody). inv_run Hb2.
  apply bind_Ok_inv in Hbody as (u2 & k2 & Hb3 & Hbody).
  apply receiveMigrants_shape in Hb3 as <-.
  apply bind_Ok_inv in Hbody as (d2 & k3 & Hb4 & Hbody). inv_run Hb4.
  apply bind_Ok_inv in Hbody as (nb2 & k3 & Hb5 & Hbody). inv_run Hb5.
  apply bind_Ok_inv in Hbody as (ns & k3 & Hb6 & Hbody). inv_run Hb6.
  inv_run Hbody. by eapply shape_set_deme.
Qed.

(** ** Construction of a deme *)

Lemma foldM_Ok_all {S X} (body : S → X → result S) xs :
  ∀ s s', foldM body s xs = Ok s' →
  ∀ x, x ∈ xs → ∃ s1 s2, body s1 x = Ok s2.
Proof.
  induction xs as [|y xs IH]; intros s s' Hrun x Hx; simpl in Hrun.
  - by apply elem_of_nil in Hx.
  - apply result_bind_Ok_inv in Hrun as (s1 & H1 & H2).
    apply elem_of_cons in Hx as [->|Hx]; eauto.
Qed.

Lemma comprehension_length {A B} (f : A → result B) (l : list A) :
  ∀ acc r,
    foldM (λ acc x, y ← f x; Ok (acc ++ [y])) acc l = Ok r →
    length r = (length acc + length l)%nat.
Proof.
  induction l as [|x l IH]; intros acc r H; simpl in *.
  - injection H as <-. lia.
  - apply result_bind_Ok_inv in H as (acc' & H1 & H2).
    apply result_bind_Ok_inv in H1 as (y & _ & [= <-]).
    apply IH in H2. rewrite H2, length_app. simpl. lia.
Qed.

Lemma genotypeFreqs_of_length dens fs :
  Deme.genotypeFreqs_of dens = Ok fs → length fs = length dens.
Proof.
  unfold Deme.genotypeFreqs_of. intros H.
  by apply comprehension_length in H.
Qed.

(** When the deme has an allele, the allele-frequency update reads
    [gFreqs[g]] for every genotype index: it succeeds only if the density
    list is at least as long as the genotype list. *)
Lemma updateAlleleFreqs_of_covers d dens fs :
  Deme.alleles d ≠ [] →
  Deme.updateAlleleFreqs_of d dens = Ok fs →
  (length (Deme.genotypes d) ≤ length dens)%nat.
Proof.
  intros Hne H. unfold Deme.updateAlleleFreqs_of in H.
  apply result_bind_Ok_inv in H as (gFreqs & HgF & H).
  apply genotypeFreqs_of_length in HgF as <-.
  destruct (Deme.alleles d) as [|a rest]; [done|]. simpl in H.
  apply result_bind_Ok_inv in H as (fs1 & H & _).
  apply result_bind_Ok_inv in H as (freq & H & _).
  destruct (decide (length (Deme.genotypes d) ≤ length gFreqs)%nat) as [|Hgt];
    [done|].
  destruct (foldM_Ok_all _ _ _ _ H (length gFreqs)) as (s1 & s2 & Hbody).
  { unfold range. apply elem_of_seq. lia. }
  apply result_bind_Ok_inv in Hbody as (gt & _ & Hbody).
  apply result_bind_Ok_inv in Hbody as (af & _ & Hbody).
  apply result_bind_Ok_inv in Hbody as (gf & Hgf & _).
  apply index_Ok_inv, lookup_lt_Some in Hgf. lia.
Qed.

Lemma pymax_Ok_inv l top : pymax l = Ok top → l ≠ [].
Proof. by destruct l. Qed.

(** What a successful construction has checked and what it added to the
    store: one deme record, at the next free address. *)
Lemma Deme_init_Ok_inv gl gd rp h a h' :
  Deme.init gl gd rp h = Ok (a, h') →
  ∃ dens fs,
    Deme.heap_lists h !! gd = Some dens
    ∧ sum dens ≤ 1
    ∧ (0 ≤ rp ∧ rp ≤ 1)
    ∧ a = length (Deme.heap_demes h)
    ∧ h' = Deme.Heap (Deme.heap_lists h)
             (Deme.heap_demes h ++ [Deme.mk gl gd rp (Deme.alleles_of gl) fs []])
    ∧ (length gl ≤ length dens)%nat.
Proof.
  unfold Deme.init. intros Hrun.
  apply bind_Ok_inv in Hrun as (dens & h1 & Hl & Hrun). inv_run Hl.
  apply bind_Ok_inv in Hrun as (u1 & h1 & Hsum & Hrun). inv_run Hsum.
  apply bind_Ok_inv in Hrun as (u2 & h1 & Hrp & Hrun). inv_run Hrp.
  apply bind_Ok_inv in Hrun as (top & h1 & Htop & Hrun). inv_run Htop.
  apply bind_Ok_inv in Hrun as (fs & h1 & Hfs & Hrun). inv_run Hfs.
  apply assert_Ok_inv, bool_decide_eq_true in Hsum.
  apply assert_Ok_inv, range_check_true in Hrp.
  apply pymax_Ok_inv in Htop.
  unfold Deme.new_deme in Hrun. injection Hrun as <- <-.
  destruct Hrp as [Hrp0 Hrp1].
  exists dens, fs. split_and!; [done..|].
  by apply updateAlleleFreqs_of_covers in Hfs.
Qed.

(** C9, as stated, fails at construction: a density vector longer than the
    genotype list is accepted, and the deme that results has a genotype
    list of length 1 and a density vector of length 2. *)
Lemma C9_counterexample :
  fst <$> Deme.init [eg_g00] 0 0 (eg_lists [q 3 10; q 3 10]) = Ok 0%nat
  ∧ deme_lengths
      (heap_after (Deme.init [eg_g00] 0 0) (eg_lists [q 3 10; q 3 10])) 0
    = Some (2%nat, 1%nat).
Proof. split; by vm_compute. Qed.

(** C9, amended: construction fails when the density vector is shorter
    than the genotype list, but accepts a longer one; every operation
    ([randomMating], [logisticGrowth], [selection], [receiveMigrants],
    [fillMigrantPools], [sendMigrants]) leaves the length of every deme's
    density vector and of its genotype list as it found them, so the two
    lengths stay equal wherever they are equal. *)
Theorem C9_lengths :
  (∀ gl gd rp h a h',
     Deme.init gl gd rp h = Ok (a, h') →
     ∃ nd, deme_lengths h' a = Some (nd, length gl) ∧ (length gl ≤ nd)%nat)
  ∧ (∀ self,
       keeps_lengths (Deme.randomMating self)
       ∧ keeps_lengths (Deme.logisticGrowth self)
       ∧ keeps_lengths (Deme.selection self)
       ∧ keeps_lengths (Deme.fillMigrantPools self)
       ∧ keeps_lengths (Deme.sendMigrants self))
  ∧ (∀ self migrants, keeps_lengths (Deme.receiveMigrants self migrants)).
Proof.
  split_and!.
  - intros gl gd rp h a h' (dens & fs & Hl & _ & _ & -> & -> & Hlen)%Deme_init_Ok_inv.
    exists (length dens). split; [|done].
    unfold deme_lengths. simpl.
    rewrite lookup_app_r, Nat.sub_diag by done. simpl. by rewrite Hl.
  - intros self. split_and!; apply keeps_shape_keeps_lengths.
    + apply randomMating_shape.
    + apply logisticGrowth_shape.
    + apply selection_shape.
    + apply fillMigrantPools_shape.
    + apply sendMigrants_shape.
  - intros self migrants. apply keeps_shape_keeps_lengths.
    apply receiveMigrants_shape.
Qed.

(** ** Construction of the torus *)

Lemma addNeighbour_Ok_inv self nb rate h u h' :
  Deme.addNeighbour self nb rate h = Ok (u, h') →
  ∃ d, Deme.heap_demes h !! self = Some d
       ∧ (0 ≤ rate ∧ rate ≤ 1)
       ∧ h' = Deme.Heap (Deme.heap_lists h)
                (<[self := Deme.with_neighbours d
                     (Deme.neighbours d ++ [Neighbour.mk nb rate []])]>
                   (Deme.heap_demes h)).
Proof.
  unfold Deme.addNeighbour. intros Hrun.
  apply bind_Ok_inv in Hrun as (d & h1 & Hd & Hrun). inv_run Hd.
  apply bind_Ok_inv in Hrun as (n & h1 & Hn & Hrun). inv_run Hn.
  inv_run Hrun. unfold Neighbour.init in Hn.
  apply result_bind_Ok_inv in Hn as (u1 & Hr & [= <-]).
  apply assert_Ok_inv, range_check_true in Hr. eauto.
Qed.

(** [addNeighbour] appends one edge to the deme it is called on and leaves
    the edges of every other deme alone. *)
Lemma addNeighbour_appends self nb rate h u h' :
  Deme.addNeighbour self nb rate h = Ok (u, h') →
  appends h h' self [Neighbour.mk nb rate []].
Proof.
  intros (d & Hd & _ & ->)%addNeighbour_Ok_inv.
  unfold appends, neighbours_of. simpl. split_and!.
  - done.
  - by eapply shape_set_deme.
  - rewrite list_lookup_insert_eq by (by eapply lookup_lt_Some).
    by rewrite Hd.
  - intros a Ha. by rewrite list_lookup_insert_ne.
Qed.

Lemma appends_trans h1 h2 h3 a es1 es2 :
  appends h1 h2 a es1 → appends h2 h3 a es2 → appends h1 h3 a (es1 ++ es2).
Proof.
  intros (Hl1 & Hn1 & Ha1 & Ho1) (Hl2 & Hn2 & Ha2 & Ho2). split_and!.
  - congruence.
  - congruence.
  - rewrite Ha2, Ha1. destruct (neighbours_of h1 a); simpl; [|done].
    by rewrite app_assoc.
  - intros b Hb. rewrite Ho2, Ho1; done.
Qed.

(** The loop that creates the demes allocates consecutive addresses; every
    new deme has the genotype list, the density list at its position in
    [genotypeDensities], and no neighbours. *)
Lemma create_demes_Ok_inv gl gds rps xs :
  ∀ d0 h0 d h1,
    TwoDTorus.create_demes gl gds rps xs d0 h0 = Ok (d, h1) →
    Deme.heap_lists h1 = Deme.heap_lists h0
    ∧ d = d0 ++ seq (length (Deme.heap_demes h0)) (length xs)
    ∧ length (Deme.heap_demes h1) = (length (Deme.heap_demes h0) + length xs)%nat
    ∧ (∀ a, (a < length (Deme.heap_demes h0))%nat →
           Deme.heap_demes h1 !! a = Deme.heap_demes h0 !! a)
    ∧ (∀ a, (length (Deme.heap_demes h0) ≤ a < length (Deme.heap_demes h1))%nat →
           neighbours_of h1 a = Some [])
    ∧ (∀ i x, xs !! i = Some x →
         ∃ dm, Deme.heap_demes h1 !! (length (Deme.heap_demes h0) + i)%nat
               = Some dm
               ∧ Deme.genotypes dm = gl
               ∧ gds !! x = Some (Deme.genotypeDensities dm)).
Proof.
  induction xs as [|x xs IH]; intros d0 h0 d h1 Hrun; simpl in Hrun.
  - injection Hrun as <- <-. simpl. rewrite app_nil_r.
    split_and!; try done; try lia; intros; lia.
  - apply bind_Ok_inv in Hrun as (gd & h' & Hgd & Hrun). inv_run Hgd.
    apply bind_Ok_inv in Hrun as (rp & h' & Hrp & Hrun). inv_run Hrp.
    apply bind_Ok_inv in Hrun as (a & h' & Ha & Hrun).
    apply Deme_init_Ok_inv in Ha as (dens & fs & _ & _ & _ & -> & -> & _).
    apply IH in Hrun as (Hl & -> & Hlen & Hold & Hnew & Hrec). simpl in *.
    rewrite length_app in *. simpl in *.
    split_and!.
    + done.
    + rewrite <-app_assoc. simpl. do 3 f_equal. lia.
    + lia.
    + intros b Hb. rewrite Hold by lia. by rewrite lookup_app_l.
    + intros b Hb. destruct (decide (b = length (Deme.heap_demes h0))) as [->|].
      * unfold neighbours_of. rewrite Hold by lia.
        rewrite lookup_app_r, Nat.sub_diag by done. done.
      * apply Hnew. lia.
    + intros [|i] y Hy.
      * injection Hy as <-. rewrite Nat.add_0_r, Hold by lia.
        rewrite lookup_app_r, Nat.sub_diag by done.
        eexists. split_and!; [done..|]. simpl. by apply index_Ok_inv.
      * destruct (Hrec i y Hy) as (dm & Hdm & ? & ?).
        exists dm. split_and!; [|done..]. rewrite <-Hdm. f_equal. lia.
Qed.

(** A pass [for i in range(I): for j in range(J): step i j] in which step
    [(i, j)] appends the edges [E i j] to the deme at [A i j]. *)
Lemma wiring_pass (I J : nat) (A : nat → nat → nat)
    (E : nat → nat → list Neighbour.t) (step : nat → nat → Deme.M unit) :
  (∀ i j i' j', (i < I)%nat → (j < J)%nat → (i' < I)%nat → (j' < J)%nat →
     A i j = A i' j' → i = i' ∧ j = j') →
  (∀ i j h u h', (i < I)%nat → (j < J)%nat →
     step i j h = Ok (u, h') → appends h h' (A i j) (E i j)) →
  ∀ h u h',
    Deme.for_each (range I) (λ i, Deme.for_each (range J) (step i)) h
    = Ok (u, h') →
    Deme.heap_lists h' = Deme.heap_lists h
    ∧ shape h' = shape h
    ∧ (∀ i j, (i < I)%nat → (j < J)%nat →
         neighbours_of h' (A i j)
         = (λ ns, ns ++ E i j) <$> neighbours_of h (A i j))
    ∧ (∀ b, (∀ i j, (i < I)%nat → (j < J)%nat → b ≠ A i j) →
         neighbours_of h' b = neighbours_of h b).
Proof.
  intros Hinj Hstep h u h' Hrun.
  set (done_upto (i j : nat) (k : Deme.heap) :=
    Deme.heap_lists k = Deme.heap_lists h
    ∧ shape k = shape h
    ∧ (∀ i' j', (i' < I)%nat → (j' < J)%nat →
         neighbours_of k (A i' j')
         = if decide (i' < i ∨ (i' = i ∧ j' < j))%nat
           then (λ ns, ns ++ E i' j') <$> neighbours_of h (A i' j')
           else neighbours_of h (A i' j'))
    ∧ (∀ b, (∀ i j, (i < I)%nat → (j < J)%nat → b ≠ A i j) →
         neighbours_of k b = neighbours_of h b)).
  assert (∀ i k, (i < I)%nat → done_upto i J k → done_upto (S i) 0%nat k) as Hrow.
  { intros i k Hi (Hl & Hn & Hin & Hout). split_and!; try done.
    intros i' j' Hi' Hj'. rewrite Hin by done.
    repeat case_decide; try done; lia. }
  assert (done_upto I 0%nat h') as (Hl & Hn & Hin & Hout).
  { apply (for_range_invariant (λ i, done_upto i 0%nat)) in Hrun; [done| |].
    - intros i k u1 k' Hi Hinner Hk. apply Hrow; [done|].
      apply (for_range_invariant (λ j, done_upto i j)) in Hinner; [done| |done].
      intros j m u2 m' Hj Hs (Hl & Hn & Hin & Hout).
      apply Hstep in Hs as (Hl' & Hn' & Ha' & Ho'); [|done..].
      split_and!; try congruence.
      + intros i' j' Hi' Hj'.
        destruct (decide (A i' j' = A i j)) as [Heq|Hne].
        * apply Hinj in Heq as [-> ->]; [|done..].
          rewrite Ha', Hin by done.
          rewrite decide_False by lia. by rewrite decide_True by lia.
        * rewrite Ho', Hin by done.
          assert (¬ (i' = i ∧ j' = j)) by (intros [-> ->]; done).
          repeat case_decide; try done; lia.
      + intros b Hb. rewrite Ho', Hout; [done..|]. by apply Hb.
    - split_and!; try done. intros i' j' _ _. by rewrite decide_False by lia. }
  split_and!; try done.
  intros i j Hi Hj. rewrite Hin by done. by rewrite decide_True by lia.
Qed.

Lemma range_step_pos (stop xlen : Z) :
  (0 < xlen)%Z →
  TwoDTorus.range_step stop xlen
  = Ok ((λ k, Z.of_nat k * xlen)%Z
          <$> range (Z.to_nat ((stop + xlen - 1) / xlen))).
Proof.
  intros H. unfold TwoDTorus.range_step.
  rewrite decide_False by lia. by rewrite decide_True by lia.
Qed.

Lemma rows_of_grid (xlen ylen : Z) :
  (0 < xlen)%Z → ((xlen * ylen + xlen - 1) / xlen = ylen)%Z.
Proof.
  intros HX.
  replace (xlen * ylen + xlen - 1)%Z with (ylen * xlen + (xlen - 1))%Z by lia.
  rewrite Z.div_add_l by lia. rewrite Z.div_small by lia. lia.
Qed.

(** Cutting the list of the [X * Y] new addresses into slices of [X] gives
    the grid. *)
Lemma matrix_is_grid (base X Y : nat) (xlen : Z) :
  X = Z.to_nat xlen → (0 < X)%nat →
  (λ x, TwoDTorus.slice (seq base (X * Y)) x (x + xlen))
    <$> ((λ k, Z.of_nat k * xlen)%Z <$> range Y)
  = grid base X Y.
Proof.
  intros HX Hpos. unfold grid, range. rewrite <-list_fmap_compose.
  apply list_fmap_ext. intros i r Hr. simpl.
  apply lookup_seq in Hr as [-> Hr]. simpl.
  assert ((i + 1) * X ≤ Y * X)%nat as Hle by (apply Nat.mul_le_mono_r; lia).
  assert (Z.of_nat (i * X) = Z.of_nat i * xlen)%Z as Hlo by lia.
  unfold TwoDTorus.slice. rewrite length_seq.
  rewrite decide_False by lia. rewrite decide_False by lia.
  rewrite !Z.min_l by lia.
  replace (Z.to_nat (Z.of_nat i * xlen + xlen - Z.of_nat i * xlen)) with X
    by lia.
  replace (Z.to_nat (Z.of_nat i * xlen)) with (i * X)%nat by lia.
  rewrite drop_seq, take_seq. f_equal. lia.
Qed.

Lemma grid_row (base X Y r : nat) :
  (r < Y)%nat → grid base X Y !! r = Some (seq (base + r * X) X).
Proof.
  intros Hr. unfold grid. rewrite list_lookup_fmap, lookup_seq_lt by done.
  done.
Qed.

Lemma grid_deme_at (base X Y r c : nat) :
  (r < Y)%nat → (c < X)%nat →
  TwoDTorus.deme_at (grid base X Y) r c = Ok (base + r * X + c)%nat.
Proof.
  intros Hr Hc. unfold TwoDTorus.deme_at, index.
  rewrite grid_row by done. simpl. by rewrite lookup_seq_lt by done.
Qed.

Lemma getitem_nonneg {A} (l : list A) (i : Z) :
  (0 ≤ i)%Z → getitem l i = index l (Z.to_nat i).
Proof.
  intros Hi. unfold getitem, norm_index.
  destruct (decide (i < 0)%Z); [lia|]. case_decide; [done|].
  simpl. rewrite index_raises; [done|lia].
Qed.

Lemma grid_deme_at_int (base X Y : nat) (r c : Z) :
  (0 ≤ r < Z.of_nat Y)%Z → (0 ≤ c < Z.of_nat X)%Z →
  TwoDTorus.deme_at_int (grid base X Y) r c
  = Ok (base + Z.to_nat r * X + Z.to_nat c)%nat.
Proof.
  intros Hr Hc. unfold TwoDTorus.deme_at_int.
  rewrite getitem_nonneg by lia. unfold index at 1.
  rewrite grid_row by lia. simpl. rewrite getitem_nonneg by lia.
  unfold index. by rewrite lookup_seq_lt by lia.
Qed.

Lemma grid_injective (base X r c r' c' : nat) :
  (c < X)%nat → (c' < X)%nat →
  (base + r * X + c = base + r' * X + c')%nat → r = r' ∧ c = c'.
Proof.
  intros Hc Hc' Heq. destruct (decide (r = r')) as [->|Hne]; [lia|].
  exfalso. destruct (decide (r < r')%nat).
  - assert ((r + 1) * X ≤ r' * X)%nat by (apply Nat.mul_le_mono_r; lia). lia.
  - assert ((r' + 1) * X ≤ r * X)%nat by (apply Nat.mul_le_mono_r; lia). lia.
Qed.

(** The two [addNeighbour] calls for the deme at row [r], column [c] in
    the pass over the rows. *)
Lemma wire_row_cell_appends (base X Y : nat) (xlen : Z) rate r c h u h' :
  X = Z.to_nat xlen → (r < Y)%nat → (c < X)%nat →
  TwoDTorus.wire_row_cell xlen (grid base X Y) rate r c h = Ok (u, h') →
  appends h h' (base + r * X + c) (row_edges base X rate r c).
Proof.
  intros HX Hr Hc. unfold TwoDTorus.wire_row_cell. intros Hrun.
  rewrite (grid_deme_at base X Y r c) in Hrun by done.
  apply bind_Ok_inv in Hrun as (self & h1 & Hs & Hrun). inv_run Hs.
  injection Hs as <-.
  apply bind_Ok_inv in Hrun as (left & h1 & Hleft & Hrun). inv_run Hleft.
  apply bind_Ok_inv in Hrun as (u1 & h1 & Hadd1 & Hrun).
  apply bind_Ok_inv in Hrun as (self & h2 & Hs & Hrun). inv_run Hs.
  injection Hs as <-.
  apply bind_Ok_inv in Hrun as (right & h2 & Hright & Hrun). inv_run Hright.
  apply addNeighbour_appends in Hadd1, Hrun.
  assert (left = base + r * X + torus_prev X c)%nat as ->.
  { unfold torus_prev. revert Hleft.
    destruct (decide (c = 0)%nat) as [Hc0|Hc0]; intros Hleft.
    - rewrite grid_deme_at_int in Hleft by lia. injection Hleft as <-. lia.
    - rewrite grid_deme_at in Hleft by lia. by injection Hleft as <-. }
  assert (right = base + r * X + torus_next X c)%nat as ->.
  { unfold torus_next. revert Hright.
    destruct (decide (Z.of_nat c = xlen - 1)%Z) as [Hc1|Hc1]; intros Hright.
    - rewrite decide_True by lia.
      rewrite grid_deme_at in Hright by lia. injection Hright as <-. lia.
    - rewrite decide_False by lia.
      rewrite grid_deme_at in Hright by lia. by injection Hright as <-. }
  apply (appends_trans _ _ _ _ _ _ Hadd1 Hrun).
Qed.

Lemma wire_column_cell_appends (base X Y : nat) (ylen : Z) rate r c h u h' :
  Y = Z.to_nat ylen → (r < Y)%nat → (c < X)%nat →
  TwoDTorus.wire_column_cell ylen (grid base X Y) rate r c h = Ok (u, h') →
  appends h h' (base + r * X + c) (column_edges base X Y rate r c).
Proof.
  intros HY Hr Hc. unfold TwoDTorus.wire_column_cell. intros Hrun.
  rewrite (grid_deme_at base X Y r c) in Hrun by done.
  apply bind_Ok_inv in Hrun as (self & h1 & Hs & Hrun). inv_run Hs.
  injection Hs as <-.
  apply bind_Ok_inv in Hrun as (up & h1 & Hup & Hrun). inv_run Hup.
  apply bind_Ok_inv in Hrun as (u1 & h1 & Hadd1 & Hrun).
  apply bind_Ok_inv in Hrun as (self & h2 & Hs & Hrun). inv_run Hs.
  injection Hs as <-.
  apply bind_Ok_inv in Hrun as (down & h2 & Hdown & Hrun). inv_run Hdown.
  apply addNeighbour_appends in Hadd1, Hrun.
  assert (up = base + torus_prev Y r * X + c)%nat as ->.
  { unfold torus_prev. revert Hup.
    destruct (decide (r = 0)%nat) as [Hr0|Hr0]; intros Hup.
    - rewrite grid_deme_at_int in Hup by lia. injection Hup as <-.
      f_equal; [|lia]. f_equal. f_equal. lia.
    - rewrite grid_deme_at in Hup by lia. by injection Hup as <-. }
  assert (down = base + torus_next Y r * X + c)%nat as ->.
  { unfold torus_next. revert Hdown.
    destruct (decide (Z.of_nat r = ylen - 1)%Z) as [Hr1|Hr1]; intros Hdown.
    - rewrite decide_True by lia.
      rewrite grid_deme_at in Hdown by lia. by injection Hdown as <-.
    - rewrite decide_False by lia.
      rewrite grid_deme_at in Hdown by lia. by injection Hdown as <-. }
  apply (appends_trans _ _ _ _ _ _ Hadd1 Hrun).
Qed.

Lemma grid_cell_bound (X Y r c : nat) :
  (r < Y)%nat → (c < X)%nat → (r * X + c < X * Y)%nat.
Proof.
  intros Hr Hc.
  assert ((r + 1) * X ≤ Y * X)%nat by (apply Nat.mul_le_mono_r; lia). lia.
Qed.

Lemma torus_prev_lt (len i : nat) :
  (i < len)%nat → (torus_prev len i < len)%nat.
Proof. unfold torus_prev. case_decide; lia. Qed.

Lemma torus_next_lt (len i : nat) :
  (i < len)%nat → (torus_next len i < len)%nat.
Proof. unfold torus_next. case_decide; lia. Qed.

Lemma concat_grid (base X Y : nat) :
  concat (grid base X Y) = seq base (X * Y).
Proof.
  unfold grid. induction Y as [|Y IH].
  - by rewrite Nat.mul_0_r.
  - rewrite seq_S, fmap_app, concat_app, IH. simpl. rewrite app_nil_r.
    replace (X * S Y)%nat with (X * Y + X)%nat by lia.
    rewrite seq_app. do 2 f_equal. lia.
Qed.

(** Every address of the grid is the address of a cell. *)
Lemma grid_cell_of (base X Y a : nat) :
  a ∈ seq base (X * Y) →
  ∃ r c, (r < Y)%nat ∧ (c < X)%nat ∧ a = (base + r * X + c)%nat.
Proof.
  intros [Hlo Hhi]%elem_of_seq.
  assert (0 < X)%nat as HX by (destruct X; lia).
  exists ((a - base) / X)%nat, ((a - base) mod X)%nat.
  pose proof (Nat.div_mod_eq (a - base) X) as Hdm.
  pose proof (Nat.mod_upper_bound (a - base) X ltac:(lia)) as Hm.
  split_and!; [|done|lia].
  apply Nat.Div0.div_lt_upper_bound. lia.
Qed.

(** What the constructor of a torus with positive [xlen] and [ylen] leaves
    behind: the matrix is the grid of the [xlen * ylen] new addresses, the
    lists are untouched, the deme of cell [(r, c)] has its two row edges
    followed by its two column edges, and the [i]-th new deme has the
    genotype list and the [i]-th density list. *)
Lemma init_Ok_inv (xlen ylen : Z) genotypes genotypeDensities migrationRate
    refugeProportion (h : Deme.heap) (t : TwoDTorus.t) (h' : Deme.heap) :
  (0 < xlen)%Z → (0 < ylen)%Z →
  TwoDTorus.init xlen ylen genotypes genotypeDensities migrationRate
                 refugeProportion h = Ok (t, h') →
  let X := Z.to_nat xlen in
  let Y := Z.to_nat ylen in
  let base := length (Deme.heap_demes h) in
  TwoDTorus.xlen t = xlen
  ∧ TwoDTorus.ylen t = ylen
  ∧ TwoDTorus.demes t = grid base X Y
  ∧ Deme.heap_lists h' = Deme.heap_lists h
  ∧ (∀ r c, (r < Y)%nat → (c < X)%nat →
       neighbours_of h' (base + r * X + c)
       = Some (row_edges base X migrationRate r c
               ++ column_edges base X Y migrationRate r c))
  ∧ (∀ i, (i < X * Y)%nat →
       ∃ dm, Deme.heap_demes h' !! (base + i)%nat = Some dm
             ∧ Deme.genotypes dm = genotypes
             ∧ genotypeDensities !! i = Some (Deme.genotypeDensities dm)).
Proof.
  intros Hx Hy Hrun X Y base.
  unfold TwoDTorus.init in Hrun.
  apply bind_Ok_inv in Hrun as (rps & h1 & Hrps & Hrun). inv_run Hrps.
  apply bind_Ok_inv in Hrun as (d & h1 & Hd & Hrun).
  apply create_demes_Ok_inv in Hd as (Hl1 & -> & Hn1 & _ & Hnew & Hrec).
  assert (TwoDTorus.zrange (xlen * ylen) = seq 0 (X * Y)) as HXY.
  { unfold TwoDTorus.zrange, range. f_equal. subst X Y.
    rewrite Z2Nat.inj_mul; lia. }
  rewrite HXY, length_seq in *. simpl in Hrun.
  rewrite range_step_pos, rows_of_grid in Hrun by done.
  fold X Y base in Hrun, Hnew, Hn1, Hrec.
  apply bind_Ok_inv in Hrun as (starts & h2 & Hst & Hrun). inv_run Hst.
  injection Hst as <-.
  rewrite (matrix_is_grid _ X Y xlen) in Hrun by (done || lia).
  apply bind_Ok_inv in Hrun as (u1 & h2 & Hrows & Hrun).
  apply bind_Ok_inv in Hrun as (u2 & h3 & Hcols & Hrun).
  injection Hrun as <- <-. simpl.
  apply (wiring_pass Y X (λ r c, base + r * X + c)%nat
           (row_edges base X migrationRate)
           (TwoDTorus.wire_row_cell xlen (grid base X Y) migrationRate))
    in Hrows as (Hl2 & Hs2 & Hrows & _).
  2:{ intros i j i' j' _ Hj _ Hj' Heq. by apply (grid_injective base X). }
  2:{ intros i j k u k' Hi Hj. by apply wire_row_cell_appends. }
  apply (wiring_pass X Y (λ c r, base + r * X + c)%nat
           (λ c r, column_edges base X Y migrationRate r c)
           (λ c r, TwoDTorus.wire_column_cell ylen (grid base X Y)
                     migrationRate r c))
    in Hcols as (Hl3 & Hs3 & Hcols & _).
  2:{ intros i j i' j' Hi _ Hi' _ Heq.
      apply (grid_injective base X) in Heq as [-> ->]; done. }
  2:{ intros i j k u k' Hi Hj. by apply wire_column_cell_appends. }
  split_and!; try done.
  - congruence.
  - intros r c Hr Hc.
    rewrite (Hcols c r Hc Hr), (Hrows r c Hr Hc), Hnew; [done|].
    pose proof (grid_cell_bound X Y r c Hr Hc). lia.
  - intros i Hi.
    destruct (Hrec i i) as (dm & Hdm & Hg & Hgd).
    { by rewrite lookup_seq_lt. }
    apply (shape_lookup_deme h1 h2) in Hdm as (dm2 & Hdm & Hg2 & Hgd2);
      [|done].
    apply (shape_lookup_deme h2 h3) in Hdm as (dm3 & Hdm & Hg3 & Hgd3);
      [|done].
    exists dm3. split_and!; [done|congruence|congruence].
Qed.

(** C8: after the construction of a torus with positive [xlen] and [ylen],
    the deme at row [r], column [c] has exactly four neighbour edges, in
    the order left, right, up, down, with wrap-around at the borders (the
    left neighbour of column 0 is column [xlen - 1], the upper neighbour of
    row 0 is row [ylen - 1]), all with the configured migration rate. *)
Theorem C8_torus_neighbours
    (xlen ylen : Z) genotypes genotypeDensities migrationRate refugeProportion
    (h : Deme.heap) (t : TwoDTorus.t) (h' : Deme.heap) :
  (0 < xlen)%Z → (0 < ylen)%Z →
  TwoDTorus.init xlen ylen genotypes genotypeDensities migrationRate
                 refugeProportion h = Ok (t, h') →
  let X := Z.to_nat xlen in
  let Y := Z.to_nat ylen in
  let cell r c := (length (Deme.heap_demes h) + r * X + c)%nat in
  (∀ r c, (r < Y)%nat → (c < X)%nat →
     TwoDTorus.deme_at (TwoDTorus.demes t) r c = Ok (cell r c)
     ∧ neighbours_of h' (cell r c)
       = Some [Neighbour.mk (cell r (torus_prev X c)) migrationRate [];
               Neighbour.mk (cell r (torus_next X c)) migrationRate [];
               Neighbour.mk (cell (torus_prev Y r) c) migrationRate [];
               Neighbour.mk (cell (torus_next Y r) c) migrationRate []])
  ∧ torus_prev X 0 = (X - 1)%nat
  ∧ torus_prev Y 0 = (Y - 1)%nat.
Proof.
  intros Hx Hy Hrun X Y cell. split; [|done].
  apply init_Ok_inv in Hrun as (_ & _ & Hdemes & _ & Hedges & _);
    [|done..].
  fold X Y in Hdemes, Hedges.
  intros r c Hr Hc. unfold cell. split.
  - rewrite Hdemes. by apply grid_deme_at.
  - by rewrite Hedges.
Qed.

Lemma C8_torus_neighbours_witness :
  let cell r c := (0 + r * 2 + c)%nat in
  (∀ r c, (r < 2)%nat → (c < 2)%nat →
     TwoDTorus.deme_at (TwoDTorus.demes eg_torus) r c = Ok (cell r c)
     ∧ neighbours_of eg_torus_heap (cell r c)
       = Some [Neighbour.mk (cell r (torus_prev 2 c)) (q 1 10) [];
               Neighbour.mk (cell r (torus_next 2 c)) (q 1 10) [];
               Neighbour.mk (cell (torus_prev 2 r) c) (q 1 10) [];
               Neighbour.mk (cell (torus_next 2 r) c) (q 1 10) []])
  ∧ torus_prev 2 0 = 1%nat
  ∧ torus_prev 2 0 = 1%nat.
Proof.
  apply (C8_torus_neighbours 2 2 [eg_g00; eg_g01] [0; 1; 2; 3]%nat (q 1 10)
           (TwoDTorus.RefugeFloat 0) eg_torus_lists eg_torus eg_torus_heap).
  - lia.
  - lia.
  - apply (bool_decide_eq_true_1 _). by vm_compute.
Defined.

(** ** Migration *)

Lemma currentDensity_density_at h a d dens :
  Deme.heap_demes h !! a = Some d →
  Deme.heap_lists h !! Deme.genotypeDensities d = Some dens →
  Deme.currentDensity a h = Ok (density_at h a, h).
Proof.
  intros Hd Hl. unfold Deme.currentDensity, density_at, densities_of.
  rewrite (bind_Ok _ _ _ _ _ (get_deme_Ok _ _ _ Hd)).
  rewrite (bind_Ok _ _ _ _ _ (get_list_Ok _ _ _ Hl)).
  rewrite Hd. simpl. by rewrite Hl.
Qed.

Lemma sum_fmap_ext_in {X} (f g : X → Qc) (xs : list X) :
  (∀ x, x ∈ xs → g x = f x) → sum (g <$> xs) = sum (f <$> xs).
Proof.
  induction xs as [|x xs IH]; intros H; [done|].
  rewrite !fmap_cons, !sum_cons, IH, H; [done|by left|].
  intros y Hy. apply H. by right.
Qed.


(** A loop over a list, with an invariant that knows which elements are
    done and which remain; every iteration returns. *)
Lemma for_each_total {X} (P : list X → list X → Deme.heap → Prop)
    (body : X → Deme.M unit) (xs : list X) :
  ∀ pre h,
    (∀ pre' x post' k, pre ++ xs = pre' ++ x :: post' →
       P pre' (x :: post') k →
       ∃ k', body x k = Ok ((), k') ∧ P (pre' ++ [x]) post' k') →
    P pre xs h →
    ∃ h', Deme.for_each xs body h = Ok ((), h') ∧ P (pre ++ xs) [] h'.
Proof.
  induction xs as [|x xs IH]; intros pre h Hbody HP.
  - exists h. rewrite app_nil_r. done.
  - destruct (Hbody pre x xs h) as (k & Hk & HPk); [done..|].
    destruct (IH (pre ++ [x]) k) as (h' & Hrun & HP').
    + intros pre' y post' m Heq. apply Hbody. by rewrite <-Heq, <-app_assoc.
    + done.
    + exists h'. simpl. rewrite (bind_Ok _ _ _ _ _ Hk).
      by rewrite <-app_assoc in HP'.
Qed.

(** The same for a loop over [range(n)]. *)
Lemma for_range_total (P : nat → Deme.heap → Prop)
    (body : nat → Deme.M unit) (n : nat) :
  (∀ k h, (k < n)%nat → P k h → ∃ h', body k h = Ok ((), h') ∧ P (S k) h') →
  ∀ h, P 0%nat h →
  ∃ h', Deme.for_each (range n) body h = Ok ((), h') ∧ P n h'.
Proof.
  intros Hbody h HP.
  destruct (for_each_total (λ pre post k, P (length pre) k) body (range n) [] h)
    as (h' & Hrun & HP').
  - intros pre x post k Heq HPk. simpl in Heq.
    assert (x = length pre ∧ (x < n)%nat) as [-> Hlt].
    { assert (range n !! length pre = Some x) as Hx.
      { rewrite Heq. by apply list_lookup_middle. }
      unfold range in Hx. apply lookup_seq in Hx. simpl in Hx. lia. }
    destruct (Hbody _ _ Hlt HPk) as (k' & Hk' & HP').
    exists k'. split; [done|]. rewrite length_app. simpl.
    by replace (length pre + 1)%nat with (S (length pre)) by lia.
  - done.
  - exists h'. split; [done|]. simpl in HP'. unfold range in HP'.
    by rewrite length_seq in HP'.
Qed.

Lemma bind_ext {A B} (m m' : Deme.M A) (f f' : A → Deme.M B) h :
  m h = m' h → (∀ a k, f a k = f' a k) → (m ≫= f) h = (m' ≫= f') h.
Proof.
  intros Hm Hf. unfold mbind, Deme.M_bind. rewrite Hm.
  destruct (m' h) as [[a k]|]; [apply Hf|done].
Qed.

Lemma for_each_ext {X} (f g : X → Deme.M unit) (xs : list X) :
  (∀ x, x ∈ xs → ∀ h, f x h = g x h) →
  ∀ h, Deme.for_each xs f h = Deme.for_each xs g h.
Proof.
  induction xs as [|x xs IH]; intros Hfg h; simpl; [done|].
  apply bind_ext.
  - apply Hfg. by left.
  - intros _ k. apply IH. intros y Hy. apply Hfg. by right.
Qed.

(** A loop over the indices of a list that reads the element at every
    index is a loop over the elements. *)
Lemma for_each_indexed {X} (l : list X) (body : X → Deme.M unit) h :
  Deme.for_each (range (length l))
    (λ i, x ← Deme.lift (index l i); body x) h
  = Deme.for_each l body h.
Proof.
  revert h. induction l as [|x l IH] using rev_ind; intros h; [done|].
  rewrite length_app. simpl.
  replace (length l + 1)%nat with (S (length l)) by lia.
  rewrite range_S, !for_each_app.
  apply bind_ext.
  - rewrite <-IH. apply for_each_ext. intros i Hi k.
    unfold range in Hi. apply elem_of_seq in Hi.
    unfold index. by rewrite lookup_app_l by lia.
  - intros _ k. simpl. apply bind_ext; [|done].
    unfold index. by rewrite list_lookup_middle.
Qed.

Lemma for_each_concat {X} (ls : list (list X)) (body : X → Deme.M unit) h :
  Deme.for_each (concat ls) body h
  = Deme.for_each ls (λ l, Deme.for_each l body) h.
Proof.
  revert h. induction ls as [|l ls IH]; intros h; simpl; [done|].
  rewrite for_each_app. apply bind_ext; [done|]. intros _ k. apply IH.
Qed.

(** On a rectangular matrix, the nested loops of the orchestration methods
    visit the demes row after row. *)
Lemma for_all_demes_flat (t : TwoDTorus.t) (name : string) h :
  rectangular t →
  TwoDTorus.for_all_demes t name h
  = Deme.for_each (all_demes t) (λ a, Deme.call a name) h.
Proof.
  intros [Hrows Hcols]. unfold TwoDTorus.for_all_demes, all_demes.
  rewrite for_each_concat.
  rewrite <-(for_each_indexed (TwoDTorus.demes t)
               (λ l, Deme.for_each l (λ a, Deme.call a name))).
  unfold TwoDTorus.zrange. rewrite <-Hrows.
  apply for_each_ext. intros r Hr k.
  unfold range in Hr. apply elem_of_seq in Hr.
  destruct (lookup_lt_is_Some_2 (TwoDTorus.demes t) r) as [row Hrow]; [lia|].
  rewrite (bind_Ok _ _ _ _ _ (lift_Ok _ _ _ (index_Ok _ _ _ Hrow))).
  rewrite <-(for_each_indexed row (λ a, Deme.call a name)).
  rewrite (Forall_lookup_1 _ _ _ _ Hcols Hrow).
  apply for_each_ext. intros c Hc m. apply bind_ext; [|done].
  unfold TwoDTorus.deme_at. by rewrite (index_Ok _ _ _ Hrow).
Qed.

Lemma pointwise_all {A} (f : A → A) (l : list A) :
  pointwise (λ _ x, f x) (length l) l = f <$> l.
Proof.
  apply list_eq. intros i. rewrite pointwise_lookup, list_lookup_fmap.
  destruct (l !! i) eqn:E; simpl; [|done].
  apply lookup_lt_Some in E. by rewrite decide_True.
Qed.

Lemma pointwise_zip (op : Qc → Qc → Qc) (l k : list Qc) :
  length k = length l →
  pointwise (λ g x, op x (default 0 (k !! g))) (length l) l = zip_with op l k.
Proof.
  intros Hlen. apply list_eq. intros i.
  rewrite pointwise_lookup, lookup_zip_with.
  destruct (l !! i) as [x|] eqn:E; simpl; [|done].
  pose proof (lookup_lt_Some _ _ _ E) as Hi.
  destruct (lookup_lt_is_Some_2 k i) as [y Hy]; [lia|].
  rewrite Hy. simpl. by rewrite decide_True.
Qed.



Lemma foldM_ext {S X} (f g : S → X → result S) (xs : list X) :
  (∀ s x, x ∈ xs → f s x = g s x) → ∀ s, foldM f s xs = foldM g s xs.
Proof.
  induction xs as [|x xs IH]; intros Hfg s; simpl; [done|].
  rewrite Hfg by (by left). destruct (g s x); simpl; [|done].
  apply IH. intros s' y Hy. apply Hfg. by right.
Qed.

(** A loop over the indices of a list that only uses the element at the
    index is a loop over the elements. *)
Lemma foldM_indexed {St X} (l : list X) (f : St → nat → result St)
    (g : St → X → result St) :
  (∀ s i x, l !! i = Some x → f s i = g s x) →
  ∀ s, foldM f s (range (length l)) = foldM g s l.
Proof.
  induction l as [|x l IH] using rev_ind; intros Hfg s; [done|].
  rewrite length_app. simpl.
  replace (length l + 1)%nat with (S (length l)) by lia.
  rewrite range_S, !foldM_app, IH.
  - destruct (foldM g s l); simpl; [|done].
    rewrite (Hfg _ _ x); [done|]. by apply list_lookup_middle.
  - intros s' i y Hy. apply Hfg. by rewrite lookup_app_l by (by eapply lookup_lt_Some).
Qed.

(** The first loop of [fillMigrantPools] fills every pool from the same
    densities. *)
Lemma fillMigrantPools_pools_run (ns : list Neighbour.t) (dens : list Qc) :
  Deme.fillMigrantPools_pools ns dens
  = Ok ((λ nb, Neighbour.fillPool nb dens) <$> ns).
Proof.
  unfold Deme.fillMigrantPools_pools.
  rewrite (foldM_pointwise _ (λ _ nb, Neighbour.fillPool nb dens)).
  - by rewrite pointwise_all.
  - done.
  - intros l' g x _ Hx. rewrite (index_Ok _ _ _ Hx). simpl.
    apply store_Ok. by eapply lookup_lt_Some.
Qed.

(** Subtracting one pool. *)
Lemma subtract_pool_run (ns : list Neighbour.t) (n : nat) (nb : Neighbour.t)
    (dens : list Qc) :
  ns !! n = Some nb →
  length (Neighbour.migrantPool nb) = length dens →
  foldM (λ dens g,
           x ← index dens g;
           nb ← index ns n;
           p ← index (Neighbour.migrantPool nb) g;
           store dens g (x - p))
        dens (range (length dens))
  = Ok (zip_with Qcminus dens (Neighbour.migrantPool nb)).
Proof.
  intros Hnb Hlen.
  rewrite (foldM_pointwise _
             (λ g x, x - default 0 (Neighbour.migrantPool nb !! g))).
  - by rewrite pointwise_zip.
  - done.
  - intros l' g x Hg Hx. rewrite (index_Ok _ _ _ Hx). simpl.
    rewrite (index_Ok _ _ _ Hnb). simpl.
    destruct (lookup_lt_is_Some_2 (Neighbour.migrantPool nb) g) as [p Hp];
      [lia|].
    rewrite (index_Ok _ _ _ Hp), Hp. simpl.
    apply store_Ok. by eapply lookup_lt_Some.
Qed.


Lemma receiveMigrants_of_run (d : Deme.t) (dens migrants : list Qc) :
  length dens = length migrants →
  length (Deme.genotypes d) = length dens →
  Deme.receiveMigrants_of d dens migrants = Ok (zip_with Qcplus dens migrants).
Proof.
  intros Hlen Hg. unfold Deme.receiveMigrants_of.
  rewrite bool_decide_eq_true_2 by done. simpl. rewrite Hg.
  rewrite (foldM_pointwise _ (λ g x, x + default 0 (migrants !! g))).
  - by rewrite pointwise_zip.
  - done.
  - intros l' g x Hlt Hx. rewrite (index_Ok _ _ _ Hx). simpl.
    destruct (lookup_lt_is_Some_2 migrants g) as [p Hp]; [lia|].
    rewrite (index_Ok _ _ _ Hp), Hp. simpl.
    apply store_Ok. by eapply lookup_lt_Some.
Qed.

Lemma frame_refl h : frame h h.
Proof. by split. Qed.

Lemma frame_trans h1 h2 h3 : frame h1 h2 → frame h2 h3 → frame h1 h3.
Proof.
  intros [Hs1 Ht1] [Hs2 Ht2]. split; [congruence|].
  intros a. by rewrite Ht2, Ht1.
Qed.

(** A well-formed metapopulation stays well-formed along a frame. *)
Lemma metapopulation_ok_frame h h' ds L :
  frame h h' → metapopulation_ok h ds L → metapopulation_ok h' ds L.
Proof.
  intros [Hshape Htargets] (Hnd & Hok & Hown). split_and!; [done| |].
  - eapply Forall_impl; [exact Hok|]. intros a (d & dens & Hd & Hl & HL & Hg & Hns).
    destruct (shape_lookup_deme h h' a d Hshape Hd) as (d' & Hd' & Hg' & Ha').
    destruct (shape_lookup_list h h' _ dens Hshape Hl) as (dens' & Hl' & HL').
    exists d', dens'. split_and!; try congruence.
    specialize (Htargets a). unfold targets_of, neighbours_of in Htargets.
    rewrite Hd, Hd' in Htargets. simpl in Htargets. injection Htargets as Ht.
    assert (Forall (λ x, x ∈ ds) (Neighbour.neighbour <$> Deme.neighbours d))
      as Hns' by (by apply Forall_fmap).
    rewrite <-Ht in Hns'. by apply Forall_fmap in Hns'.
  - intros a b da db Ha Hb Hda Hdb Heq.
    assert (∀ c dc, Deme.heap_demes h' !! c = Some dc →
              ∃ dc', Deme.heap_demes h !! c = Some dc'
                     ∧ Deme.genotypeDensities dc' = Deme.genotypeDensities dc)
      as Hback.
    { intros c dc Hc.
      destruct (shape_lookup_deme h' h c dc (eq_sym Hshape) Hc)
        as (dc' & ? & _ & ?). eauto. }
    destruct (Hback a da Hda) as (da' & Hda' & Ea).
    destruct (Hback b db Hdb) as (db' & Hdb' & Eb).
    apply (Hown a b da' db'); try done. congruence.
Qed.

Lemma frame_set_list h a l l' :
  Deme.heap_lists h !! a = Some l → length l' = length l →
  frame h (Deme.Heap (<[a:=l']> (Deme.heap_lists h)) (Deme.heap_demes h)).
Proof. intros Hl Hlen. split; [by eapply shape_set_list|done]. Qed.

Lemma frame_set_neighbours h a d ns :
  Deme.heap_demes h !! a = Some d →
  Neighbour.neighbour <$> ns = Neighbour.neighbour <$> Deme.neighbours d →
  frame h (Deme.Heap (Deme.heap_lists h)
             (<[a:=Deme.with_neighbours d ns]> (Deme.heap_demes h))).
Proof.
  intros Hd Hns. split; [by eapply shape_set_deme|].
  intros b. unfold targets_of, neighbours_of. simpl.
  destruct (decide (b = a)) as [->|Hne].
  - rewrite list_lookup_insert_eq by (by eapply lookup_lt_Some).
    rewrite Hd. simpl. by rewrite Hns.
  - by rewrite list_lookup_insert_ne.
Qed.

(** Reading densities and edges in an updated store. *)
Lemma densities_of_set_list h loc l' a d :
  Deme.heap_demes h !! a = Some d →
  (loc < length (Deme.heap_lists h))%nat →
  densities_of (Deme.Heap (<[loc:=l']> (Deme.heap_lists h)) (Deme.heap_demes h)) a
  = if decide (Deme.genotypeDensities d = loc) then Some l'
    else densities_of h a.
Proof.
  intros Hd Hloc. unfold densities_of. simpl. rewrite Hd. simpl.
  case_decide as Heq.
  - rewrite Heq. by apply list_lookup_insert_eq.
  - by rewrite list_lookup_insert_ne.
Qed.

Lemma densities_of_set_deme h a d' b :
  (∀ d, Deme.heap_demes h !! a = Some d →
        Deme.genotypeDensities d' = Deme.genotypeDensities d) →
  densities_of (Deme.Heap (Deme.heap_lists h) (<[a:=d']> (Deme.heap_demes h))) b
  = densities_of h b.
Proof.
  intros Hloc. unfold densities_of. simpl.
  destruct (decide (b = a)) as [->|Hne].
  - destruct (Deme.heap_demes h !! a) as [d|] eqn:Hd.
    + rewrite list_lookup_insert_eq by (by eapply lookup_lt_Some).
      simpl. by rewrite (Hloc d).
    + rewrite list_insert_ge; [by rewrite Hd|]. by apply lookup_ge_None.
  - by rewrite list_lookup_insert_ne.
Qed.

Lemma neighbours_of_set_list h loc l' a :
  neighbours_of (Deme.Heap (<[loc:=l']> (Deme.heap_lists h)) (Deme.heap_demes h)) a
  = neighbours_of h a.
Proof. done. Qed.

Lemma neighbours_of_set_deme h a d ns b :
  Deme.heap_demes h !! a = Some d →
  neighbours_of (Deme.Heap (Deme.heap_lists h)
                   (<[a:=Deme.with_neighbours d ns]> (Deme.heap_demes h))) b
  = if decide (b = a) then Some ns else neighbours_of h b.
Proof.
  intros Hd. unfold neighbours_of. simpl. case_decide as Heq.
  - rewrite Heq, list_lookup_insert_eq by (by eapply lookup_lt_Some). done.
  - by rewrite list_lookup_insert_ne.
Qed.



Lemma receiveMigrants_run h b d dens pool :
  Deme.heap_demes h !! b = Some d →
  Deme.heap_lists h !! Deme.genotypeDensities d = Some dens →
  length dens = length pool →
  length (Deme.genotypes d) = length dens →
  Deme.receiveMigrants b pool h
  = Ok ((), Deme.Heap
              (<[Deme.genotypeDensities d := zip_with Qcplus dens pool]>
                 (Deme.heap_lists h))
              (Deme.heap_demes h)).
Proof.
  intros Hd Hl Hlen Hg. unfold Deme.receiveMigrants.
  apply (update_densities_run (λ d dens, Deme.receiveMigrants_of d dens pool)
           h b d dens); try done.
  by apply receiveMigrants_of_run.
Qed.



Lemma emptied_step (ns : list Neighbour.t) (k : nat) (nb : Neighbour.t) :
  ns !! k = Some nb →
  <[k := Neighbour.emptyPool nb]>
    ((Neighbour.emptyPool <$> take k ns) ++ drop k ns)
  = (Neighbour.emptyPool <$> take (S k) ns) ++ drop (S k) ns.
Proof.
  intros Hnb. pose proof (lookup_lt_Some _ _ _ Hnb) as Hk.
  rewrite (drop_S _ _ _ Hnb), (take_S_r _ _ _ Hnb), fmap_app, <-app_assoc.
  simpl.
  rewrite insert_app_r_alt by (rewrite length_fmap, length_take; lia).
  rewrite length_fmap, length_take.
  replace (k - k `min` length ns)%nat with 0%nat by lia. done.
Qed.




Lemma call_fillMigrantPools a :
  Deme.call a "fillMigrantPools" = Deme.fillMigrantPools a.
Proof. reflexivity. Qed.

Lemma call_sendMigrants a : Deme.call a "sendMigrants" = Deme.sendMigrants a.
Proof. reflexivity. Qed.


(** It also fails when two demes were constructed with the same list
    object: what one of them gives up is taken from both.  The total goes
    from 11/5 to 274/125. *)
Lemma migration_with_shared_lists :
  total_density eg_shared_heap (all_demes eg_shared_torus) = q 11 5
  ∧ total_density
      (heap_after (TwoDTorus.migration eg_shared_torus) eg_shared_heap)
      (all_demes eg_shared_torus) = q 274 125.
Proof. split; apply (bool_decide_eq_true_1 _); by vm_compute. Qed.


(** The constructor builds a well-formed metapopulation when it is given
    one list object per deme, each as long as the genotype list. *)
Lemma init_metapopulation_ok (xlen ylen : Z) genotypes genotypeDensities
    migrationRate refugeProportion (h : Deme.heap) (t : TwoDTorus.t)
    (h' : Deme.heap) :
  (0 < xlen)%Z → (0 < ylen)%Z →
  NoDup (take (Z.to_nat xlen * Z.to_nat ylen) genotypeDensities) →
  (∀ i a, (i < Z.to_nat xlen * Z.to_nat ylen)%nat →
     genotypeDensities !! i = Some a →
     ∃ dens, Deme.heap_lists h !! a = Some dens
             ∧ length dens = length genotypes) →
  TwoDTorus.init xlen ylen genotypes genotypeDensities migrationRate
                 refugeProportion h = Ok (t, h') →
  rectangular t ∧ metapopulation_ok h' (all_demes t) (length genotypes).
Proof.
  intros Hx Hy Hnd Hlen Hrun.
  apply init_Ok_inv in Hrun as (Hxl & Hyl & Hdemes & Hlists & Hedges & Hnew);
    [|done..].
  set (X := Z.to_nat xlen) in *. set (Y := Z.to_nat ylen) in *.
  set (base := length (Deme.heap_demes h)) in *.
  assert (0 < X)%nat as HX by lia.
  split.
  { unfold rectangular. rewrite Hxl, Hyl, Hdemes. fold X Y. unfold grid. split.
    - by rewrite length_fmap, length_seq.
    - apply Forall_fmap, Forall_forall. intros r _. simpl.
      by rewrite length_seq. }
  unfold all_demes. rewrite Hdemes, concat_grid.
  split_and!.
  - apply NoDup_seq.
  - apply Forall_forall. intros a Ha.
    destruct (grid_cell_of _ _ _ _ Ha) as (r & c & Hr & Hc & ->).
    pose proof (grid_cell_bound X Y r c Hr Hc) as Hb.
    destruct (Hnew (r * X + c)%nat Hb) as (dm & Hdm & Hg & Hgd).
    rewrite Nat.add_assoc in Hdm.
    destruct (Hlen _ _ Hb Hgd) as (dens & Hdens & HL).
    exists dm, dens. split_and!; [done|by rewrite Hlists|done|by rewrite Hg|].
    specialize (Hedges r c Hr Hc). unfold neighbours_of in Hedges.
    rewrite Hdm in Hedges. injection Hedges as ->.
    pose proof (torus_prev_lt X c Hc). pose proof (torus_next_lt X c Hc).
    pose proof (torus_prev_lt Y r Hr). pose proof (torus_next_lt Y r Hr).
    unfold row_edges, column_edges. simpl.
    repeat apply Forall_cons_2; try apply Forall_nil_2; simpl;
      apply elem_of_seq.
    + pose proof (grid_cell_bound X Y r (torus_prev X c)). lia.
    + pose proof (grid_cell_bound X Y r (torus_next X c)). lia.
    + pose proof (grid_cell_bound X Y (torus_prev Y r) c). lia.
    + pose proof (grid_cell_bound X Y (torus_next Y r) c). lia.
  - intros a b da db Ha Hb Hda Hdb Heq.
    apply elem_of_seq in Ha, Hb.
    destruct (Hnew (a - base)%nat) as (dm & Hdm & _ & Hgd); [lia|].
    destruct (Hnew (b - base)%nat) as (dm' & Hdm' & _ & Hgd'); [lia|].
    replace (base + (a - base))%nat with a in Hdm by lia.
    replace (base + (b - base))%nat with b in Hdm' by lia.
    assert (dm = da) as -> by congruence.
    assert (dm' = db) as -> by congruence.
    assert (a - base = b - base)%nat; [|lia].
    eapply (NoDup_lookup _ _ _ _ Hnd).
    + rewrite lookup_take_lt by lia. done.
    + rewrite lookup_take_lt by lia. congruence.
Qed.

Lemma eg_torus_ok : metapopulation_ok eg_torus_heap (all_demes eg_torus) 2.
Proof.
  assert (all_demes eg_torus = [0; 1; 2; 3]%nat) as -> by reflexivity.
  split_and!.
  - apply (bool_decide_eq_true_1 _). by vm_compute.
  - repeat apply Forall_cons_2; try apply Forall_nil_2.
    all: eexists _, _; split_and!;
      [vm_compute; reflexivity|vm_compute; reflexivity|reflexivity|reflexivity|].
    all: apply (bool_decide_eq_true_1 _); by vm_compute.
  - assert (Forall (λ a, Deme.genotypeDensities
                           <$> Deme.heap_demes eg_torus_heap !! a = Some a)
                   [0; 1; 2; 3]%nat) as Hloc.
    { apply (bool_decide_eq_true_1 _). by vm_compute. }
    intros a b da db Ha Hb Hda Hdb Heq.
    pose proof (proj1 (Forall_forall _ _) Hloc a Ha) as Hla.
    pose proof (proj1 (Forall_forall _ _) Hloc b Hb) as Hlb.
    cbv beta in Hla, Hlb. rewrite Hda in Hla. rewrite Hdb in Hlb.
    change (Some (Deme.genotypeDensities da) = Some a) in Hla.
    change (Some (Deme.genotypeDensities db) = Some b) in Hlb.
    congruence.
Qed.


(** ** Random mating *)


Lemma sum_fmap_scale {X} (f : X → Qc) (c : Qc) (xs : list X) :
  sum ((λ x, c * f x) <$> xs) = c * sum (f <$> xs).
Proof.
  induction xs as [|x xs IH].
  - simpl. rewrite sum_nil. ring.
  - rewrite !fmap_cons, !sum_cons, IH. ring.
Qed.

Lemma sum_fmap_plus {X} (f g : X → Qc) (xs : list X) :
  sum ((λ x, f x + g x) <$> xs) = sum (f <$> xs) + sum (g <$> xs).
Proof.
  induction xs as [|x xs IH].
  - simpl. rewrite sum_nil. ring.
  - rewrite !fmap_cons, !sum_cons, IH. ring.
Qed.




Lemma float_of_nat_0 : float_of_nat 0 = 0.
Proof. apply Z2Qc_inj_0. Qed.







Lemma comprehension_run {A B} (f : A → result B) (g : A → B) (l : list A) :
  (∀ x, x ∈ l → f x = Ok (g x)) →
  ∀ acc, foldM (λ acc x, y ← f x; Ok (acc ++ [y])) acc l = Ok (acc ++ (g <$> l)).
Proof.
  induction l as [|x l IH]; intros Hf acc.
  - simpl. by rewrite app_nil_r.
  - cbn [foldM]. rewrite Hf by (by left). simpl.
    rewrite IH by (intros y Hy; apply Hf; by right).
    by rewrite <-app_assoc.
Qed.

Lemma genotypeFreqs_of_run (dens : list Qc) :
  sum dens ≠ 0 →
  Deme.genotypeFreqs_of dens = Ok ((λ x, x / sum dens) <$> dens).
Proof.
  intros Htot. unfold Deme.genotypeFreqs_of.
  rewrite (comprehension_run _ (λ x, x / sum dens)); [done|].
  intros x _. unfold truediv. by rewrite decide_False.
Qed.

Lemma float_of_nat_nonzero (n : nat) : n ≠ 0%nat → float_of_nat n ≠ 0.
Proof.
  intros Hn H. unfold float_of_nat in H. rewrite <-Z2Qc_inj_0 in H.
  apply Z2Qc_inj in H. lia.
Qed.

Lemma alleleFreq_run (gt : Genotype.t) (a : Z) :
  Genotype.alleles gt ≠ [] →
  Genotype.alleleFreq gt a = Ok (alleleFreq_value gt a).
Proof.
  intros Hne. unfold Genotype.alleleFreq, truediv.
  rewrite decide_False; [done|]. apply float_of_nat_nonzero.
  by destruct (Genotype.alleles gt).
Qed.

(** The inner loop of [updateAlleleFreqs], for one allele. *)
Lemma allele_loop_run (gts : list Genotype.t) (gFreqs : list Qc) (a : Z) :
  length gFreqs = length gts →
  Forall (λ gt, Genotype.alleles gt ≠ []) gts →
  foldM (λ freq g,
           gt ← index gts g;
           af ← Genotype.alleleFreq gt a;
           gf ← index gFreqs g;
           Ok (freq + af * gf))
        0 (range (length gts))
  = Ok (sum (zip_with (λ gt gf, alleleFreq_value gt a * gf) gts gFreqs)).
Proof.
  intros Hlen Hgts.
  replace (length gts) with (length (zip gts gFreqs))
    by (rewrite length_zip_with; lia).
  rewrite (foldM_indexed (zip gts gFreqs) _
             (λ freq p, Ok (freq + alleleFreq_value p.1 a * p.2))).
  - rewrite (zip_with_zip (λ gt gf, alleleFreq_value gt a * gf)).
    enough (∀ (l : list (Genotype.t * Qc)) s,
      foldM (λ freq p, Ok (freq + alleleFreq_value p.1 a * p.2)) s l
      = Ok (s + sum (uncurry (λ gt gf, alleleFreq_value gt a * gf) <$> l)))
      as H.
    { rewrite H. by rewrite Qcplus_0_l. }
    induction l as [|[gt gf] l IH]; intros s.
    + simpl. rewrite sum_nil. by rewrite Qcplus_0_r.
    + cbn [foldM]. rewrite fmap_cons, sum_cons.
      change (Ok ?x ≫= ?f) with (f x). cbv beta.
      rewrite IH. cbn [uncurry fst snd]. by rewrite Qcplus_assoc.
  - intros s i [gt gf] Hi.
    apply lookup_zip_with_Some in Hi as (gt' & gf' & [= <- <-] & Hgt & Hgf).
    rewrite (index_Ok _ _ _ Hgt). simpl.
    rewrite alleleFreq_run
      by apply (Forall_lookup_1 _ _ _ _ Hgts Hgt).
    simpl. by rewrite (index_Ok _ _ _ Hgf).
Qed.

Lemma setitem_nonneg {A} (l : list A) (i : Z) (x : A) :
  (0 ≤ i < Z.of_nat (length l))%Z →
  setitem l i x = Ok (<[Z.to_nat i := x]> l).
Proof.
  intros Hi. unfold setitem, norm_index.
  destruct (decide (i < 0)%Z); [lia|]. rewrite decide_True by done. simpl.
  apply store_Ok. lia.
Qed.

(** The outer loop of [updateAlleleFreqs]: every allele gets its frequency
    stored at its own index. *)
Lemma setitem_loop (P : Z → Qc) (inner : Z → result Qc) (A : list Z) :
  (∀ a, a ∈ A → inner a = Ok (P a)) →
  ∀ fs0,
    Forall (λ a, (0 ≤ a < Z.of_nat (length fs0))%Z) A →
    ∃ fs,
      foldM (λ fs a, freq ← inner a; setitem fs a freq) fs0 A = Ok fs
      ∧ length fs = length fs0
      ∧ (∀ a, a ∈ A → fs !! Z.to_nat a = Some (P a))
      ∧ (∀ i, (∀ a, a ∈ A → Z.to_nat a ≠ i) → fs !! i = fs0 !! i).
Proof.
  induction A as [|a A IH]; intros Hinner fs0 Hvalid.
  - exists fs0. split_and!; try done. intros a Ha. by apply elem_of_nil in Ha.
  - apply Forall_cons in Hvalid as [Ha Hvalid].
    destruct (IH (λ b Hb, Hinner b (list_elem_of_further _ _ _ Hb))
                 (<[Z.to_nat a := P a]> fs0)) as (fs & Hrun & Hlen & Hin & Hout).
    { by rewrite length_insert. }
    exists fs. split_and!.
    + cbn [foldM]. rewrite Hinner by (by left). simpl.
      rewrite setitem_nonneg by done. simpl. done.
    + by rewrite Hlen, length_insert.
    + intros b [->|Hb]%elem_of_cons; [|by apply Hin].
      destruct (decide (a ∈ A)) as [HaA|HaA]; [by apply Hin|].
      rewrite Hout.
      * apply list_lookup_insert_eq. lia.
      * intros c Hc Heq.
        pose proof (proj1 (Forall_forall _ _) Hvalid c Hc) as Hc0.
        simpl in Hc0. assert (c = a) as -> by lia. done.
    + intros i Hi. rewrite Hout.
      * apply list_lookup_insert_ne. apply Hi. by left.
      * intros c Hc. apply Hi. by right.
Qed.


Lemma copy_all (new dens : list Qc) :
  length new = length dens →
  pointwise (λ g _, default 0 (new !! g)) (length dens) dens = new.
Proof.
  intros Hlen. apply list_eq. intros i. rewrite pointwise_lookup.
  destruct (dens !! i) as [x|] eqn:Hx.
  - pose proof (lookup_lt_Some _ _ _ Hx) as Hi. cbn [fmap option_fmap option_map].
    rewrite decide_True by done.
    destruct (lookup_lt_is_Some_2 new i) as [y Hy]; [lia|]. by rewrite Hy.
  - apply lookup_ge_None in Hx. symmetry. apply lookup_ge_None. simpl. lia.
Qed.

Lemma getitem_allele (fs : list Qc) (a : Z) (x : Qc) :
  (0 ≤ a)%Z → fs !! Z.to_nat a = Some x → getitem fs a = Ok x.
Proof. intros Ha Hx. rewrite getitem_nonneg by done. by apply index_Ok. Qed.

(** The body of [randomMating], once the allele frequencies are stored:
    every genotype gets its Hardy-Weinberg frequency times the total
    density. *)
Lemma randomMating_of_run (d : Deme.t) (dens : list Qc) (p : Z → Qc) :
  length dens = length (Deme.genotypes d) →
  Forall (λ gt, ∃ a0 a1,
            Genotype.alleles gt = [a0; a1]
            ∧ getitem (Deme.alleleFreqs d) a0 = Ok (p a0)
            ∧ getitem (Deme.alleleFreqs d) a1 = Ok (p a1))
         (Deme.genotypes d) →
  Deme.randomMating_of d dens
  = Ok ((λ gt, hardy_weinberg p (Genotype.alleles gt) * sum dens)
          <$> Deme.genotypes d).
Proof.
  intros Hlen Hgts. unfold Deme.randomMating_of.
  set (gts := Deme.genotypes d) in *.
  rewrite (foldM_pointwise _
    (λ g _, from_option (λ gt, hardy_weinberg p (Genotype.alleles gt)) 0
              (gts !! g))).
  - change (Ok ?x ≫= ?f) with (f x). cbv beta.
    rewrite copy_loop.
    + rewrite <-Hlen, copy_all.
      * f_equal. apply list_eq. intros i.
        rewrite !list_lookup_fmap, pointwise_lookup, list_lookup_fmap.
        destruct (gts !! i) as [gt|] eqn:Hgt.
        -- pose proof (lookup_lt_Some _ _ _ Hgt) as Hi.
           unfold range. rewrite lookup_seq_lt by lia.
           cbn [fmap option_fmap option_map]. by rewrite decide_True by lia.
        -- apply lookup_ge_None in Hgt.
           unfold range. by rewrite lookup_seq_ge by lia.
      * rewrite length_fmap, pointwise_length, length_fmap.
        unfold range. rewrite length_seq. lia.
    + lia.
    + rewrite length_fmap, pointwise_length, length_fmap.
      unfold range. by rewrite length_seq.
  - rewrite length_fmap. unfold range. by rewrite length_seq.
  - intros l' g x Hg Hx.
    destruct (lookup_lt_is_Some_2 gts g Hg) as [gt Hgt].
    rewrite (index_Ok _ _ _ Hgt), Hgt.
    change (Ok ?x ≫= ?f) with (f x). cbv beta.
    destruct (proj1 (Forall_lookup _ _) Hgts g gt Hgt)
      as (a0 & a1 & Hal & H0 & H1).
    cbn [from_option]. rewrite Hal. unfold index at 1 2.
    cbn [lookup list_lookup].
    repeat (change (Ok ?x ≫= ?f) with (f x); cbv beta).
    unfold hardy_weinberg.
    case_decide as Heq;
      try done;
      rewrite ?H0, ?H1;
      repeat (change (Ok ?x ≫= ?f) with (f x); cbv beta);
      apply store_Ok; by eapply lookup_lt_Some.
Qed.






(** ** Genotype: the string, the allele frequencies, the canonical form *)

Lemma pretty_N_go_no_slash (x : N) (s : string) :
  no_slash s → no_slash (pretty_N_go x s).
Proof.
  revert s. induction (N.lt_wf_0 x) as [x _ IH]; intros s Hs.
  assert (x = 0 ∨ 0 < x)%N as [->|Hx] by lia.
  - by rewrite pretty_N_go_0.
  - rewrite pretty_N_go_step by done. apply IH.
    + by apply N.div_lt.
    + split; [|done]. unfold pretty_N_char. by repeat case_match.
Qed.

Lemma pretty_N_no_slash (x : N) : no_slash (pretty x).
Proof.
  unfold pretty, pretty_N. case_decide.
  - by split.
  - by apply pretty_N_go_no_slash.
Qed.

Lemma pretty_Z_no_slash (z : Z) : no_slash (pretty z).
Proof.
  destruct z as [|p|p]; unfold pretty, pretty_Z.
  - by split.
  - apply pretty_N_no_slash.
  - split; [done|]. apply pretty_N_no_slash.
Qed.

Lemma pretty_N_go_nonempty (x : N) (s : string) :
  (0 < x)%N ∨ s ≠ EmptyString → pretty_N_go x s ≠ EmptyString.
Proof.
  revert s. induction (N.lt_wf_0 x) as [x _ IH]; intros s Hs.
  assert (x = 0 ∨ 0 < x)%N as [->|Hx] by lia.
  - rewrite pretty_N_go_0. destruct Hs; [lia|done].
  - rewrite pretty_N_go_step by done. apply IH.
    + by apply N.div_lt.
    + by right.
Qed.

Lemma pretty_Z_nonempty (z : Z) : pretty z ≠ EmptyString.
Proof.
  destruct z as [|p|p]; unfold pretty, pretty_Z; [done| |done].
  unfold pretty, pretty_positive, pretty, pretty_N.
  case_decide; [done|]. apply pretty_N_go_nonempty. left. lia.
Qed.

(** A string without ['/'] is not a string with one. *)
Lemma no_slash_ne (s1 r s2 : string) :
  no_slash s2 → s1 +:+ String "/" r ≠ s2.
Proof.
  revert s2. induction s1 as [|c s1 IH]; intros [|c2 s2] Hs2; simpl; try done.
  - intros [= <- _]. by destruct Hs2.
  - intros [= _ H]. destruct Hs2 as [_ Hs2]. by apply (IH s2).
Qed.

(** The text before the first ['/'] and the text after it are determined. *)
Lemma split_at_slash (s1 r1 s2 r2 : string) :
  no_slash s1 → no_slash s2 →
  s1 +:+ String "/" r1 = s2 +:+ String "/" r2 → s1 = s2 ∧ r1 = r2.
Proof.
  revert s2. induction s1 as [|c s1 IH]; intros [|c2 s2] H1 H2; simpl.
  - by intros [= ->].
  - intros [= <- _]. by destruct H2.
  - intros [= -> _]. by destruct H1.
  - intros [= -> H]. destruct H1 as [_ H1], H2 as [_ H2].
    destruct (IH s2 H1 H2 H) as [-> ->]. done.
Qed.

Lemma join_cons_cons (sep x y : string) (l : list string) :
  join sep (x :: y :: l) = x +:+ sep +:+ join sep (y :: l).
Proof. done. Qed.

Lemma join_slash_inj (l1 l2 : list string) :
  Forall no_slash l1 → Forall no_slash l2 →
  Forall (λ s, s ≠ EmptyString) l1 → Forall (λ s, s ≠ EmptyString) l2 →
  join "/" l1 = join "/" l2 → l1 = l2.
Proof.
  revert l2. induction l1 as [|x [|y l1] IH]; intros l2 H1 H2 N1 N2.
  - destruct l2 as [|x2 [|y2 l2]]; [done|..].
    + simpl. intros E. apply Forall_cons in N2 as [N2 _]. by destruct N2.
    + rewrite join_cons_cons. simpl. intros E. symmetry in E.
      by destruct x2.
  - destruct l2 as [|x2 [|y2 l2]].
    + simpl. intros E. apply Forall_cons in N1 as [N1 _]. by destruct N1.
    + simpl. by intros ->.
    + rewrite join_cons_cons. cbn [join]. intros E. symmetry in E.
      apply Forall_cons in H1 as [H1 _].
      by apply no_slash_ne in E.
  - destruct l2 as [|x2 [|y2 l2]].
    + rewrite join_cons_cons. simpl. intros E. by destruct x.
    + rewrite join_cons_cons. cbn [join]. intros E.
      apply Forall_cons in H2 as [H2 _].
      by apply no_slash_ne in E.
    + rewrite !join_cons_cons. intros E.
      apply Forall_cons in H1 as [Hx H1]. apply Forall_cons in H2 as [Hx2 H2].
      apply Forall_cons in N1 as [_ N1]. apply Forall_cons in N2 as [_ N2].
      apply split_at_slash in E as [-> E]; [|done..].
      f_equal. by apply IH.
Qed.

(** X1: the string of a genotype determines its alleles: two genotypes
    (with int alleles) have the same [toString()] exactly when they have
    the same allele list. *)
Theorem Genotype_toString_inj (g1 g2 : Genotype.t) :
  Genotype.toString g1 = Genotype.toString g2 ↔ Genotype.alleles g1 = Genotype.alleles g2.
Proof.
  split; [|by unfold Genotype.toString; intros ->].
  unfold Genotype.toString. intros E.
  apply join_slash_inj in E.
  - by apply (inj (fmap pretty)) in E.
  - apply Forall_fmap, Forall_forall. intros z _. apply pretty_Z_no_slash.
  - apply Forall_fmap, Forall_forall. intros z _. apply pretty_Z_no_slash.
  - apply Forall_fmap, Forall_forall. intros z _. apply pretty_Z_nonempty.
  - apply Forall_fmap, Forall_forall. intros z _. apply pretty_Z_nonempty.
Qed.

Lemma Genotype_toString_example :
  Genotype.toString eg_g01 = "0/1"
  ∧ Genotype.toString (Genotype.mk [-1; 10; 12]%Z 1 1 1) = "-1/10/12"
  ∧ Genotype.toString (Genotype.mk [] 1 1 1) = EmptyString.
Proof. split_and!; reflexivity. Qed.








(** X2: [alleleFreq] divides by the number of alleles: for the genotype
    without alleles, which the constructor accepts, it raises
    ZeroDivisionError for every allele; for every other genotype it
    returns. *)
Theorem Genotype_alleleFreq_ZeroDivisionError (g : Genotype.t) (a : Z) :
  (Genotype.alleleFreq g a = Raise ZeroDivisionError
   ↔ Genotype.alleles g = [])
  ∧ (is_Ok (Genotype.alleleFreq g a) ↔ Genotype.alleles g ≠ [])
  ∧ (∀ fitness growthRate maxDensity,
       0 ≤ fitness ∧ fitness ≤ 1 → 0 < maxDensity ∧ maxDensity ≤ 1 →
       ∃ g0, Genotype.init [] fitness growthRate maxDensity = Ok g0
             ∧ Genotype.alleleFreq g0 a = Raise ZeroDivisionError).
Proof.
  assert (∀ g', Genotype.alleles g' = [] →
                Genotype.alleleFreq g' a = Raise ZeroDivisionError) as Hempty'.
  { intros g' H. unfold Genotype.alleleFreq, truediv. rewrite H.
    change (length (@nil Z)) with 0%nat.
    by rewrite float_of_nat_0, decide_True. }
  pose proof (Hempty' g) as Hempty.
  split_and!.
  - split; [|done]. intros H.
    destruct (Genotype.alleles g) eqn:E; [done|].
    rewrite alleleFreq_run in H; [done|]. by rewrite E.
  - split.
    + intros [f Hf] H. by rewrite Hempty in Hf.
    + intros H. eexists. by apply alleleFreq_run.
  - intros fitness growthRate maxDensity [Hf0 Hf1] [Hm0 Hm1].
    exists (Genotype.mk [] fitness growthRate maxDensity). split.
    + unfold Genotype.init. cbn [forallb assert mbind result_bind].
      rewrite !bool_decide_eq_true_2 by done. reflexivity.
    + by apply Hempty'.
Qed.



Lemma forallb_Permutation {A} (f : A → bool) (l k : list A) :
  l ≡ₚ k → forallb f l = forallb f k.
Proof.
  induction 1 as [|x l k _ IH|x y l|l k m _ IH1 _ IH2]; simpl.
  - done.
  - by rewrite IH.
  - by destruct (f x), (f y).
  - congruence.
Qed.

Lemma merge_sort_Permutation_eq (l k : list Z) :
  l ≡ₚ k → merge_sort Z.le l = merge_sort Z.le k.
Proof.
  intros H. apply (Sorted_unique Z.le).
  - apply (Sorted_merge_sort Z.le).
  - apply (Sorted_merge_sort Z.le).
  - by rewrite !merge_sort_Permutation.
Qed.

(** X4: the constructor canonicalises the alleles: the order in which the
    caller lists them does not matter, and constructing a genotype again
    from the alleles of a constructed one gives the same genotype. *)
Theorem Genotype_init_canonical
    (alleles alleles' : list pyval) (fitness growthRate maxDensity : Qc) :
  alleles ≡ₚ alleles' →
  Genotype.init alleles fitness growthRate maxDensity
  = Genotype.init alleles' fitness growthRate maxDensity
  ∧ ∀ g, Genotype.init alleles fitness growthRate maxDensity = Ok g →
      Genotype.init (PyInt <$> Genotype.alleles g) fitness growthRate maxDensity
      = Ok g.
Proof.
  intros Hperm. split.
  - unfold Genotype.init.
    rewrite (forallb_Permutation _ _ _ Hperm).
    by rewrite (merge_sort_Permutation_eq _ _ (fmap_Permutation int_value _ _ Hperm)).
  - intros g Hg.
    destruct (Genotype_init_Ok_inv _ _ _ _ _ Hg) as (-> & Ha & Hf & Hk).
    cbn [Genotype.alleles]. rewrite Genotype_init_Ok; [|  |done..].
    + do 2 f_equal. rewrite <-list_fmap_compose.
      rewrite (list_fmap_ext (int_value ∘ PyInt) id _ (λ _ _ _, eq_refl)).
      rewrite list_fmap_id. apply merge_sort_Permutation_eq.
      apply merge_sort_Permutation.
    + apply Forall_fmap, Forall_forall. intros z _. by exists z.
Qed.

Lemma Genotype_init_canonical_witness :
  Genotype.init [PyInt 1; PyInt 0] 1 1 1 = Genotype.init [PyInt 0; PyInt 1] 1 1 1
  ∧ ∀ g, Genotype.init [PyInt 1; PyInt 0] 1 1 1 = Ok g →
      Genotype.init (PyInt <$> Genotype.alleles g) 1 1 1 = Ok g.
Proof.
  apply (Genotype_init_canonical [PyInt 1; PyInt 0] [PyInt 0; PyInt 1] 1 1 1).
  apply perm_swap.
Defined.

(** ** Deme: what the constructor rejects and what it builds *)

(** *** The alleles of a genotype list *)

Lemma elem_of_alleles_of (gl : list Genotype.t) (a : Z) :
  a ∈ Deme.alleles_of gl ↔ ∃ g, g ∈ gl ∧ a ∈ Genotype.alleles g.
Proof.
  unfold Deme.alleles_of.
  rewrite merge_sort_Permutation, elem_of_remove_dups, list_elem_of_bind.
  split; intros (g & H1 & H2); eauto.
Qed.


Lemma alleles_of_nil (gl : list Genotype.t) :
  Deme.alleles_of gl = [] ↔ Forall (λ g, Genotype.alleles g = []) gl.
Proof.
  split.
  - intros H. apply Forall_forall. intros g Hg.
    destruct (Genotype.alleles g) as [|a l] eqn:E; [done|].
    assert (a ∈ Deme.alleles_of gl) as Ha.
    { apply elem_of_alleles_of. exists g. split; [done|]. rewrite E. by left. }
    rewrite H in Ha. by apply elem_of_nil in Ha.
  - intros H. destruct (Deme.alleles_of gl) as [|a l] eqn:E; [done|].
    assert (a ∈ Deme.alleles_of gl) as Ha by (rewrite E; by left).
    apply elem_of_alleles_of in Ha as (g & Hg & Ha).
    rewrite (proj1 (Forall_forall _ _) H g Hg) in Ha.
    by apply elem_of_nil in Ha.
Qed.




(** The allele-frequency update, with what it leaves at the indices that
    are no alleles. *)
Lemma updateAlleleFreqs_of_table (d : Deme.t) (dens : list Qc) :
  sum dens ≠ 0 →
  length dens = length (Deme.genotypes d) →
  Forall (λ gt, Genotype.alleles gt ≠ []) (Deme.genotypes d) →
  Forall (λ a, (0 ≤ a < Z.of_nat (length (Deme.alleleFreqs d)))%Z)
         (Deme.alleles d) →
  ∃ fs,
    Deme.updateAlleleFreqs_of d dens = Ok fs
    ∧ length fs = length (Deme.alleleFreqs d)
    ∧ (∀ a, a ∈ Deme.alleles d →
         fs !! Z.to_nat a = Some (allele_frequency (Deme.genotypes d) dens a))
    ∧ (∀ i, Z.of_nat i ∉ Deme.alleles d → fs !! i = Deme.alleleFreqs d !! i).
Proof.
  intros Htot Hlen Hgts Hvalid. unfold Deme.updateAlleleFreqs_of.
  rewrite genotypeFreqs_of_run by done. simpl.
  destruct (setitem_loop (allele_frequency (Deme.genotypes d) dens)
    (λ a, foldM (λ freq g,
                   gt ← index (Deme.genotypes d) g;
                   af ← Genotype.alleleFreq gt a;
                   gf ← index ((λ x, x / sum dens) <$> dens) g;
                   Ok (freq + af * gf))
                0 (range (length (Deme.genotypes d))))
    (Deme.alleles d)) with (Deme.alleleFreqs d)
    as (fs & Hrun & Hfs & Hin & Hout).
  - intros a _. rewrite allele_loop_run; [|by rewrite length_fmap|done].
    unfold allele_frequency. by rewrite zip_with_fmap_r.
  - done.
  - exists fs. split_and!; [done..|].
    intros i Hi. apply Hout. intros a Ha Heq.
    pose proof (proj1 (Forall_forall _ _) Hvalid a Ha) as Hv. cbv beta in Hv.
    apply Hi. by replace (Z.of_nat i) with a by lia.
Qed.

Lemma genotypeFreqs_of_zero (dens : list Qc) :
  dens ≠ [] → sum dens = 0 →
  Deme.genotypeFreqs_of dens = Raise ZeroDivisionError.
Proof.
  intros Hne Hsum. unfold Deme.genotypeFreqs_of. rewrite Hsum.
  destruct dens as [|x dens]; [done|].
  cbn [foldM]. unfold truediv. by rewrite decide_True.
Qed.

Lemma bind_Raise {A B} (m : Deme.M A) (f : A → Deme.M B) h e :
  m h = Raise e → (m ≫= f) h = Raise e.
Proof. unfold mbind, Deme.M_bind. by intros ->. Qed.

Lemma lift_Raise {A} (r : result A) h e : r = Raise e → Deme.lift r h = Raise e.
Proof. by intros ->. Qed.

Lemma assert_true_run {B} (c : bool) (f : unit → Deme.M B) h :
  c = true → (Deme.lift (assert c) ≫= f) h = f () h.
Proof. by intros ->. Qed.

Lemma assert_false_run {B} (c : bool) (f : unit → Deme.M B) h :
  c = false → (Deme.lift (assert c) ≫= f) h = Raise AssertionError.
Proof. by intros ->. Qed.

(** X5: what makes the construction of a deme fail: a total density above
    1 or a refuge proportion outside [0,1] fails an assertion; genotypes
    without any allele (an empty genotype list, say) make [max] raise
    ValueError; a non-empty density list that adds up to 0 makes the first
    allele-frequency update divide by zero. *)
Theorem Deme_init_raises
    (gl : list Genotype.t) (gd : nat) (rp : Qc) (h : Deme.heap)
    (dens : list Qc) :
  Deme.heap_lists h !! gd = Some dens →
  (1 < sum dens → Deme.init gl gd rp h = Raise AssertionError)
  ∧ (sum dens ≤ 1 → ¬ (0 ≤ rp ∧ rp ≤ 1) →
     Deme.init gl gd rp h = Raise AssertionError)
  ∧ (sum dens ≤ 1 → 0 ≤ rp ∧ rp ≤ 1 →
     Forall (λ g, Genotype.alleles g = []) gl →
     Deme.init gl gd rp h = Raise ValueError)
  ∧ (sum dens = 0 → 0 ≤ rp ∧ rp ≤ 1 →
     Exists (λ g, Genotype.alleles g ≠ []) gl → dens ≠ [] →
     Deme.init gl gd rp h = Raise ZeroDivisionError).
Proof.
  intros Hl. unfold Deme.init.
  rewrite (bind_Ok _ _ _ _ _ (get_list_Ok _ _ _ Hl)).
  split_and!.
  - intros Hsum. apply assert_false_run, bool_decide_eq_false_2.
    by apply Qclt_not_le.
  - intros Hsum Hrp. rewrite assert_true_run by (by apply bool_decide_eq_true_2).
    apply assert_false_run.
    destruct (bool_decide (0 ≤ rp) && bool_decide (rp ≤ 1)) eqn:E; [|done].
    by apply range_check_true in E.
  - intros Hsum Hrp Hgl.
    rewrite assert_true_run by (by apply bool_decide_eq_true_2).
    rewrite assert_true_run by (by apply range_check_true).
    apply bind_Raise, lift_Raise.
    apply alleles_of_nil in Hgl. by rewrite Hgl.
  - intros Hsum Hrp Hgl Hne.
    rewrite assert_true_run by (apply bool_decide_eq_true_2; by rewrite Hsum).
    rewrite assert_true_run by (by apply range_check_true).
    destruct (pymax (Deme.alleles_of gl)) as [top|e] eqn:Etop.
    2:{ destruct (Deme.alleles_of gl) eqn:EA; [|done].
        apply alleles_of_nil in EA. apply Exists_exists in Hgl as (g & Hg & Hga).
        by destruct Hga; apply (proj1 (Forall_forall _ _) EA g Hg). }
    rewrite (bind_Ok _ _ _ _ _ (lift_Ok _ _ _ eq_refl)).
    apply bind_Raise, lift_Raise.
    unfold Deme.updateAlleleFreqs_of.
    by rewrite genotypeFreqs_of_zero.
Qed.

Lemma Deme_init_raises_witness :
  Deme.init [eg_g00] 0 0 (eg_lists [q 3 5; q 3 5]) = Raise AssertionError.
Proof.
  apply (proj1 (Deme_init_raises [eg_g00] 0 0 (eg_lists [q 3 5; q 3 5])
                  [q 3 5; q 3 5] eq_refl)).
  reflexivity.
Defined.



Lemma densities_of_shape h h' a d :
  shape h' = shape h → Deme.heap_demes h !! a = Some d →
  densities_of h' a = Deme.heap_lists h' !! Deme.genotypeDensities d.
Proof.
  intros Hs Hd.
  destruct (shape_lookup_deme h h' a d Hs Hd) as (d' & Hd' & _ & Hg).
  unfold densities_of. rewrite Hd'. simpl. by rewrite Hg.
Qed.

(** X7: the constructor of a deme keeps the caller's list, it does not
    copy it.  Two demes constructed from the same list object share their
    densities: after [selection()], [logisticGrowth()] or [randomMating()]
    on the first, the second has the new densities of the first, and so
    has the caller's list. *)
Theorem Deme_init_keeps_the_list
    (gl gl' : list Genotype.t) (gd : nat) (rp rp' : Qc)
    (h h1 h2 : Deme.heap) (a b : nat) :
  Deme.init gl gd rp h = Ok (a, h1) →
  Deme.init gl' gd rp' h1 = Ok (b, h2) →
  a ≠ b
  ∧ densities_of h2 a = Deme.heap_lists h !! gd
  ∧ densities_of h2 b = Deme.heap_lists h !! gd
  ∧ ∀ u h3,
      Deme.selection a h2 = Ok (u, h3)
      ∨ Deme.logisticGrowth a h2 = Ok (u, h3)
      ∨ Deme.randomMating a h2 = Ok (u, h3) →
      densities_of h3 b = densities_of h3 a
      ∧ Deme.heap_lists h3 !! gd = densities_of h3 a.
Proof.
  intros Ha Hb.
  apply Deme_init_Ok_inv in Ha as (dens & fs & Hl & _ & _ & -> & -> & _).
  apply Deme_init_Ok_inv in Hb as (dens' & fs' & Hl' & _ & _ & -> & -> & _).
  simpl in *. rewrite length_app. simpl.
  set (da := Deme.mk gl gd rp (Deme.alleles_of gl) fs []).
  set (db := Deme.mk gl' gd rp' (Deme.alleles_of gl') fs' []).
  set (h2 := Deme.Heap (Deme.heap_lists h) ((Deme.heap_demes h ++ [da]) ++ [db])).
  assert (Deme.heap_demes h2 !! length (Deme.heap_demes h) = Some da) as Hda.
  { simpl. rewrite lookup_app_l by (rewrite length_app; simpl; lia).
    by rewrite lookup_app_r, Nat.sub_diag. }
  assert (Deme.heap_demes h2 !! (length (Deme.heap_demes h) + 1)%nat = Some db)
    as Hdb.
  { simpl. rewrite lookup_app_r by (rewrite length_app; simpl; lia).
    rewrite length_app. simpl. by rewrite Nat.sub_diag. }
  split_and!.
  - lia.
  - unfold densities_of. by rewrite Hda.
  - unfold densities_of. by rewrite Hdb.
  - intros u h3 Hop.
    assert (shape h3 = shape h2) as Hs.
    { destruct Hop as [Hop|[Hop|Hop]].
      - by eapply selection_shape.
      - by eapply logisticGrowth_shape.
      - by eapply randomMating_shape. }
    rewrite (densities_of_shape h2 h3 _ da Hs Hda).
    rewrite (densities_of_shape h2 h3 _ db Hs Hdb). done.
Qed.

Lemma Deme_init_keeps_the_list_witness :
  let h1 := heap_after (Deme.init [eg_g00; eg_g01] 0 0)
                       (eg_lists [q 2 5; q 2 5]) in
  let h2 := heap_after (Deme.init [eg_g00; eg_g01] 0 1) h1 in
  (0 ≠ 1)%nat
  ∧ densities_of h2 0 = Deme.heap_lists (eg_lists [q 2 5; q 2 5]) !! 0%nat
  ∧ densities_of h2 1 = Deme.heap_lists (eg_lists [q 2 5; q 2 5]) !! 0%nat
  ∧ ∀ u h3,
      Deme.selection 0 h2 = Ok (u, h3)
      ∨ Deme.logisticGrowth 0 h2 = Ok (u, h3)
      ∨ Deme.randomMating 0 h2 = Ok (u, h3) →
      densities_of h3 1 = densities_of h3 0
      ∧ Deme.heap_lists h3 !! 0%nat = densities_of h3 0.
Proof.
  intros h1 h2.
  apply (Deme_init_keeps_the_list [eg_g00; eg_g01] [eg_g00; eg_g01] 0 0 1
           (eg_lists [q 2 5; q 2 5]) h1 h2 0 1).
  - apply (bool_decide_eq_true_1 _). by vm_compute.
  - apply (bool_decide_eq_true_1 _). by vm_compute.
Defined.

(** ** Deme: genotype frequencies and random mating *)



(** [randomMating], with the whole table of allele frequencies it
    leaves. *)
Lemma randomMating_run_table (h : Deme.heap) (self : nat) (d : Deme.t)
    (dens : list Qc) :
  Deme.heap_demes h !! self = Some d →
  Deme.heap_lists h !! Deme.genotypeDensities d = Some dens →
  length dens = length (Deme.genotypes d) →
  sum dens ≠ 0 →
  Forall (λ a, (0 ≤ a < Z.of_nat (length (Deme.alleleFreqs d)))%Z)
         (Deme.alleles d) →
  Forall (λ gt, ∃ a0 a1, Genotype.alleles gt = [a0; a1]
                         ∧ a0 ∈ Deme.alleles d ∧ a1 ∈ Deme.alleles d)
         (Deme.genotypes d) →
  let p := allele_frequency (Deme.genotypes d) dens in
  ∃ fs,
    Deme.randomMating self h
    = Ok ((), Deme.Heap
                (<[Deme.genotypeDensities d :=
                     (λ gt, hardy_weinberg p (Genotype.alleles gt) * sum dens)
                       <$> Deme.genotypes d]> (Deme.heap_lists h))
                (<[self := Deme.with_alleleFreqs d fs]> (Deme.heap_demes h)))
    ∧ length fs = length (Deme.alleleFreqs d)
    ∧ (∀ a, a ∈ Deme.alleles d → fs !! Z.to_nat a = Some (p a))
    ∧ (∀ i, Z.of_nat i ∉ Deme.alleles d → fs !! i = Deme.alleleFreqs d !! i).
Proof.
  intros Hd Hl Hlen Htot Hvalid Hgts p.
  set (gts := Deme.genotypes d) in *. set (A := Deme.alleles d) in *.
  destruct (updateAlleleFreqs_of_table d dens)
    as (fs & Hfs & Hfslen & Hfsp & Hfso); try done.
  { eapply Forall_impl; [exact Hgts|]. by intros gt (a0 & a1 & -> & _). }
  set (d1 := Deme.with_alleleFreqs d fs).
  set (h1 := Deme.Heap (Deme.heap_lists h) (<[self := d1]> (Deme.heap_demes h))).
  assert (Deme.updateAlleleFreqs self h = Ok ((), h1)) as Hupd.
  { unfold Deme.updateAlleleFreqs.
    rewrite (bind_Ok _ _ _ _ _ (get_deme_Ok _ _ _ Hd)).
    rewrite (bind_Ok _ _ _ _ _ (get_list_Ok _ _ _ Hl)).
    rewrite (bind_Ok _ _ _ _ _ (lift_Ok _ _ _ Hfs)).
    apply set_deme_Ok. by eapply lookup_lt_Some. }
  assert (Deme.heap_demes h1 !! self = Some d1) as Hd1.
  { apply list_lookup_insert_eq. by eapply lookup_lt_Some. }
  set (new := (λ gt, hardy_weinberg p (Genotype.alleles gt) * sum dens) <$> gts).
  assert (Deme.randomMating_of d1 dens = Ok new) as Hnew.
  { apply randomMating_of_run; [done|].
    eapply Forall_impl; [exact Hgts|]. intros gt (a0 & a1 & Hal & H0 & H1).
    exists a0, a1. split_and!; [done|..].
    - pose proof (proj1 (Forall_forall _ _) Hvalid a0 H0) as Hv.
      cbv beta in Hv. apply getitem_allele; [lia|]. by apply Hfsp.
    - pose proof (proj1 (Forall_forall _ _) Hvalid a1 H1) as Hv.
      cbv beta in Hv. apply getitem_allele; [lia|]. by apply Hfsp. }
  exists fs. split_and!; [|done..].
  unfold Deme.randomMating. rewrite (bind_Ok _ _ _ _ _ Hupd).
  apply (update_densities_run Deme.randomMating_of h1 self d1 dens); done.
Qed.

(** X9: [randomMating()] on a deme of diploid genotypes replaces the
    density of every genotype by its Hardy-Weinberg frequency under the
    current allele frequencies ([p(a)^2] for a homozygote, [2 p(a) p(b)]
    for a heterozygote) times the current total density, and stores the
    allele frequencies it used. *)
Theorem Deme_randomMating_hardy_weinberg
    (h : Deme.heap) (self : nat) (d : Deme.t) (dens : list Qc) :
  Deme.heap_demes h !! self = Some d →
  Deme.heap_lists h !! Deme.genotypeDensities d = Some dens →
  length dens = length (Deme.genotypes d) →
  sum dens ≠ 0 →
  Forall (λ a, (0 ≤ a < Z.of_nat (length (Deme.alleleFreqs d)))%Z)
         (Deme.alleles d) →
  Forall (λ gt, ∃ a0 a1, Genotype.alleles gt = [a0; a1]
                         ∧ a0 ∈ Deme.alleles d ∧ a1 ∈ Deme.alleles d)
         (Deme.genotypes d) →
  ∃ h' d',
    Deme.randomMating self h = Ok ((), h')
    ∧ densities_of h' self
      = Some ((λ gt, hardy_weinberg (allele_frequency (Deme.genotypes d) dens)
                       (Genotype.alleles gt) * sum dens)
                <$> Deme.genotypes d)
    ∧ Deme.heap_demes h' !! self = Some d'
    ∧ ∀ a, a ∈ Deme.alleles d →
        Deme.alleleFreqs d' !! Z.to_nat a
        = Some (allele_frequency (Deme.genotypes d) dens a).
Proof.
  intros Hd Hl Hlen Htot Hvalid Hgts.
  destruct (randomMating_run_table h self d dens) as (fs & Hrun & _ & Hfs & _);
    try done.
  eexists _, _. split; [exact Hrun|].
  pose proof (lookup_lt_Some _ _ _ Hd) as Hself.
  pose proof (lookup_lt_Some _ _ _ Hl) as Hloc.
  split_and!.
  - unfold densities_of. simpl. rewrite list_lookup_insert_eq by done. simpl.
    by rewrite list_lookup_insert_eq.
  - simpl. by apply list_lookup_insert_eq.
  - done.
Qed.

Lemma Deme_randomMating_hardy_weinberg_witness :
  ∃ h' d',
    Deme.randomMating 0 eg_open_heap = Ok ((), h')
    ∧ densities_of h' 0
      = Some ((λ gt, hardy_weinberg
                       (allele_frequency [eg_g00; eg_g01] [q 2 5; q 2 5])
                       (Genotype.alleles gt) * sum [q 2 5; q 2 5])
                <$> [eg_g00; eg_g01])
    ∧ Deme.heap_demes h' !! 0%nat = Some d'
    ∧ ∀ a, a ∈ [0; 1]%Z →
        Deme.alleleFreqs d' !! Z.to_nat a
        = Some (allele_frequency [eg_g00; eg_g01] [q 2 5; q 2 5] a).
Proof.
  apply (Deme_randomMating_hardy_weinberg eg_open_heap 0
           (Deme.mk [eg_g00; eg_g01] 0 0 [0; 1]%Z [q 3 4; q 1 4] [])
           [q 2 5; q 2 5]).
  - apply (bool_decide_eq_true_1 _). by vm_compute.
  - reflexivity.
  - reflexivity.
  - apply (bool_decide_eq_false_1 _). by vm_compute.
  - apply (bool_decide_eq_true_1 _). by vm_compute.
  - repeat apply Forall_cons_2; try apply Forall_nil_2.
    + exists 0%Z, 0%Z. split_and!; [done|by left..].
    + exists 0%Z, 1%Z. split_and!; [done|by left|by right; left].
Defined.

(** Which exceptions a computation can raise. *)
Lemma only_raises_Ok {A} (P : exn → Prop) (a : A) : only_raises P (Ok a).
Proof. by intros e. Qed.

Lemma only_raises_Raise {A} (P : exn → Prop) e :
  P e → only_raises P (@Raise A e).
Proof. intros H e' [= <-]. done. Qed.

Lemma only_raises_bind {A B} (P : exn → Prop) (m : result A)
    (f : A → result B) :
  only_raises P m → (∀ a, only_raises P (f a)) → only_raises P (m ≫= f).
Proof.
  intros Hm Hf e. destruct m as [a|e']; simpl.
  - apply Hf.
  - intros [= <-]. by apply Hm.
Qed.

Lemma only_raises_foldM {S X} (P : exn → Prop) (body : S → X → result S)
    (xs : list X) (s : S) :
  (∀ s x, only_raises P (body s x)) → only_raises P (foldM body s xs).
Proof.
  intros Hb. revert s. induction xs as [|x xs IH]; intros s; simpl.
  - apply only_raises_Ok.
  - apply only_raises_bind; [apply Hb|]. intros s'. apply IH.
Qed.

Lemma only_raises_index {A} (P : exn → Prop) (l : list A) i :
  P IndexError → only_raises P (index l i).
Proof.
  intros H. unfold index. destruct (l !! i).
  - apply only_raises_Ok.
  - by apply only_raises_Raise.
Qed.

Lemma only_raises_store {A} (P : exn → Prop) (l : list A) i x :
  P IndexError → only_raises P (store l i x).
Proof.
  intros H. unfold store. destruct (decide _).
  - apply only_raises_Ok.
  - by apply only_raises_Raise.
Qed.

Lemma only_raises_norm_index {A} (P : exn → Prop) (l : list A) i :
  P IndexError → only_raises P (norm_index l i).
Proof.
  intros H. unfold norm_index. cbv zeta. destruct (decide (0 ≤ _ < _)%Z).
  - apply only_raises_Ok.
  - by apply only_raises_Raise.
Qed.

Lemma only_raises_getitem {A} (P : exn → Prop) (l : list A) i :
  P IndexError → only_raises P (getitem l i).
Proof.
  intros H. unfold getitem. apply only_raises_bind.
  - by apply only_raises_norm_index.
  - intros j. by apply only_raises_index.
Qed.

Lemma only_raises_setitem {A} (P : exn → Prop) (l : list A) i x :
  P IndexError → only_raises P (setitem l i x).
Proof.
  intros H. unfold setitem. apply only_raises_bind.
  - by apply only_raises_norm_index.
  - intros j. by apply only_raises_store.
Qed.

Lemma only_raises_truediv (P : exn → Prop) x y :
  P ZeroDivisionError → only_raises P (truediv x y).
Proof.
  intros H. unfold truediv. destruct (decide _).
  - by apply only_raises_Raise.
  - apply only_raises_Ok.
Qed.

Lemma updateAlleleFreqs_of_only_raises (P : exn → Prop) d dens :
  P IndexError → P ZeroDivisionError →
  only_raises P (Deme.updateAlleleFreqs_of d dens).
Proof.
  intros Hi Hz. unfold Deme.updateAlleleFreqs_of, Deme.genotypeFreqs_of.
  apply only_raises_bind.
  - apply only_raises_foldM. intros acc x.
    apply only_raises_bind; [by apply only_raises_truediv|].
    intros. apply only_raises_Ok.
  - intros gFreqs. apply only_raises_foldM. intros fs a.
    apply only_raises_bind; [|intros; by apply only_raises_setitem].
    apply only_raises_foldM. intros freq g.
    apply only_raises_bind; [by apply only_raises_index|]. intros gt.
    apply only_raises_bind.
    { unfold Genotype.alleleFreq. by apply only_raises_truediv. }
    intros af.
    apply only_raises_bind; [by apply only_raises_index|]. intros gf.
    apply only_raises_Ok.
Qed.

Lemma randomMating_of_only_raises (P : exn → Prop) d dens :
  P IndexError → only_raises P (Deme.randomMating_of d dens).
Proof.
  intros Hi. unfold Deme.randomMating_of. cbv zeta.
  apply only_raises_bind.
  - apply only_raises_foldM. intros new g.
    apply only_raises_bind; [by apply only_raises_index|]. intros gt.
    apply only_raises_bind; [by apply only_raises_index|]. intros a0.
    apply only_raises_bind; [by apply only_raises_index|]. intros a1.
    destruct (decide _).
    + apply only_raises_bind; [by apply only_raises_getitem|]. intros p.
      by apply only_raises_store.
    + apply only_raises_bind; [by apply only_raises_getitem|]. intros p.
      apply only_raises_bind; [by apply only_raises_getitem|]. intros p'.
      by apply only_raises_store.
  - intros new. apply only_raises_foldM. intros dens' g.
    apply only_raises_bind; [by apply only_raises_index|]. intros x.
    by apply only_raises_store.
Qed.

(** [randomMating], step by step. *)
Lemma randomMating_cases (h : Deme.heap) (self : nat) (d : Deme.t)
    (dens : list Qc) :
  Deme.heap_demes h !! self = Some d →
  Deme.heap_lists h !! Deme.genotypeDensities d = Some dens →
  Deme.randomMating self h
  = match Deme.updateAlleleFreqs_of d dens with
    | Raise e => Raise e
    | Ok fs =>
        match Deme.randomMating_of (Deme.with_alleleFreqs d fs) dens with
        | Raise e => Raise e
        | Ok dens' =>
            Ok ((), Deme.Heap
                      (<[Deme.genotypeDensities d := dens']> (Deme.heap_lists h))
                      (<[self := Deme.with_alleleFreqs d fs]>
                         (Deme.heap_demes h)))
        end
    end.
Proof.
  intros Hd Hl.
  pose proof (lookup_lt_Some _ _ _ Hd) as Hlt.
  pose proof (lookup_lt_Some _ _ _ Hl) as Hlt'.
  unfold Deme.randomMating.
  assert (Deme.updateAlleleFreqs self h
          = match Deme.updateAlleleFreqs_of d dens with
            | Raise e => Raise e
            | Ok fs => Ok ((), Deme.Heap (Deme.heap_lists h)
                                 (<[self := Deme.with_alleleFreqs d fs]>
                                    (Deme.heap_demes h)))
            end) as Hupd.
  { unfold Deme.updateAlleleFreqs.
    rewrite (bind_Ok _ _ _ _ _ (get_deme_Ok _ _ _ Hd)).
    rewrite (bind_Ok _ _ _ _ _ (get_list_Ok _ _ _ Hl)).
    destruct (Deme.updateAlleleFreqs_of d dens) as [fs|e].
    - rewrite (bind_Ok _ _ _ _ _ (lift_Ok _ _ _ eq_refl)). by apply set_deme_Ok.
    - by apply bind_Raise. }
  destruct (Deme.updateAlleleFreqs_of d dens) as [fs|e].
  2:{ by apply bind_Raise. }
  rewrite (bind_Ok _ _ _ _ _ Hupd).
  set (h1 := Deme.Heap _ _).
  assert (Deme.heap_demes h1 !! self = Some (Deme.with_alleleFreqs d fs))
    as Hd1 by (by apply list_lookup_insert_eq).
  rewrite (bind_Ok _ _ _ _ _ (get_deme_Ok _ _ _ Hd1)).
  assert (Deme.heap_lists h1
          !! Deme.genotypeDensities (Deme.with_alleleFreqs d fs) = Some dens)
    as Hl1 by done.
  rewrite (bind_Ok _ _ _ _ _ (get_list_Ok _ _ _ Hl1)).
  destruct (Deme.randomMating_of _ dens) as [dens'|e].
  - rewrite (bind_Ok _ _ _ _ _ (lift_Ok _ _ _ eq_refl)). by apply set_list_Ok.
  - by apply bind_Raise.
Qed.

(** X10: [randomMating()] reads [a[0]] and [a[1]] of every genotype: on a
    deme with a genotype of fewer than two alleles it never returns, it
    raises IndexError (or ZeroDivisionError, if the update of the allele
    frequencies that comes first divides by zero). *)
Theorem Deme_randomMating_needs_diploid
    (h : Deme.heap) (self : nat) (d : Deme.t) (dens : list Qc) :
  Deme.heap_demes h !! self = Some d →
  Deme.heap_lists h !! Deme.genotypeDensities d = Some dens →
  Exists (λ gt, (length (Genotype.alleles gt) < 2)%nat) (Deme.genotypes d) →
  Deme.randomMating self h = Raise IndexError
  ∨ Deme.randomMating self h = Raise ZeroDivisionError.
Proof.
  intros Hd Hl Hex.
  set (P := λ e, e = IndexError ∨ e = ZeroDivisionError).
  assert (P IndexError) as Hi by by left.
  assert (P ZeroDivisionError) as Hz by by right.
  rewrite (randomMating_cases h self d dens Hd Hl).
  pose proof (updateAlleleFreqs_of_only_raises P d dens Hi Hz) as Hu.
  destruct (Deme.updateAlleleFreqs_of d dens) as [fs|e].
  2:{ destruct (Hu e eq_refl) as [-> | ->]; [by left|by right]. }
  pose proof (randomMating_of_only_raises P (Deme.with_alleleFreqs d fs) dens Hi)
    as Hr.
  destruct (Deme.randomMating_of _ dens) as [dens'|e] eqn:Hrm.
  2:{ destruct (Hr e eq_refl) as [-> | ->]; [by left|by right]. }
  exfalso.
  unfold Deme.randomMating_of in Hrm.
  apply result_bind_Ok_inv in Hrm as (new & Hloop & _).
  apply Exists_exists in Hex as (gt & Hgt & Hshort).
  apply list_elem_of_lookup in Hgt as [g Hg].
  destruct (foldM_Ok_all _ _ _ _ Hloop g) as (s1 & s2 & Hbody).
  { unfold range. apply elem_of_seq. simpl.
    apply lookup_lt_Some in Hg. lia. }
  simpl in Hbody. rewrite (index_Ok _ _ _ Hg) in Hbody. simpl in Hbody.
  apply result_bind_Ok_inv in Hbody as (a0 & _ & Hbody).
  apply result_bind_Ok_inv in Hbody as (a1 & H1 & _).
  apply index_Ok_inv, lookup_lt_Some in H1. lia.
Qed.

Lemma Deme_randomMating_needs_diploid_witness :
  let h := heap_after (Deme.init [Genotype.mk [0]%Z 1 1 1] 0 0)
                      (eg_lists [q 1 2]) in
  Deme.randomMating 0 h = Raise IndexError
  ∨ Deme.randomMating 0 h = Raise ZeroDivisionError.
Proof.
  intros h.
  refine (Deme_randomMating_needs_diploid h 0 _ [q 1 2] _ _ _).
  - vm_compute. reflexivity.
  - apply (bool_decide_eq_true_1 _). by vm_compute.
  - apply Exists_cons_hd. simpl. lia.
Defined.









(** ** Deme: the direction of growth, the formula of selection *)



(** X13: [selection()] leaves each genotype the density
    [x * (1 - refuge) * fitness + x * refuge]: the part outside the refuge
    survives in proportion to the fitness, the part inside it survives
    whole. *)
Theorem Deme_selection_formula
    (h : Deme.heap) (self : nat) (d : Deme.t) (dens : list Qc) :
  Deme.heap_demes h !! self = Some d →
  Deme.heap_lists h !! Deme.genotypeDensities d = Some dens →
  length dens = length (Deme.genotypes d) →
  Deme.selection self h
  = Ok ((), Deme.Heap
              (<[Deme.genotypeDensities d :=
                   zip_with (λ x gt,
                               x * (1 - Deme.refugeProportion d)
                                 * Genotype.fitness gt
                               + x * Deme.refugeProportion d)
                            dens (Deme.genotypes d)]>
                 (Deme.heap_lists h))
              (Deme.heap_demes h)).
Proof.
  intros Hd Hl Hlen.
  rewrite (selection_run h self d dens) by (done || lia).
  do 4 f_equal. apply list_eq. intros g.
  rewrite pointwise_lookup, lookup_zip_with.
  destruct (dens !! g) as [x|] eqn:Hx; simpl; [|done].
  pose proof (lookup_lt_Some _ _ _ Hx) as Hg.
  destruct (lookup_lt_is_Some_2 (Deme.genotypes d) g) as [gt Hgt]; [lia|].
  rewrite decide_True by lia. rewrite Hgt. simpl. f_equal.
  unfold selected_density, fitness_at. rewrite Hgt. simpl. ring.
Qed.

Lemma Deme_selection_formula_witness :
  Deme.selection 0 eg_open_heap
  = Ok ((), Deme.Heap
              (<[0%nat :=
                   zip_with (λ x gt, x * (1 - 0) * Genotype.fitness gt + x * 0)
                            [q 2 5; q 2 5] [eg_g00; eg_g01]]>
                 (Deme.heap_lists eg_open_heap))
              (Deme.heap_demes eg_open_heap)).
Proof.
  apply (Deme_selection_formula eg_open_heap 0
           (Deme.mk [eg_g00; eg_g01] 0 0 [0; 1]%Z [q 3 4; q 1 4] [])
           [q 2 5; q 2 5]).
  - apply (bool_decide_eq_true_1 _). by vm_compute.
  - reflexivity.
  - reflexivity.
Defined.

(** ** Deme: neighbours and migrants *)

(** X14: [addNeighbour] fails its assertion on a migration rate outside
    [0,1]; otherwise it appends one edge with an empty migrant pool and
    changes nothing else.  It never looks at the edges that are there:
    calling it twice with the same neighbour (the deme itself, even) gives
    two edges. *)
Theorem Deme_addNeighbour_contract
    (h : Deme.heap) (self : nat) (d : Deme.t) (nb : nat) (rate : Qc) :
  Deme.heap_demes h !! self = Some d →
  (¬ (0 ≤ rate ∧ rate ≤ 1) →
     Deme.addNeighbour self nb rate h = Raise AssertionError)
  ∧ (0 ≤ rate ∧ rate ≤ 1 →
     Deme.addNeighbour self nb rate h
     = Ok ((), Deme.Heap (Deme.heap_lists h)
                 (<[self := Deme.with_neighbours d
                      (Deme.neighbours d ++ [Neighbour.mk nb rate []])]>
                    (Deme.heap_demes h)))
     ∧ (_ ← Deme.addNeighbour self nb rate;
        Deme.addNeighbour self nb rate) h
       = Ok ((), Deme.Heap (Deme.heap_lists h)
                   (<[self := Deme.with_neighbours d
                        (Deme.neighbours d
                         ++ [Neighbour.mk nb rate []; Neighbour.mk nb rate []])]>
                      (Deme.heap_demes h)))).
Proof.
  intros Hd. pose proof (lookup_lt_Some _ _ _ Hd) as Hself.
  assert (∀ k dk, Deme.heap_demes k !! self = Some dk →
            0 ≤ rate ∧ rate ≤ 1 →
            Deme.addNeighbour self nb rate k
            = Ok ((), Deme.Heap (Deme.heap_lists k)
                 (<[self := Deme.with_neighbours dk
                      (Deme.neighbours dk ++ [Neighbour.mk nb rate []])]>
                    (Deme.heap_demes k)))) as Hadd.
  { intros k dk Hk Hr. unfold Deme.addNeighbour.
    rewrite (bind_Ok _ _ _ _ _ (get_deme_Ok _ _ _ Hk)).
    unfold Neighbour.init. apply range_check_true in Hr. rewrite Hr. simpl.
    rewrite (bind_Ok _ _ _ _ _ (lift_Ok _ _ _ eq_refl)).
    apply set_deme_Ok. by eapply lookup_lt_Some. }
  split.
  - intros Hr. unfold Deme.addNeighbour.
    rewrite (bind_Ok _ _ _ _ _ (get_deme_Ok _ _ _ Hd)).
    apply bind_Raise, lift_Raise. unfold Neighbour.init.
    destruct (bool_decide (0 ≤ rate) && bool_decide (rate ≤ 1)) eqn:E; [|done].
    by apply range_check_true in E.
  - intros Hr. split; [by apply Hadd|].
    rewrite (bind_Ok _ _ _ _ _ (Hadd h d Hd Hr)).
    rewrite (Hadd _ (Deme.with_neighbours d
                       (Deme.neighbours d ++ [Neighbour.mk nb rate []]))).
    + simpl. rewrite list_insert_insert_eq. unfold Deme.with_neighbours. simpl.
      by rewrite <-app_assoc.
    + simpl. by apply list_lookup_insert_eq.
    + done.
Qed.

Lemma Deme_addNeighbour_contract_witness :
  Deme.addNeighbour 0 0 (1 + 1) eg_open_heap = Raise AssertionError.
Proof.
  refine (proj1 (Deme_addNeighbour_contract eg_open_heap 0 _ 0 (1 + 1) _) _).
  - vm_compute. reflexivity.
  - intros [_ H]. revert H. by vm_compute.
Defined.

Lemma foldM_raises_at {A} (body : list A → nat → result (list A))
    (F : nat → A → A) (n m : nat) (l : list A) (e : exn) :
  (n < m)%nat → (n ≤ length l)%nat →
  (∀ l' g x, (g < n)%nat → l' !! g = Some x → body l' g = Ok (<[g:=F g x]> l')) →
  (∀ l', length l' = length l → body l' n = Raise e) →
  foldM body l (range m) = Raise e.
Proof.
  intros Hnm Hn Hbody Hraise. unfold range.
  replace m with (n + (m - n))%nat by lia. rewrite seq_app, foldM_app.
  change (seq 0 n) with (range n).
  rewrite (foldM_pointwise body F n l) by done. simpl.
  destruct (m - n)%nat as [|k] eqn:E; [lia|]. simpl.
  rewrite Hraise; [done|]. apply pointwise_length.
Qed.

(** X15: [receiveMigrants] compares the length of the migrant list with
    the length of the density list, but adds over the length of the
    genotype list.  On a length mismatch it fails its assertion; when the
    lengths agree it adds the migrants of the genotypes, leaving any
    further density as it was; when there are more genotypes than
    densities it raises IndexError. *)
Theorem Deme_receiveMigrants_contract
    (h : Deme.heap) (self : nat) (d : Deme.t) (dens migrants : list Qc) :
  Deme.heap_demes h !! self = Some d →
  Deme.heap_lists h !! Deme.genotypeDensities d = Some dens →
  (length dens ≠ length migrants →
     Deme.receiveMigrants self migrants h = Raise AssertionError)
  ∧ (length dens = length migrants →
     (length (Deme.genotypes d) ≤ length dens)%nat →
     Deme.receiveMigrants self migrants h
     = Ok ((), Deme.Heap
                 (<[Deme.genotypeDensities d :=
                      pointwise (λ g x, x + default 0 (migrants !! g))
                                (length (Deme.genotypes d)) dens]>
                    (Deme.heap_lists h))
                 (Deme.heap_demes h)))
  ∧ (length dens = length migrants →
     (length dens < length (Deme.genotypes d))%nat →
     Deme.receiveMigrants self migrants h = Raise IndexError).
Proof.
  intros Hd Hl. split_and!.
  - intros Hne. unfold Deme.receiveMigrants.
    rewrite (bind_Ok _ _ _ _ _ (get_deme_Ok _ _ _ Hd)).
    rewrite (bind_Ok _ _ _ _ _ (get_list_Ok _ _ _ Hl)).
    apply bind_Raise, lift_Raise. unfold Deme.receiveMigrants_of.
    by rewrite bool_decide_eq_false_2.
  - intros Hlen Hg. unfold Deme.receiveMigrants.
    apply (update_densities_run (λ d dens, Deme.receiveMigrants_of d dens migrants)
             h self d dens); try done.
    unfold Deme.receiveMigrants_of. rewrite bool_decide_eq_true_2 by done.
    simpl. apply foldM_pointwise; [done|].
    intros l' g x Hlt Hx. rewrite (index_Ok _ _ _ Hx). simpl.
    destruct (lookup_lt_is_Some_2 migrants g) as [p Hp]; [lia|].
    rewrite (index_Ok _ _ _ Hp), Hp. simpl.
    apply store_Ok. by eapply lookup_lt_Some.
  - intros Hlen Hg. unfold Deme.receiveMigrants.
    rewrite (bind_Ok _ _ _ _ _ (get_deme_Ok _ _ _ Hd)).
    rewrite (bind_Ok _ _ _ _ _ (get_list_Ok _ _ _ Hl)).
    apply bind_Raise, lift_Raise. unfold Deme.receiveMigrants_of.
    rewrite bool_decide_eq_true_2 by done. simpl.
    apply (foldM_raises_at _ (λ g x, x + default 0 (migrants !! g))
             (length dens)).
    + done.
    + done.
    + intros l' g x Hlt Hx. rewrite (index_Ok _ _ _ Hx). simpl.
      destruct (lookup_lt_is_Some_2 migrants g) as [p Hp]; [lia|].
      rewrite (index_Ok _ _ _ Hp), Hp. simpl.
      apply store_Ok. by eapply lookup_lt_Some.
    + intros l' Hl'. rewrite (index_raises l'); [reflexivity|lia].
Qed.

Lemma Deme_receiveMigrants_contract_witness :
  Deme.receiveMigrants 0 [] eg_open_heap = Raise AssertionError.
Proof.
  refine (proj1 (Deme_receiveMigrants_contract eg_open_heap 0 _
                   [q 2 5; q 2 5] [] _ _) _).
  - vm_compute. reflexivity.
  - reflexivity.
  - simpl. lia.
Defined.

Lemma zip_with_minus_scaled (dens0 : list Qc) (c m : Qc) :
  zip_with Qcminus ((λ x, x * c) <$> dens0) ((λ x, x * m) <$> dens0)
  = (λ x, x * (c - m)) <$> dens0.
Proof.
  induction dens0 as [|x l IH]; [done|].
  rewrite !fmap_cons. cbn [zip_with]. rewrite IH. f_equal. ring.
Qed.

(** The second loop of [fillMigrantPools], on pools that were filled from
    the densities [dens0]: what is left of every density is the density
    times one minus the migration rates. *)
Lemma fillMigrantPools_of_values (ns : list Neighbour.t) (dens0 : list Qc) :
  Forall (λ nb, Neighbour.migrantPool nb
                = (λ x, x * Neighbour.migrationRate nb) <$> dens0) ns →
  ∀ c,
    Deme.fillMigrantPools_of ns ((λ x, x * c) <$> dens0)
    = Ok ((λ x, x * (c - sum (Neighbour.migrationRate <$> ns))) <$> dens0).
Proof.
  intros Hpools c. unfold Deme.fillMigrantPools_of.
  rewrite (foldM_indexed ns _
    (λ dens nb,
       if decide (length (Neighbour.migrantPool nb) = length dens)
       then Ok (zip_with Qcminus dens (Neighbour.migrantPool nb))
       else foldM (λ dens g,
                     x ← index dens g;
                     p ← index (Neighbour.migrantPool nb) g;
                     store dens g (x - p))
                  dens (range (length dens)))).
  - revert c. induction Hpools as [|nb ns Hnb _ IH]; intros c.
    + simpl. rewrite sum_nil. f_equal.
      apply list_fmap_ext. intros _ x _. ring.
    + cbn [foldM]. rewrite decide_True by (by rewrite Hnb, !length_fmap).
      change (Ok ?x ≫= ?f) with (f x). cbv beta.
      rewrite Hnb, zip_with_minus_scaled, IH, fmap_cons, sum_cons.
      f_equal. apply list_fmap_ext. intros _ x _. ring.
  - intros s i nb Hnb. case_decide as Hlen.
    + by apply subtract_pool_run.
    + apply foldM_ext. intros s' g _. by rewrite (index_Ok _ _ _ Hnb).
Qed.

(** [fillMigrantPools], in full. *)
Lemma fillMigrantPools_run_values
    (h : Deme.heap) (self : nat) (d : Deme.t) (dens : list Qc) :
  Deme.heap_demes h !! self = Some d →
  Deme.heap_lists h !! Deme.genotypeDensities d = Some dens →
  Deme.fillMigrantPools self h
  = Ok ((), Deme.Heap
              (<[Deme.genotypeDensities d :=
                   (λ x, x * (1 - sum (Neighbour.migrationRate
                                         <$> Deme.neighbours d))) <$> dens]>
                 (Deme.heap_lists h))
              (<[self := Deme.with_neighbours d
                   ((λ nb, Neighbour.fillPool nb dens) <$> Deme.neighbours d)]>
                 (Deme.heap_demes h))).
Proof.
  intros Hd Hl. unfold Deme.fillMigrantPools.
  rewrite (bind_Ok _ _ _ _ _ (get_deme_Ok _ _ _ Hd)).
  rewrite (bind_Ok _ _ _ _ _ (get_list_Ok _ _ _ Hl)).
  rewrite (bind_Ok _ _ _ _ _
             (lift_Ok _ _ _ (fillMigrantPools_pools_run _ _))).
  rewrite (bind_Ok _ _ _ _ _ (set_deme_Ok _ _ _ (lookup_lt_Some _ _ _ Hd))).
  assert (Deme.fillMigrantPools_of
            ((λ nb, Neighbour.fillPool nb dens) <$> Deme.neighbours d) dens
          = Ok ((λ x, x * (1 - sum (Neighbour.migrationRate
                                      <$> Deme.neighbours d))) <$> dens))
    as Hrun.
  { assert (dens = (λ x, x * 1) <$> dens) as Hone.
    { rewrite <-(list_fmap_id dens) at 1. apply list_fmap_ext.
      intros _ x _. unfold id. ring. }
    assert (Forall (λ nb, Neighbour.migrantPool nb
                          = (λ x, x * Neighbour.migrationRate nb) <$> dens)
              ((λ nb, Neighbour.fillPool nb dens) <$> Deme.neighbours d))
      as Hp.
    { apply Forall_fmap, Forall_forall. by intros nb _. }
    pose proof (fillMigrantPools_of_values _ _ Hp 1) as H.
    rewrite <-Hone in H. rewrite <-list_fmap_compose in H. exact H. }
  rewrite (bind_Ok _ _ _ _ _ (lift_Ok _ _ _ Hrun)).
  rewrite set_list_Ok; [done|]. simpl. by eapply lookup_lt_Some.
Qed.

(** X16: [fillMigrantPools()] always returns.  Every pool gets the
    densities times the rate of its edge, and every density is left with
    the factor one minus the sum of the rates of the edges: what stays
    behind is negative when the rates add up to more than 1. *)
Theorem Deme_fillMigrantPools_effect
    (h : Deme.heap) (self : nat) (d : Deme.t) (dens : list Qc) :
  Deme.heap_demes h !! self = Some d →
  Deme.heap_lists h !! Deme.genotypeDensities d = Some dens →
  Deme.fillMigrantPools self h
  = Ok ((), Deme.Heap
              (<[Deme.genotypeDensities d :=
                   (λ x, x * (1 - sum (Neighbour.migrationRate
                                         <$> Deme.neighbours d))) <$> dens]>
                 (Deme.heap_lists h))
              (<[self := Deme.with_neighbours d
                   ((λ nb, Neighbour.mk (Neighbour.neighbour nb)
                             (Neighbour.migrationRate nb)
                             ((λ x, x * Neighbour.migrationRate nb) <$> dens))
                      <$> Deme.neighbours d)]>
                 (Deme.heap_demes h))).
Proof. intros Hd Hl. by apply fillMigrantPools_run_values. Qed.

Lemma Deme_fillMigrantPools_effect_witness :
  ∃ d dens,
    Deme.heap_demes eg_torus_heap !! 0%nat = Some d
    ∧ Deme.fillMigrantPools 0 eg_torus_heap
    = Ok ((), Deme.Heap
              (<[Deme.genotypeDensities d :=
                   (λ x, x * (1 - sum (Neighbour.migrationRate
                                         <$> Deme.neighbours d))) <$> dens]>
                 (Deme.heap_lists eg_torus_heap))
              (<[0%nat := Deme.with_neighbours d
                   ((λ nb, Neighbour.mk (Neighbour.neighbour nb)
                             (Neighbour.migrationRate nb)
                             ((λ x, x * Neighbour.migrationRate nb) <$> dens))
                      <$> Deme.neighbours d)]>
                 (Deme.heap_demes eg_torus_heap))).
Proof.
  eexists _, [q 2 5; q 2 5]. split; [vm_compute; reflexivity|].
  apply (Deme_fillMigrantPools_effect eg_torus_heap 0).
  - vm_compute. reflexivity.
  - reflexivity.
Defined.

(** X17: [sendMigrants()] hands every pool to [receiveMigrants()] of the
    neighbour, which checks its length.  A pool is empty until
    [fillMigrantPools()] has filled it, and again after it was sent: on a
    deme whose first edge has an empty pool and leads to a deme with
    densities, [sendMigrants()] fails the assertion. *)
Theorem Deme_sendMigrants_empty_pool
    (h : Deme.heap) (self : nat) (d : Deme.t) (nb : Neighbour.t)
    (ns : list Neighbour.t) (target : Deme.t) (dens : list Qc) :
  Deme.heap_demes h !! self = Some d →
  Deme.neighbours d = nb :: ns →
  Neighbour.migrantPool nb = [] →
  Deme.heap_demes h !! Neighbour.neighbour nb = Some target →
  Deme.heap_lists h !! Deme.genotypeDensities target = Some dens →
  dens ≠ [] →
  Deme.sendMigrants self h = Raise AssertionError.
Proof.
  intros Hd Hns Hpool Ht Hl Hne. unfold Deme.sendMigrants.
  rewrite (bind_Ok _ _ _ _ _ (get_deme_Ok _ _ _ Hd)).
  rewrite Hns. cbn [length range seq Deme.for_each].
  apply bind_Raise.
  rewrite (bind_Ok _ _ _ _ _ (get_deme_Ok _ _ _ Hd)).
  rewrite Hns. cbn [index lookup list_lookup].
  rewrite (bind_Ok _ _ _ _ _ (lift_Ok _ _ _ eq_refl)).
  apply bind_Raise. unfold Deme.receiveMigrants.
  rewrite (bind_Ok _ _ _ _ _ (get_deme_Ok _ _ _ Ht)).
  rewrite (bind_Ok _ _ _ _ _ (get_list_Ok _ _ _ Hl)).
  apply bind_Raise, lift_Raise. unfold Deme.receiveMigrants_of.
  rewrite Hpool, bool_decide_eq_false_2; [done|].
  by destruct dens.
Qed.

Lemma Deme_sendMigrants_empty_pool_witness :
  Deme.sendMigrants 0 eg_torus_heap = Raise AssertionError.
Proof.
  refine (Deme_sendMigrants_empty_pool eg_torus_heap 0 _ _ _ _
            [q 1 5; q 3 10] _ _ _ _ _ _).
  - vm_compute. reflexivity.
  - reflexivity.
  - reflexivity.
  - vm_compute. reflexivity.
  - reflexivity.
  - done.
Defined.

(** ** TwoDTorus: what the constructor accepts and what it wires *)

(** X18: a torus with [xlen = 0] cannot be constructed, whatever the other
    arguments are: [range(0, xlen * ylen, xlen)] raises ValueError on the
    zero step (an assertion fails before that if a non-empty list of
    refuge proportions is given). *)
Theorem TwoDTorus_init_zero_xlen
    (ylen : Z) (genotypes : list Genotype.t) (genotypeDensities : list nat)
    (migrationRate : Qc) (h : Deme.heap) :
  (∀ r, TwoDTorus.init 0 ylen genotypes genotypeDensities migrationRate
          (TwoDTorus.RefugeFloat r) h = Raise ValueError)
  ∧ (∀ rs, TwoDTorus.init 0 ylen genotypes genotypeDensities migrationRate
             (TwoDTorus.RefugeList rs) h
           = Raise (if decide (rs = []) then ValueError else AssertionError)).
Proof.
  split.
  - intros r. unfold TwoDTorus.init.
    change (0 * ylen)%Z with 0%Z. reflexivity.
  - intros rs. unfold TwoDTorus.init. change (0 * ylen)%Z with 0%Z.
    destruct rs as [|x rs]; [reflexivity|].
    rewrite decide_False by done. reflexivity.
Qed.

Lemma for_each_nothing {X} (xs : list X) (body : X → Deme.M unit) h :
  (∀ x k, body x k = Ok ((), k)) → Deme.for_each xs body h = Ok ((), h).
Proof.
  intros Hbody. induction xs as [|x xs IH]; [done|]. simpl.
  by rewrite (bind_Ok _ _ _ _ _ (Hbody x h)).
Qed.

Lemma zrange_nonpos (n : Z) : (n ≤ 0)%Z → TwoDTorus.zrange n = [].
Proof.
  intros H. unfold TwoDTorus.zrange.
  by replace (Z.to_nat n) with 0%nat by lia.
Qed.

(** X19: the constructor does not ask for positive dimensions.  With a
    positive [xlen] and a [ylen] of 0 or less it returns a torus without
    demes and leaves the store alone: the genotype densities are not
    looked at and the migration rate is not checked; the orchestration
    methods then do nothing. *)
Theorem TwoDTorus_init_no_rows
    (xlen ylen : Z) (genotypes : list Genotype.t) (genotypeDensities : list nat)
    (migrationRate r : Qc) (h : Deme.heap) :
  (0 < xlen)%Z → (ylen ≤ 0)%Z →
  let t := TwoDTorus.mk xlen ylen [] [] in
  TwoDTorus.init xlen ylen genotypes genotypeDensities migrationRate
    (TwoDTorus.RefugeFloat r) h = Ok (t, h)
  ∧ TwoDTorus.randomMating t h = Ok ((), h)
  ∧ TwoDTorus.logisticGrowth t h = Ok ((), h)
  ∧ TwoDTorus.selection t h = Ok ((), h)
  ∧ TwoDTorus.migration t h = Ok ((), h).
Proof.
  intros Hx Hy t.
  assert (TwoDTorus.zrange (xlen * ylen) = []) as Hxy
    by (apply zrange_nonpos; nia).
  assert (TwoDTorus.zrange ylen = []) as Hyr by (by apply zrange_nonpos).
  split_and!.
  - unfold TwoDTorus.init. rewrite Hxy, Hyr.
    rewrite (bind_Ok _ _ _ _ _ (lift_Ok _ _ _ eq_refl)).
    cbn [TwoDTorus.create_demes].
    rewrite (bind_Ok _ _ _ _ _ eq_refl).
    rewrite range_step_pos by done.
    replace (Z.to_nat ((xlen * ylen + xlen - 1) / xlen)) with 0%nat.
    2:{ assert ((xlen * ylen + xlen - 1) / xlen < 1)%Z; [|lia].
        apply Z.div_lt_upper_bound; nia. }
    rewrite (bind_Ok _ _ _ _ _ (lift_Ok _ _ _ eq_refl)).
    cbn [range seq fmap list_fmap Deme.for_each].
    rewrite (bind_Ok _ _ _ _ _ eq_refl).
    rewrite (bind_Ok _ _ _ _ _ (for_each_nothing _ _ _ (λ _ _, eq_refl))).
    reflexivity.
  - unfold TwoDTorus.randomMating, TwoDTorus.for_all_demes. simpl.
    by rewrite Hyr.
  - unfold TwoDTorus.logisticGrowth, TwoDTorus.for_all_demes. simpl.
    by rewrite Hyr.
  - unfold TwoDTorus.selection, TwoDTorus.for_all_demes. simpl.
    by rewrite Hyr.
  - unfold TwoDTorus.migration, TwoDTorus.for_all_demes. simpl.
    by rewrite Hyr.
Qed.

Lemma TwoDTorus_init_no_rows_witness :
  let t := TwoDTorus.mk 3 (-2) [] [] in
  TwoDTorus.init 3 (-2) [eg_g00] [] (1 + 1) (TwoDTorus.RefugeFloat 0)
    eg_torus_lists = Ok (t, eg_torus_lists)
  ∧ TwoDTorus.randomMating t eg_torus_lists = Ok ((), eg_torus_lists)
  ∧ TwoDTorus.logisticGrowth t eg_torus_lists = Ok ((), eg_torus_lists)
  ∧ TwoDTorus.selection t eg_torus_lists = Ok ((), eg_torus_lists)
  ∧ TwoDTorus.migration t eg_torus_lists = Ok ((), eg_torus_lists).
Proof.
  apply (TwoDTorus_init_no_rows 3 (-2) [eg_g00] [] (1 + 1) 0 eg_torus_lists);
    lia.
Defined.

(** What a successful construction of a deme has checked, in full. *)
Lemma Deme_init_checked gl gd rp h a h' :
  Deme.init gl gd rp h = Ok (a, h') →
  Deme.heap_lists h' = Deme.heap_lists h
  ∧ Exists (λ g, Genotype.alleles g ≠ []) gl
  ∧ (0 ≤ rp ∧ rp ≤ 1)
  ∧ ∃ dens,
      Deme.heap_lists h !! gd = Some dens
      ∧ sum dens ≤ 1 ∧ sum dens ≠ 0
      ∧ (length gl ≤ length dens)%nat.
Proof.
  intros Hrun. pose proof Hrun as Hinv.
  apply Deme_init_Ok_inv in Hinv as (dens & fs & Hl & Hsum & Hrp & _ & -> & Hlen).
  assert (Exists (λ g, Genotype.alleles g ≠ []) gl) as Hex.
  { unfold Deme.init in Hrun.
    apply bind_Ok_inv in Hrun as (dens0 & h1 & _ & Hrun).
    apply bind_Ok_inv in Hrun as (u1 & h2 & _ & Hrun).
    apply bind_Ok_inv in Hrun as (u2 & h3 & _ & Hrun).
    apply bind_Ok_inv in Hrun as (top & h4 & Htop & _). inv_run Htop.
    apply pymax_Ok_inv in Htop.
    destruct (Deme.alleles_of gl) as [|a0 A] eqn:EA; [by destruct Htop|].
    assert (a0 ∈ Deme.alleles_of gl) as Ha0 by (rewrite EA; by left).
    apply elem_of_alleles_of in Ha0 as (g & Hg & Hag).
    apply Exists_exists. exists g. split; [done|].
    intros E. rewrite E in Hag. by apply elem_of_nil in Hag. }
  split; [done|]. split; [done|]. split; [done|].
  exists dens. split_and!; [done..| |done].
  intros H0. unfold Deme.init in Hrun.
  rewrite (bind_Ok _ _ _ _ _ (get_list_Ok _ _ _ Hl)) in Hrun.
  rewrite assert_true_run in Hrun by (by apply bool_decide_eq_true_2).
  rewrite assert_true_run in Hrun by (by apply range_check_true).
  apply bind_Ok_inv in Hrun as (top & h4 & Htop & Hrun). inv_run Htop.
  apply bind_Ok_inv in Hrun as (fs' & h5 & Hfs & _). inv_run Hfs.
  unfold Deme.updateAlleleFreqs_of in Hfs.
  rewrite genotypeFreqs_of_zero in Hfs; [done| |done].
  intros ->. apply Exists_exists in Hex as (g & Hg & _).
  destruct gl; [by apply elem_of_nil in Hg|simpl in Hlen; lia].
Qed.

Lemma create_demes_checked gl gds rps xs :
  ∀ d0 h0 d h1,
    TwoDTorus.create_demes gl gds rps xs d0 h0 = Ok (d, h1) →
    Deme.heap_lists h1 = Deme.heap_lists h0
    ∧ (xs ≠ [] → Exists (λ g, Genotype.alleles g ≠ []) gl)
    ∧ Forall (λ x, ∃ gd dens rp,
                gds !! x = Some gd ∧ rps !! x = Some rp
                ∧ (0 ≤ rp ∧ rp ≤ 1)
                ∧ Deme.heap_lists h0 !! gd = Some dens
                ∧ sum dens ≤ 1 ∧ sum dens ≠ 0
                ∧ (length gl ≤ length dens)%nat) xs.
Proof.
  induction xs as [|x xs IH]; intros d0 h0 d h1 Hrun; simpl in Hrun.
  - injection Hrun as <- <-. split_and!; [done|done|constructor].
  - apply bind_Ok_inv in Hrun as (gd & h' & Hgd & Hrun). inv_run Hgd.
    apply bind_Ok_inv in Hrun as (rp & h' & Hrp & Hrun). inv_run Hrp.
    apply bind_Ok_inv in Hrun as (a & h' & Ha & Hrun).
    apply Deme_init_checked in Ha
      as (Hl & Hex & Hrange & dens & Hdens & Hsum & Htot & Hlen).
    apply IH in Hrun as (Hl' & _ & Hall).
    split_and!; [congruence|done|].
    constructor.
    + exists gd, dens, rp.
      split; [by apply index_Ok_inv|]. split; [by apply index_Ok_inv|]. done.
    + eapply Forall_impl; [exact Hall|].
      intros y (gd' & dens' & rp' & ? & ? & ? & Hd' & ?).
      exists gd', dens', rp'. rewrite Hl in Hd'. done.
Qed.

(** X20: what a successful construction of a torus of positive dimensions
    has checked: the migration rate lies in [0,1]; some genotype has an
    allele; there is one refuge proportion per deme, each in [0,1]; and for
    each of the [xlen * ylen] demes there is a density list whose total is
    at most 1 and not 0 and which is at least as long as the genotype
    list.  (Without any of these the constructor raises.) *)
Theorem TwoDTorus_init_checked
    (xlen ylen : Z) genotypes genotypeDensities migrationRate refugeProportion
    (h : Deme.heap) (t : TwoDTorus.t) (h' : Deme.heap) :
  (0 < xlen)%Z → (0 < ylen)%Z →
  TwoDTorus.init xlen ylen genotypes genotypeDensities migrationRate
                 refugeProportion h = Ok (t, h') →
  let N := Z.to_nat (xlen * ylen) in
  (0 ≤ migrationRate ∧ migrationRate ≤ 1)
  ∧ Exists (λ g, Genotype.alleles g ≠ []) genotypes
  ∧ length (TwoDTorus.refugeProps t) = N
  ∧ Forall (λ rp, 0 ≤ rp ∧ rp ≤ 1) (TwoDTorus.refugeProps t)
  ∧ ∀ i, (i < N)%nat →
      ∃ gd dens,
        genotypeDensities !! i = Some gd
        ∧ Deme.heap_lists h !! gd = Some dens
        ∧ sum dens ≤ 1 ∧ sum dens ≠ 0
        ∧ (length genotypes ≤ length dens)%nat.
Proof.
  intros Hx Hy Hrun N.
  unfold TwoDTorus.init in Hrun.
  apply bind_Ok_inv in Hrun as (rps & h1 & Hrps & Hrun). inv_run Hrps.
  apply bind_Ok_inv in Hrun as (d & h1 & Hd & Hrun).
  apply create_demes_checked in Hd as (_ & Hex & Hall).
  assert (TwoDTorus.zrange (xlen * ylen) = seq 0 N) as HN by done.
  rewrite HN in Hall, Hex.
  assert (0 < N)%nat as HNpos by (subst N; nia).
  apply bind_Ok_inv in Hrun as (starts & h2 & Hst & Hrun). inv_run Hst.
  apply bind_Ok_inv in Hrun as (u1 & h2 & Hrows & Hrun).
  apply bind_Ok_inv in Hrun as (u2 & h3 & Hcols & Hrun).
  injection Hrun as <- <-. simpl.
  assert (length rps = N) as Hlen.
  { destruct refugeProportion as [r|rs].
    - injection Hrps as <-. by rewrite length_fmap, HN, length_seq.
    - apply result_bind_Ok_inv in Hrps as (u & Hassert & [= <-]).
      apply assert_Ok_inv, bool_decide_eq_true in Hassert. subst N. lia. }
  split; [|split; [|split; [|split]]].
  - destruct (zrange_pos ylen Hy) as [ky Hky].
    destruct (zrange_pos xlen Hx) as [kx Hkx].
    rewrite Hky in Hrows. simpl in Hrows.
    apply bind_Ok_inv in Hrows as (u3 & h4 & Hrow & _).
    rewrite Hkx in Hrow. simpl in Hrow.
    apply bind_Ok_inv in Hrow as (u4 & h5 & Hcell & _).
    unfold TwoDTorus.wire_row_cell in Hcell.
    apply bind_Ok_inv in Hcell as (self & k & _ & Hcell).
    apply bind_Ok_inv in Hcell as (left & k' & _ & Hcell).
    apply bind_Ok_inv in Hcell as (u5 & k'' & Hadd & _).
    by apply addNeighbour_Ok_inv in Hadd as (? & _ & ? & _).
  - apply Hex. destruct N; [lia|done].
  - done.
  - apply Forall_lookup. intros i rp Hrp.
    pose proof (lookup_lt_Some _ _ _ Hrp) as Hi.
    pose proof (proj1 (Forall_lookup _ _) Hall i i) as Hi'.
    destruct Hi' as (gd & dens & rp' & _ & Hrp' & Hrange & _).
    { apply lookup_seq. lia. }
    congruence.
  - intros i Hi.
    destruct (proj1 (Forall_lookup _ _) Hall i i)
      as (gd & dens & rp' & Hgd & _ & _ & Hdens & Hsum & Htot & Hl).
    { apply lookup_seq. lia. }
    exists gd, dens. done.
Qed.

Lemma TwoDTorus_init_checked_witness :
  let N := Z.to_nat (2 * 2) in
  (0 ≤ q 1 10 ∧ q 1 10 ≤ 1)
  ∧ Exists (λ g, Genotype.alleles g ≠ []) [eg_g00; eg_g01]
  ∧ length (TwoDTorus.refugeProps eg_torus) = N
  ∧ Forall (λ rp, 0 ≤ rp ∧ rp ≤ 1) (TwoDTorus.refugeProps eg_torus)
  ∧ ∀ i, (i < N)%nat →
      ∃ gd dens,
        [0; 1; 2; 3]%nat !! i = Some gd
        ∧ Deme.heap_lists eg_torus_lists !! gd = Some dens
        ∧ sum dens ≤ 1 ∧ sum dens ≠ 0
        ∧ (length [eg_g00; eg_g01] ≤ length dens)%nat.
Proof.
  apply (TwoDTorus_init_checked 2 2 [eg_g00; eg_g01] [0; 1; 2; 3]%nat (q 1 10)
           (TwoDTorus.RefugeFloat 0) eg_torus_lists eg_torus eg_torus_heap).
  - lia.
  - lia.
  - apply (bool_decide_eq_true_1 _). by vm_compute.
Defined.

Lemma torus_next_prev (len i : nat) :
  (i < len)%nat → torus_next len (torus_prev len i) = i.
Proof. intros H. unfold torus_next, torus_prev. repeat case_decide; lia. Qed.

Lemma torus_prev_next (len i : nat) :
  (i < len)%nat → torus_prev len (torus_next len i) = i.
Proof. intros H. unfold torus_next, torus_prev. repeat case_decide; lia. Qed.

(** The targets of the four edges of a cell of a constructed torus. *)
Lemma init_edge_targets (xlen ylen : Z) genotypes genotypeDensities
    migrationRate refugeProportion (h : Deme.heap) (t : TwoDTorus.t)
    (h' : Deme.heap) :
  (0 < xlen)%Z → (0 < ylen)%Z →
  TwoDTorus.init xlen ylen genotypes genotypeDensities migrationRate
                 refugeProportion h = Ok (t, h') →
  let X := Z.to_nat xlen in
  let Y := Z.to_nat ylen in
  let cell r c := (length (Deme.heap_demes h) + r * X + c)%nat in
  ∀ r c, (r < Y)%nat → (c < X)%nat →
    edge_target h' (cell r c) 0 = Some (cell r (torus_prev X c))
    ∧ edge_target h' (cell r c) 1 = Some (cell r (torus_next X c))
    ∧ edge_target h' (cell r c) 2 = Some (cell (torus_prev Y r) c)
    ∧ edge_target h' (cell r c) 3 = Some (cell (torus_next Y r) c).
Proof.
  intros Hx Hy Hrun X Y cell r c Hr Hc.
  apply init_Ok_inv in Hrun as (_ & _ & _ & _ & Hedges & _); [|done..].
  fold X Y in Hedges. unfold edge_target, cell.
  by rewrite (Hedges r c Hr Hc).
Qed.

(** X21: the edges of a constructed torus come in opposite pairs: the deme
    to the left of a deme has that deme as its right neighbour, the deme
    to its right has it as its left neighbour, and likewise above and
    below; so a deme receives migrants from exactly the four edges that
    mirror its own. *)
Theorem TwoDTorus_edges_symmetric
    (xlen ylen : Z) genotypes genotypeDensities migrationRate refugeProportion
    (h : Deme.heap) (t : TwoDTorus.t) (h' : Deme.heap) (r c : nat) :
  (0 < xlen)%Z → (0 < ylen)%Z →
  TwoDTorus.init xlen ylen genotypes genotypeDensities migrationRate
                 refugeProportion h = Ok (t, h') →
  (r < Z.to_nat ylen)%nat → (c < Z.to_nat xlen)%nat →
  ∃ a left right up down,
    TwoDTorus.deme_at (TwoDTorus.demes t) r c = Ok a
    ∧ edge_target h' a 0 = Some left ∧ edge_target h' left 1 = Some a
    ∧ edge_target h' a 1 = Some right ∧ edge_target h' right 0 = Some a
    ∧ edge_target h' a 2 = Some up ∧ edge_target h' up 3 = Some a
    ∧ edge_target h' a 3 = Some down ∧ edge_target h' down 2 = Some a.
Proof.
  intros Hx Hy Hrun Hr Hc.
  pose proof (init_edge_targets _ _ _ _ _ _ _ _ _ Hx Hy Hrun) as Hedges.
  apply init_Ok_inv in Hrun as (_ & _ & Hdemes & _); [|done..].
  set (X := Z.to_nat xlen) in *. set (Y := Z.to_nat ylen) in *.
  set (cell r c := (length (Deme.heap_demes h) + r * X + c)%nat) in *.
  pose proof (torus_prev_lt X c Hc) as Hpc.
  pose proof (torus_next_lt X c Hc) as Hnc.
  pose proof (torus_prev_lt Y r Hr) as Hpr.
  pose proof (torus_next_lt Y r Hr) as Hnr.
  destruct (Hedges r c Hr Hc) as (H0 & H1 & H2 & H3).
  destruct (Hedges r (torus_prev X c) Hr Hpc) as (_ & Hl & _ & _).
  destruct (Hedges r (torus_next X c) Hr Hnc) as (Hrt & _ & _ & _).
  destruct (Hedges (torus_prev Y r) c Hpr Hc) as (_ & _ & _ & Hu).
  destruct (Hedges (torus_next Y r) c Hnr Hc) as (_ & _ & Hd & _).
  rewrite torus_next_prev in Hl by done.
  rewrite torus_prev_next in Hrt by done.
  rewrite torus_next_prev in Hu by done.
  rewrite torus_prev_next in Hd by done.
  exists (cell r c), (cell r (torus_prev X c)), (cell r (torus_next X c)),
         (cell (torus_prev Y r) c), (cell (torus_next Y r) c).
  split_and!; try done.
  rewrite Hdemes. by apply grid_deme_at.
Qed.

Lemma TwoDTorus_edges_symmetric_witness :
  ∃ a left right up down,
    TwoDTorus.deme_at (TwoDTorus.demes eg_torus) 0 1 = Ok a
    ∧ edge_target eg_torus_heap a 0 = Some left
    ∧ edge_target eg_torus_heap left 1 = Some a
    ∧ edge_target eg_torus_heap a 1 = Some right
    ∧ edge_target eg_torus_heap right 0 = Some a
    ∧ edge_target eg_torus_heap a 2 = Some up
    ∧ edge_target eg_torus_heap up 3 = Some a
    ∧ edge_target eg_torus_heap a 3 = Some down
    ∧ edge_target eg_torus_heap down 2 = Some a.
Proof.
  apply (TwoDTorus_edges_symmetric 2 2 [eg_g00; eg_g01] [0; 1; 2; 3]%nat
           (q 1 10) (TwoDTorus.RefugeFloat 0) eg_torus_lists eg_torus
           eg_torus_heap 0 1).
  - lia.
  - lia.
  - apply (bool_decide_eq_true_1 _). by vm_compute.
  - simpl. lia.
  - simpl. lia.
Defined.

(** X22: on a constructed torus, [randomMating()] and [logisticGrowth()]
    call the method of that name on every deme once, row after row, and
    [migration()] fills the pools of every deme before any deme sends. *)
Theorem TwoDTorus_orchestration
    (xlen ylen : Z) genotypes genotypeDensities migrationRate refugeProportion
    (h0 : Deme.heap) (t : TwoDTorus.t) (h1 : Deme.heap) (h : Deme.heap) :
  (0 < xlen)%Z → (0 < ylen)%Z →
  TwoDTorus.init xlen ylen genotypes genotypeDensities migrationRate
                 refugeProportion h0 = Ok (t, h1) →
  let ds := seq (length (Deme.heap_demes h0)) (Z.to_nat xlen * Z.to_nat ylen) in
  TwoDTorus.randomMating t h = Deme.for_each ds Deme.randomMating h
  ∧ TwoDTorus.logisticGrowth t h = Deme.for_each ds Deme.logisticGrowth h
  ∧ TwoDTorus.migration t h
    = (_ ← Deme.for_each ds Deme.fillMigrantPools;
       Deme.for_each ds Deme.sendMigrants) h.
Proof.
  intros Hx Hy Hrun ds.
  apply init_Ok_inv in Hrun as (Hxl & Hyl & Hdemes & _); [|done..].
  assert (rectangular t) as Hrect.
  { unfold rectangular. rewrite Hxl, Hyl, Hdemes. unfold grid. split.
    - by rewrite length_fmap, length_seq.
    - apply Forall_fmap, Forall_forall. intros r _. simpl.
      by rewrite length_seq. }
  assert (all_demes t = ds) as Hall.
  { unfold all_demes. by rewrite Hdemes, concat_grid. }
  unfold TwoDTorus.randomMating, TwoDTorus.logisticGrowth, TwoDTorus.migration.
  split_and!.
  - by rewrite for_all_demes_flat, Hall.
  - by rewrite for_all_demes_flat, Hall.
  - apply bind_ext.
    + by rewrite for_all_demes_flat, Hall.
    + intros _ k. by rewrite for_all_demes_flat, Hall.
Qed.

Lemma TwoDTorus_orchestration_witness :
  let ds := seq (length (Deme.heap_demes eg_torus_lists))
                (Z.to_nat 2 * Z.to_nat 2) in
  TwoDTorus.randomMating eg_torus eg_torus_heap
  = Deme.for_each ds Deme.randomMating eg_torus_heap
  ∧ TwoDTorus.logisticGrowth eg_torus eg_torus_heap
    = Deme.for_each ds Deme.logisticGrowth eg_torus_heap
  ∧ TwoDTorus.migration eg_torus eg_torus_heap
    = (_ ← Deme.for_each ds Deme.fillMigrantPools;
       Deme.for_each ds Deme.sendMigrants) eg_torus_heap.
Proof.
  apply (TwoDTorus_orchestration 2 2 [eg_g00; eg_g01] [0; 1; 2; 3]%nat
           (q 1 10) (TwoDTorus.RefugeFloat 0) eg_torus_lists eg_torus
           eg_torus_heap eg_torus_heap).
  - lia.
  - lia.
  - apply (bool_decide_eq_true_1 _). by vm_compute.
Defined.



(** ** TwoDTorus: a migration, deme by deme *)

Lemma with_neighbours_same (d : Deme.t) :
  Deme.with_neighbours d (Deme.neighbours d) = d.
Proof. by destruct d. Qed.

Lemma receiveMigrants_demes self migrants h u h' :
  Deme.receiveMigrants self migrants h = Ok (u, h') →
  Deme.heap_demes h' = Deme.heap_demes h.
Proof.
  unfold Deme.receiveMigrants. intros Hrun.
  apply bind_Ok_inv in Hrun as (d & k & Hd & Hrun). inv_run Hd.
  apply bind_Ok_inv in Hrun as (dens & k & Hl & Hrun). inv_run Hl.
  apply bind_Ok_inv in Hrun as (dens' & k & Hr & Hrun). inv_run Hr.
  by inv_run Hrun.
Qed.

(** If [sendMigrants] returns, every pool of the deme is empty and no
    other deme record has changed. *)
Lemma sendMigrants_Ok_inv a h u h' :
  Deme.sendMigrants a h = Ok (u, h') →
  ∃ d, Deme.heap_demes h !! a = Some d
       ∧ Deme.heap_demes h'
         = <[a := Deme.with_neighbours d
                    (Neighbour.emptyPool <$> Deme.neighbours d)]>
             (Deme.heap_demes h).
Proof.
  unfold Deme.sendMigrants. intros Hrun.
  apply bind_Ok_inv in Hrun as (d & k & Hd & Hrun). inv_run Hd.
  exists d. split; [done|].
  pose proof (lookup_lt_Some _ _ _ Hd) as Ha.
  set (ns := Deme.neighbours d) in *.
  apply (for_range_invariant
    (λ k m, Deme.heap_demes m
            = <[a := Deme.with_neighbours d
                       ((Neighbour.emptyPool <$> take k ns) ++ drop k ns)]>
                (Deme.heap_demes h))) in Hrun.
  - by rewrite firstn_all, drop_all, app_nil_r in Hrun.
  - clear Hrun. intros k m u1 m' Hk Hbody Hm.
    destruct (lookup_lt_is_Some_2 ns k Hk) as [nb Hnb].
    set (nsk := (Neighbour.emptyPool <$> take k ns) ++ drop k ns) in *.
    assert (nsk !! k = Some nb) as Hnbk.
    { subst nsk. rewrite lookup_app_r; rewrite length_fmap, length_take.
      - rewrite lookup_drop. rewrite <-Hnb. f_equal. lia.
      - lia. }
    assert (Deme.heap_demes m !! a = Some (Deme.with_neighbours d nsk)) as Hdm.
    { rewrite Hm. by apply list_lookup_insert_eq. }
    apply bind_Ok_inv in Hbody as (d1 & k1 & H1 & Hbody). inv_run H1.
    rewrite Hdm in H1. injection H1 as <-.
    apply bind_Ok_inv in Hbody as (nb1 & k1 & H2 & Hbody). inv_run H2.
    simpl in H2. apply index_Ok_inv in H2. rewrite Hnbk in H2.
    injection H2 as <-.
    apply bind_Ok_inv in Hbody as (u2 & m1 & Hrecv & Hbody).
    apply receiveMigrants_demes in Hrecv.
    apply bind_Ok_inv in Hbody as (d2 & k1 & H3 & Hbody). inv_run H3.
    rewrite Hrecv, Hdm in H3. injection H3 as <-.
    apply bind_Ok_inv in Hbody as (nb2 & k1 & H4 & Hbody). inv_run H4.
    simpl in H4. apply index_Ok_inv in H4. rewrite Hnbk in H4.
    injection H4 as <-.
    apply bind_Ok_inv in Hbody as (ns' & k1 & H5 & Hbody). inv_run H5.
    simpl in H5. apply store_Ok_inv in H5 as [-> _].
    inv_run Hbody. simpl. rewrite Hrecv, Hm, list_insert_insert_eq.
    f_equal. unfold Deme.with_neighbours. simpl. f_equal.
    by apply emptied_step.
  - change (Deme.heap_demes h
            = <[a := Deme.with_neighbours d (Deme.neighbours d)]>
                (Deme.heap_demes h)).
    rewrite with_neighbours_same. symmetry. by apply list_insert_id.
Qed.

Lemma fillMigrantPools_Ok_inv a h u h' :
  Deme.fillMigrantPools a h = Ok (u, h') →
  ∃ d dens, Deme.heap_demes h !! a = Some d
            ∧ Deme.heap_lists h !! Deme.genotypeDensities d = Some dens
            ∧ Deme.heap_demes h'
              = <[a := Deme.with_neighbours d
                         ((λ nb, Neighbour.fillPool nb dens)
                            <$> Deme.neighbours d)]>
                  (Deme.heap_demes h).
Proof.
  intros Hrun. pose proof Hrun as Hrun'. unfold Deme.fillMigrantPools in Hrun'.
  apply bind_Ok_inv in Hrun' as (d & k & Hd & Hrun'). inv_run Hd.
  apply bind_Ok_inv in Hrun' as (dens & k & Hl & _). inv_run Hl.
  exists d, dens. split_and!; [done..|].
  rewrite (fillMigrantPools_run_values h a d dens) in Hrun by done.
  by injection Hrun as _ <-.
Qed.

Lemma edges_of_insert h k a b d ns :
  Deme.heap_demes h !! b = Some d →
  Deme.heap_demes k = <[b := Deme.with_neighbours d ns]> (Deme.heap_demes h) →
  Neighbour.emptyPool <$> ns = Neighbour.emptyPool <$> Deme.neighbours d →
  edges_of k a = edges_of h a.
Proof.
  intros Hd Hk Hns. unfold edges_of, neighbours_of. rewrite Hk.
  destruct (decide (a = b)) as [->|Hne].
  - rewrite list_lookup_insert_eq by (by eapply lookup_lt_Some).
    rewrite Hd. simpl. by rewrite Hns.
  - by rewrite list_lookup_insert_ne.
Qed.

Lemma emptyPool_fillPool (ns : list Neighbour.t) (dens : list Qc) :
  Neighbour.emptyPool <$> ((λ nb, Neighbour.fillPool nb dens) <$> ns)
  = Neighbour.emptyPool <$> ns.
Proof. rewrite <-list_fmap_compose. by apply list_fmap_ext. Qed.

Lemma emptyPool_idemp (ns : list Neighbour.t) :
  Neighbour.emptyPool <$> (Neighbour.emptyPool <$> ns)
  = Neighbour.emptyPool <$> ns.
Proof. rewrite <-list_fmap_compose. by apply list_fmap_ext. Qed.

(** A loop whose iteration for [x] establishes [Q x], and no iteration
    destroys [Q y], establishes [Q] for every element. *)
Lemma for_each_establish {X} (Q : X → Deme.heap → Prop)
    (body : X → Deme.M unit) (xs : list X) :
  (∀ x h u h', body x h = Ok (u, h') → Q x h') →
  (∀ x y h u h', body x h = Ok (u, h') → Q y h → Q y h') →
  ∀ h u h', Deme.for_each xs body h = Ok (u, h') → ∀ x, x ∈ xs → Q x h'.
Proof.
  intros Hest Hkeep. induction xs as [|y xs IH]; intros h u h' Hrun x Hx.
  - by apply elem_of_nil in Hx.
  - simpl in Hrun. apply bind_Ok_inv in Hrun as (u1 & h1 & H1 & H2).
    apply elem_of_cons in Hx as [->|Hx]; [|by eapply IH].
    apply (for_each_invariant (Q y) body xs) with h1 u; [|done|by eapply Hest].
    intros z k u2 k' _ Hz. by eapply Hkeep.
Qed.

(** X24: after a migration every migrant pool of every deme of the torus
    is empty again, and the edges are what they were: the same
    neighbours, in the same order, with the same rates. *)
Theorem TwoDTorus_migration_empties_pools
    (t : TwoDTorus.t) (h : Deme.heap) (u : unit) (h' : Deme.heap) (a : nat) :
  rectangular t →
  TwoDTorus.migration t h = Ok (u, h') →
  a ∈ all_demes t →
  neighbours_of h' a
  = (λ ns : list Neighbour.t, Neighbour.emptyPool <$> ns) <$> neighbours_of h a.
Proof.
  intros Hrect Hrun Ha. unfold TwoDTorus.migration in Hrun.
  apply bind_Ok_inv in Hrun as (u1 & h1 & Hfill & Hsend).
  rewrite for_all_demes_flat in Hfill, Hsend by done.
  assert (edges_of h1 a = edges_of h a) as Hfilled.
  { apply (for_each_invariant (λ k, edges_of k a = edges_of h a)) in Hfill;
      [done| |done].
    intros b k u2 k' _ Hb <-. rewrite call_fillMigrantPools in Hb.
    apply fillMigrantPools_Ok_inv in Hb as (d & dens & Hd & _ & Hk').
    eapply edges_of_insert; [done..|]. apply emptyPool_fillPool. }
  assert (edges_of h' a = edges_of h1 a) as Hsent.
  { apply (for_each_invariant (λ k, edges_of k a = edges_of h1 a)) in Hsend;
      [done| |done].
    intros b k u2 k' _ Hb <-. rewrite call_sendMigrants in Hb.
    apply sendMigrants_Ok_inv in Hb as (d & Hd & Hk').
    eapply edges_of_insert; [done..|]. apply emptyPool_idemp. }
  assert (neighbours_of h' a
          = (λ ns : list Neighbour.t, Neighbour.emptyPool <$> ns)
              <$> neighbours_of h' a) as Hempty.
  { apply (for_each_establish
             (λ b k, neighbours_of k b
                     = (λ ns : list Neighbour.t, Neighbour.emptyPool <$> ns)
                         <$> neighbours_of k b))
      with (x := a) in Hsend; [done| | |done].
    - intros b k u2 k' Hb. rewrite call_sendMigrants in Hb.
      apply sendMigrants_Ok_inv in Hb as (d & Hd & Hk').
      unfold neighbours_of. rewrite Hk'.
      rewrite list_lookup_insert_eq by (by eapply lookup_lt_Some).
      simpl. by rewrite emptyPool_idemp.
    - intros b c k u2 k' Hb Hc. rewrite call_sendMigrants in Hb.
      apply sendMigrants_Ok_inv in Hb as (d & Hd & Hk').
      unfold neighbours_of in *. rewrite Hk'.
      destruct (decide (c = b)) as [->|Hne].
      + rewrite list_lookup_insert_eq by (by eapply lookup_lt_Some).
        simpl. by rewrite emptyPool_idemp.
      + by rewrite list_lookup_insert_ne. }
  rewrite Hempty. fold (edges_of h' a). fold (edges_of h a). congruence.
Qed.

Lemma TwoDTorus_migration_empties_pools_witness :
  neighbours_of (heap_after (TwoDTorus.migration eg_torus) eg_torus_heap) 0
  = (λ ns : list Neighbour.t, Neighbour.emptyPool <$> ns) <$> neighbours_of eg_torus_heap 0.
Proof.
  apply (TwoDTorus_migration_empties_pools eg_torus eg_torus_heap ()).
  - split; [reflexivity|]. apply (bool_decide_eq_true_1 _). by vm_compute.
  - apply (bool_decide_eq_true_1 _). by vm_compute.
  - apply (bool_decide_eq_true_1 _). by vm_compute.
Defined.

Lemma density_entry_lookup h b d dens g :
  Deme.heap_demes h !! b = Some d →
  Deme.heap_lists h !! Deme.genotypeDensities d = Some dens →
  density_entry h b g = default 0 (dens !! g).
Proof.
  intros Hd Hl. unfold density_entry, densities_of. rewrite Hd. simpl.
  by rewrite Hl.
Qed.

Lemma default_scaled (l : list Qc) (c : Qc) (g : nat) :
  default 0 (((λ x, x * c) <$> l) !! g) = default 0 (l !! g) * c.
Proof.
  rewrite list_lookup_fmap. destruct (l !! g); simpl; [done|ring].
Qed.

Lemma default_zip_plus (l k : list Qc) (g : nat) :
  length l = length k →
  default 0 (zip_with Qcplus l k !! g)
  = default 0 (l !! g) + default 0 (k !! g).
Proof.
  intros Hlen. rewrite lookup_zip_with.
  destruct (l !! g) as [x|] eqn:Hx; simpl.
  - destruct (lookup_lt_is_Some_2 k g) as [y Hy].
    { apply lookup_lt_Some in Hx. lia. }
    by rewrite Hy.
  - apply lookup_ge_None in Hx.
    rewrite (proj2 (lookup_ge_None k g)) by lia. simpl. ring.
Qed.

(** In a well-formed metapopulation, writing the density list of one deme
    changes the entries of that deme only. *)
Lemma density_entry_set_list h ds L b d dens l' c g :
  metapopulation_ok h ds L → b ∈ ds → c ∈ ds →
  Deme.heap_demes h !! b = Some d →
  Deme.heap_lists h !! Deme.genotypeDensities d = Some dens →
  density_entry
    (Deme.Heap (<[Deme.genotypeDensities d:=l']> (Deme.heap_lists h))
               (Deme.heap_demes h)) c g
  = if decide (c = b) then default 0 (l' !! g) else density_entry h c g.
Proof.
  intros (Hnd & Hok & Hown) Hb Hc Hd Hl.
  assert (Deme.genotypeDensities d < length (Deme.heap_lists h))%nat as Hlt
    by (by eapply lookup_lt_Some).
  destruct (proj1 (Forall_forall _ _) Hok c Hc) as (dc & densc & Hdc & _).
  unfold density_entry. rewrite (densities_of_set_list _ _ _ _ dc) by done.
  destruct (decide (c = b)) as [->|Hne].
  - assert (dc = d) as -> by congruence. by rewrite decide_True.
  - rewrite decide_False; [done|]. intros Heq. apply Hne.
    by apply (Hown c b dc d).
Qed.

Lemma density_entry_set_deme h a d' b g :
  (∀ d, Deme.heap_demes h !! a = Some d →
        Deme.genotypeDensities d' = Deme.genotypeDensities d) →
  density_entry
    (Deme.Heap (Deme.heap_lists h) (<[a:=d']> (Deme.heap_demes h))) b g
  = density_entry h b g.
Proof. intros Hloc. unfold density_entry. by rewrite densities_of_set_deme. Qed.

Lemma carried_app amount b (ns ms : list Neighbour.t) :
  carried amount b (ns ++ ms) = carried amount b ns + carried amount b ms.
Proof. unfold carried. by rewrite fmap_app, sum_app. Qed.

Lemma carried_nil amount b : carried amount b [] = 0.
Proof. done. Qed.

Lemma carried_singleton amount b nb :
  carried amount b [nb]
  = if decide (Neighbour.neighbour nb = b) then amount nb else 0.
Proof. unfold carried. simpl. rewrite sum_cons, sum_nil. ring. Qed.

(** [sendMigrants] on a deme whose pools are filled: every entry of every
    deme grows by what the pools of the edges that lead there hold. *)
Lemma sendMigrants_entries h ds L a :
  metapopulation_ok h ds L → a ∈ ds → pools_filled h L a →
  ∃ h',
    Deme.sendMigrants a h = Ok ((), h')
    ∧ frame h h'
    ∧ (∀ b, b ≠ a → neighbours_of h' b = neighbours_of h b)
    ∧ ∀ b g, b ∈ ds →
        density_entry h' b g
        = density_entry h b g
          + carried (λ nb, default 0 (Neighbour.migrantPool nb !! g)) b
                    (default [] (neighbours_of h a)).
Proof.
  intros Hok Ha Hpools.
  destruct (proj1 (Forall_forall _ _) (proj1 (proj2 Hok)) a Ha)
    as (d & dens & Hd & Hl & HL & Hg & Htargets).
  set (ns := Deme.neighbours d).
  assert (neighbours_of h a = Some ns) as Hns.
  { unfold neighbours_of. by rewrite Hd. }
  unfold pools_filled in Hpools. rewrite Hns in Hpools. simpl in Hpools.
  unfold Deme.sendMigrants.
  rewrite (bind_Ok _ _ _ _ _ (get_deme_Ok _ _ _ Hd)). fold ns.
  set (Q (k : nat) (m : Deme.heap) :=
    frame h m
    ∧ neighbours_of m a
      = Some ((Neighbour.emptyPool <$> take k ns) ++ drop k ns)
    ∧ (∀ b, b ≠ a → neighbours_of m b = neighbours_of h b)
    ∧ ∀ b g, b ∈ ds →
        density_entry m b g
        = density_entry h b g
          + carried (λ nb, default 0 (Neighbour.migrantPool nb !! g)) b
                    (take k ns)).
  destruct (for_range_total Q
    (λ n, d ← Deme.get_deme a;
          nb ← Deme.lift (index (Deme.neighbours d) n);
          _ ← Deme.receiveMigrants (Neighbour.neighbour nb)
                (Neighbour.migrantPool nb);
          d ← Deme.get_deme a;
          nb ← Deme.lift (index (Deme.neighbours d) n);
          ns ← Deme.lift (store (Deme.neighbours d) n (Neighbour.emptyPool nb));
          Deme.set_deme a (Deme.with_neighbours d ns))
    (length ns)) with h as (h' & Hrun & Hfr & Hna & Hnb & Hent).
  - intros k m Hk (Hfr & Hna & Hother & Hent).
    pose proof (metapopulation_ok_frame _ _ _ _ Hfr Hok) as Hokm.
    destruct (lookup_lt_is_Some_2 ns k Hk) as [nb Hnb].
    unfold neighbours_of in Hna.
    destruct (Deme.heap_demes m !! a) as [dm|] eqn:Hdm; [|done].
    injection Hna as Hna.
    assert (Deme.neighbours dm !! k = Some nb) as Hnbm.
    { rewrite Hna, lookup_app_r; rewrite length_fmap, length_take.
      - rewrite lookup_drop. rewrite <-Hnb. f_equal. lia.
      - lia. }
    pose proof (proj1 (Forall_forall _ _) Htargets nb
                  (list_elem_of_lookup_2 _ _ _ Hnb)) as Hb.
    pose proof (proj1 (Forall_forall _ _) Hpools nb
                  (list_elem_of_lookup_2 _ _ _ Hnb)) as Hpool.
    simpl in Hb, Hpool.
    destruct (proj1 (Forall_forall _ _) (proj1 (proj2 Hokm)) _ Hb)
      as (db & densb & Hdb & Hlb & HLb & Hgb & _).
    pose proof (receiveMigrants_run m _ db densb (Neighbour.migrantPool nb)
                  Hdb Hlb) as Hrecv.
    rewrite HLb, Hpool, Hgb in Hrecv. specialize (Hrecv eq_refl eq_refl).
    set (m1 := Deme.Heap _ _) in Hrecv.
    assert (Deme.heap_demes m1 !! a = Some dm) as Hdm1 by done.
    set (ns' := <[k := Neighbour.emptyPool nb]> (Deme.neighbours dm)).
    exists (Deme.Heap (Deme.heap_lists m1)
              (<[a := Deme.with_neighbours dm ns']> (Deme.heap_demes m1))).
    split.
    { rewrite (bind_Ok _ _ _ _ _ (get_deme_Ok _ _ _ Hdm)).
      rewrite (bind_Ok _ _ _ _ _ (lift_Ok _ _ _ (index_Ok _ _ _ Hnbm))).
      rewrite (bind_Ok _ _ _ _ _ Hrecv).
      rewrite (bind_Ok _ _ _ _ _ (get_deme_Ok _ _ _ Hdm1)).
      rewrite (bind_Ok _ _ _ _ _ (lift_Ok _ _ _ (index_Ok _ _ _ Hnbm))).
      rewrite (bind_Ok _ _ _ _ _
                 (lift_Ok _ _ _
                    (store_Ok _ _ _ (lookup_lt_Some _ _ _ Hnbm)))).
      apply set_deme_Ok. by eapply lookup_lt_Some. }
    assert (frame m m1) as Hfr1.
    { apply (frame_set_list m _ densb); [done|].
      rewrite length_zip_with. lia. }
    assert (frame h m1) as Hfr1' by (by eapply frame_trans).
    split_and!.
    + eapply frame_trans; [exact Hfr1'|].
      apply frame_set_neighbours; [done|]. subst ns'.
      rewrite list_fmap_insert. apply list_insert_id.
      by rewrite list_lookup_fmap, Hnbm.
    + rewrite (neighbours_of_set_deme m1 a dm) by done.
      rewrite decide_True by done. f_equal. subst ns'. rewrite Hna.
      by apply emptied_step.
    + intros b Hne. rewrite (neighbours_of_set_deme m1 a dm) by done.
      rewrite decide_False by done. by apply Hother.
    + intros b g Hbds.
      rewrite (density_entry_set_deme m1 a)
        by (intros d0 Hd0; rewrite Hdm1 in Hd0; by injection Hd0 as <-).
      subst m1.
      rewrite (density_entry_set_list m ds L _ db densb _ b g Hokm Hb Hbds Hdb Hlb).
      rewrite (take_S_r _ _ _ Hnb), carried_app, carried_singleton.
      destruct (decide (b = Neighbour.neighbour nb)) as [->|Hne].
      * rewrite decide_True by done.
        rewrite default_zip_plus by lia.
        rewrite <-(density_entry_lookup m _ db densb g) by done.
        rewrite Hent by done. ring.
      * rewrite decide_False by (by intros <-). rewrite Hent by done. ring.
  - split_and!.
    + apply frame_refl.
    + rewrite take_0, drop_0. done.
    + done.
    + intros b g _. rewrite take_0, carried_nil. ring.
  - exists h'. rewrite Hns. simpl.
    split_and!; try done.
    intros b g Hb. rewrite Hent by done. by rewrite firstn_all.
Qed.

Lemma densities_of_other h ds L b d dens l' c :
  metapopulation_ok h ds L → b ∈ ds → c ∈ ds → c ≠ b →
  Deme.heap_demes h !! b = Some d →
  Deme.heap_lists h !! Deme.genotypeDensities d = Some dens →
  densities_of
    (Deme.Heap (<[Deme.genotypeDensities d:=l']> (Deme.heap_lists h))
               (Deme.heap_demes h)) c
  = densities_of h c.
Proof.
  intros (Hnd & Hok & Hown) Hb Hc Hne Hd Hl.
  assert (Deme.genotypeDensities d < length (Deme.heap_lists h))%nat as Hlt
    by (by eapply lookup_lt_Some).
  destruct (proj1 (Forall_forall _ _) Hok c Hc) as (dc & densc & Hdc & _).
  rewrite (densities_of_set_list _ _ _ _ dc) by done.
  rewrite decide_False; [done|]. intros Heq. apply Hne.
  by apply (Hown c b dc d).
Qed.

(** The first phase of a migration, deme by deme: every deme of the
    metapopulation keeps the share one minus its rates of every density,
    and its pools hold the densities it had times the rates. *)
Lemma fill_phase_entries h ds L :
  metapopulation_ok h ds L →
  ∃ h1,
    Deme.for_each ds Deme.fillMigrantPools h = Ok ((), h1)
    ∧ frame h h1
    ∧ (∀ a, a ∈ ds →
         neighbours_of h1 a
         = (λ ns : list Neighbour.t,
              (λ nb, Neighbour.fillPool nb (default [] (densities_of h a)))
                <$> ns) <$> neighbours_of h a)
    ∧ (∀ a g, a ∈ ds →
         density_entry h1 a g = density_entry h a g * (1 - out_rate h a)).
Proof.
  intros Hok.
  destruct (for_each_total
    (λ pre post m,
       frame h m
       ∧ (∀ a, a ∈ pre →
            neighbours_of m a
            = (λ ns : list Neighbour.t,
                 (λ nb, Neighbour.fillPool nb (default [] (densities_of h a)))
                   <$> ns) <$> neighbours_of h a)
       ∧ (∀ a g, a ∈ pre →
            density_entry m a g = density_entry h a g * (1 - out_rate h a))
       ∧ (∀ a, a ∈ post →
            neighbours_of m a = neighbours_of h a
            ∧ densities_of m a = densities_of h a))
    Deme.fillMigrantPools ds [] h) as (h1 & Hrun & Hfr & Hnbs & Hent & _).
  - intros pre x post m Hds (Hfr & Hnbs & Hent & Hrest). simpl in Hds.
    pose proof (metapopulation_ok_frame _ _ _ _ Hfr Hok) as Hokm.
    assert (x ∈ ds) as Hx.
    { rewrite Hds. apply elem_of_app. right. by left. }
    assert (x ∉ pre) as Hxpre.
    { destruct Hok as (Hnd & _). rewrite Hds in Hnd.
      apply NoDup_app in Hnd as (_ & Hnd & _). intros Hin.
      apply (Hnd x Hin). by left. }
    assert (x ∉ post) as Hxpost.
    { destruct Hok as (Hnd & _). rewrite Hds in Hnd.
      apply NoDup_app in Hnd as (_ & _ & Hnd).
      by apply NoDup_cons in Hnd as [? _]. }
    assert (∀ a, a ∈ pre → a ∈ ds) as Hpre_ds.
    { intros a Ha. rewrite Hds. apply elem_of_app. by left. }
    assert (∀ a, a ∈ post → a ∈ ds) as Hpost_ds.
    { intros a Ha. rewrite Hds. apply elem_of_app. right. by right. }
    destruct (proj1 (Forall_forall _ _) (proj1 (proj2 Hokm)) x Hx)
      as (d & dens & Hd & Hl & HL & Hg & Htargets).
    destruct (Hrest x) as [Hnx Hdx]; [by left|].
    assert (densities_of m x = Some dens) as Hdm.
    { unfold densities_of. rewrite Hd. simpl. done. }
    assert (neighbours_of m x = Some (Deme.neighbours d)) as Hnm.
    { unfold neighbours_of. by rewrite Hd. }
    rewrite Hdm in Hdx. rewrite Hnm in Hnx.
    set (ns := (λ nb, Neighbour.fillPool nb dens) <$> Deme.neighbours d) in *.
    set (dens' := (λ y, y * (1 - sum (Neighbour.migrationRate
                                        <$> Deme.neighbours d))) <$> dens).
    set (m2 := Deme.Heap (Deme.heap_lists m)
                 (<[x := Deme.with_neighbours d ns]> (Deme.heap_demes m))).
    assert (frame m m2) as Hfr2.
    { apply frame_set_neighbours; [done|]. subst ns.
      rewrite <-list_fmap_compose. done. }
    pose proof (metapopulation_ok_frame _ _ _ _ Hfr2 Hokm) as Hokm2.
    assert (Deme.heap_demes m2 !! x = Some (Deme.with_neighbours d ns)) as Hd2.
    { simpl. apply list_lookup_insert_eq. by eapply lookup_lt_Some. }
    set (m' := Deme.Heap (<[Deme.genotypeDensities d := dens']> (Deme.heap_lists m))
                 (<[x := Deme.with_neighbours d ns]> (Deme.heap_demes m))).
    assert (frame m2 m') as Hfr'.
    { apply (frame_set_list m2 _ dens); [done|]. subst dens'.
      by rewrite length_fmap. }
    assert (∀ b, neighbours_of m' b
                 = if decide (b = x) then Some ns else neighbours_of m b) as Hnb.
    { intros b. apply (neighbours_of_set_deme m x d ns b Hd). }
    assert (∀ c g, c ∈ ds →
              density_entry m' c g
              = if decide (c = x) then default 0 (dens' !! g)
                else density_entry m c g) as Hde.
    { intros c g Hc.
      change m' with (Deme.Heap
        (<[Deme.genotypeDensities (Deme.with_neighbours d ns) := dens']>
           (Deme.heap_lists m2)) (Deme.heap_demes m2)).
      rewrite (density_entry_set_list m2 ds L x _ dens dens' c g Hokm2 Hx Hc Hd2 Hl).
      case_decide; [done|]. subst m2. apply density_entry_set_deme.
      intros d0 Hd0. rewrite Hd in Hd0. by injection Hd0 as <-. }
    exists m'. split; [by apply fillMigrantPools_run_values|]. split_and!.
    + eapply frame_trans; [exact Hfr|]. by eapply frame_trans.
    + intros a [Ha| ->%list_elem_of_singleton]%elem_of_app.
      * rewrite Hnb, decide_False by (by intros ->). by apply Hnbs.
      * rewrite Hnb, decide_True by done.
        rewrite <-Hnx, <-Hdx. done.
    + intros a g [Ha| ->%list_elem_of_singleton]%elem_of_app.
      * rewrite Hde by (by apply Hpre_ds).
        rewrite decide_False by (by intros ->). by apply Hent.
      * rewrite Hde, decide_True by done. subst dens'.
        rewrite default_scaled. unfold density_entry, out_rate.
        rewrite <-Hdx, <-Hnx. done.
    + intros a Ha.
      assert (a ≠ x) as Hne by (by intros ->).
      destruct (Hrest a) as [Hna Hda]; [by right|].
      split.
      * by rewrite Hnb, decide_False.
      * rewrite <-Hda.
        change m' with (Deme.Heap
          (<[Deme.genotypeDensities (Deme.with_neighbours d ns) := dens']>
             (Deme.heap_lists m2)) (Deme.heap_demes m2)).
        rewrite (densities_of_other m2 ds L x _ dens dens' a Hokm2 Hx
                   (Hpost_ds a Ha) Hne Hd2 Hl).
        subst m2. apply densities_of_set_deme.
        intros d0 Hd0. rewrite Hd in Hd0. by injection Hd0 as <-.
  - split_and!.
    + apply frame_refl.
    + intros a Ha. by apply elem_of_nil in Ha.
    + intros a g Ha. by apply elem_of_nil in Ha.
    + done.
  - exists h1. done.
Qed.

(** The second phase, deme by deme: every entry grows by what the pools
    of the edges that lead to its deme hold. *)
Lemma send_phase_entries h ds L :
  metapopulation_ok h ds L →
  (∀ a, a ∈ ds → pools_filled h L a) →
  ∃ h2,
    Deme.for_each ds Deme.sendMigrants h = Ok ((), h2)
    ∧ ∀ b g, b ∈ ds →
        density_entry h2 b g
        = density_entry h b g
          + sum ((λ a, carried (λ nb, default 0 (Neighbour.migrantPool nb !! g))
                         b (default [] (neighbours_of h a))) <$> ds).
Proof.
  intros Hok Hfilled.
  destruct (for_each_total
    (λ pre post m,
       frame h m
       ∧ (∀ a, a ∈ post → neighbours_of m a = neighbours_of h a)
       ∧ ∀ b g, b ∈ ds →
           density_entry m b g
           = density_entry h b g
             + sum ((λ a, carried
                            (λ nb, default 0 (Neighbour.migrantPool nb !! g))
                            b (default [] (neighbours_of h a))) <$> pre))
    Deme.sendMigrants ds [] h) as (h2 & Hrun & _ & _ & Hent).
  - intros pre x post m Hds (Hfr & Hpost & Hent). simpl in Hds.
    pose proof (metapopulation_ok_frame _ _ _ _ Hfr Hok) as Hokm.
    assert (x ∈ ds) as Hx.
    { rewrite Hds. apply elem_of_app. right. by left. }
    assert (x ∉ post) as Hxpost.
    { destruct Hok as (Hnd & _). rewrite Hds in Hnd.
      apply NoDup_app in Hnd as (_ & _ & Hnd).
      by apply NoDup_cons in Hnd as [? _]. }
    destruct (sendMigrants_entries m ds L x Hokm Hx)
      as (m' & Hsend & Hfr' & Hnb & Hent').
    { unfold pools_filled. rewrite Hpost by (by left). by apply Hfilled. }
    exists m'. split; [done|]. split_and!.
    + by eapply frame_trans.
    + intros a Ha. rewrite Hnb by (by intros ->). apply Hpost. by right.
    + intros b g Hb. rewrite Hent', Hent by done.
      rewrite fmap_app, sum_app. simpl. rewrite sum_cons, sum_nil.
      rewrite (Hpost x) by (by left). ring.
  - split_and!; [apply frame_refl|done|].
    intros b g _. simpl. rewrite sum_nil. ring.
  - exists h2. split; [done|]. intros b g Hb. rewrite Hent by done.
    by rewrite app_nil_l.
Qed.

Lemma carried_fillPool (dens : list Qc) (b g : nat) (ns : list Neighbour.t) :
  carried (λ nb, default 0 (Neighbour.migrantPool nb !! g)) b
          ((λ nb, Neighbour.fillPool nb dens) <$> ns)
  = carried (λ nb, default 0 (dens !! g) * Neighbour.migrationRate nb) b ns.
Proof.
  unfold carried. rewrite <-list_fmap_compose. f_equal.
  apply list_fmap_ext. intros _ nb _. simpl.
  case_decide; [|done]. apply default_scaled.
Qed.

(** A migration phase, deme by deme.  In a metapopulation whose demes
    each own their density vector, all of one length, [migration()]
    returns, and afterwards every density of every deme is what the deme
    kept (the density times one minus the sum of the rates of its edges)
    plus what arrived: over every edge of the metapopulation that leads to
    the deme, the density at the source before the phase times the rate of
    the edge. *)
Lemma migration_entries
    (t : TwoDTorus.t) (h : Deme.heap) (L : nat) (b g : nat) :
  rectangular t →
  metapopulation_ok h (all_demes t) L →
  b ∈ all_demes t →
  ∃ h',
    TwoDTorus.migration t h = Ok ((), h')
    ∧ density_entry h' b g
      = density_entry h b g * (1 - out_rate h b)
        + incoming h (all_demes t) b g.
Proof.
  intros Hrect Hok Hb. set (ds := all_demes t) in *.
  destruct (fill_phase_entries h ds L Hok) as (h1 & Hfill & Hfr1 & Hnbs & Hent1).
  pose proof (metapopulation_ok_frame _ _ _ _ Hfr1 Hok) as Hok1.
  destruct (send_phase_entries h1 ds L Hok1) as (h2 & Hsend & Hent2).
  { intros a Ha. unfold pools_filled. rewrite (Hnbs a Ha).
    destruct (neighbours_of h a) as [ns|]; simpl; [|constructor].
    apply Forall_fmap, Forall_forall. intros nb _. simpl.
    rewrite length_fmap.
    destruct (proj1 (Forall_forall _ _) (proj1 (proj2 Hok)) a Ha)
      as (d & dens & Hd & Hl & HL & _).
    unfold densities_of. rewrite Hd. simpl. by rewrite Hl. }
  exists h2. split.
  - unfold TwoDTorus.migration.
    assert (TwoDTorus.for_all_demes t "fillMigrantPools" h = Ok ((), h1)) as H1.
    { by rewrite for_all_demes_flat. }
    rewrite (bind_Ok _ _ _ _ _ H1). by rewrite for_all_demes_flat.
  - rewrite (Hent2 b g Hb), (Hent1 b g Hb). f_equal.
    unfold incoming. apply sum_fmap_ext_in. intros a Ha.
    rewrite (Hnbs a Ha).
    destruct (neighbours_of h a) as [ns|]; simpl; [|done].
    rewrite carried_fillPool. unfold density_entry.
    by destruct (densities_of h a).
Qed.

(** X25: a migration phase, deme by deme.  In a metapopulation whose demes
    each own their density vector, all of one length, [migration()]
    returns, and afterwards every density of every deme is what the deme
    kept (the density times one minus the sum of the rates of its edges)
    plus what arrived: over every edge of the metapopulation that leads to
    the deme, the density at the source before the phase times the rate of
    the edge. *)
Theorem TwoDTorus_migration_stepping_stone
    (t : TwoDTorus.t) (h : Deme.heap) (L : nat) (b g : nat) :
  rectangular t →
  metapopulation_ok h (all_demes t) L →
  b ∈ all_demes t →
  ∃ h',
    TwoDTorus.migration t h = Ok ((), h')
    ∧ density_entry h' b g
      = density_entry h b g * (1 - out_rate h b)
        + incoming h (all_demes t) b g.
Proof. apply migration_entries. Qed.

Lemma TwoDTorus_migration_stepping_stone_witness :
  ∃ h',
    TwoDTorus.migration eg_torus eg_torus_heap = Ok ((), h')
    ∧ density_entry h' 0 1
      = density_entry eg_torus_heap 0 1 * (1 - out_rate eg_torus_heap 0)
        + incoming eg_torus_heap (all_demes eg_torus) 0 1.
Proof.
  apply (TwoDTorus_migration_stepping_stone eg_torus eg_torus_heap 2 0 1).
  - split; [reflexivity|]. apply (bool_decide_eq_true_1 _). by vm_compute.
  - exact eg_torus_ok.
  - apply (bool_decide_eq_true_1 _). by vm_compute.
Defined.

(** Among distinct elements, a sum over the elements with a property that
    exactly one of them has is the term of that element. *)
Lemma sum_unique {X} (P : X → Prop) `{∀ x, Decision (P x)} (f : X → Qc)
    (xs : list X) (x0 : X) :
  NoDup xs → x0 ∈ xs → (∀ x, x ∈ xs → P x ↔ x = x0) →
  sum ((λ x, if decide (P x) then f x else 0) <$> xs) = f x0.
Proof.
  induction xs as [|y xs IH]; intros Hnd Hx0 HP.
  - by apply elem_of_nil in Hx0.
  - apply NoDup_cons in Hnd as [Hy Hnd]. rewrite fmap_cons, sum_cons.
    destruct (decide (P y)) as [Hp|Hp].
    + apply HP in Hp as ->; [|by left].
      rewrite (sum_fmap_ext_in (λ _, 0 * 0) _ xs).
      * rewrite sum_fmap_scale. ring.
      * intros x Hx. rewrite decide_False; [ring|].
        intros Hp. apply HP in Hp; [|by right]. by subst.
    + assert (y ≠ x0) as Hne.
      { intros ->. apply Hp. apply HP; [by left|done]. }
      rewrite IH; [ring|done| |].
      * by apply elem_of_cons in Hx0 as [?|?].
      * intros x Hx. apply HP. by right.
Qed.

Lemma coords_of_cell (base X r c : nat) :
  (c < X)%nat →
  row_of base X (base + r * X + c) = r ∧ col_of base X (base + r * X + c) = c.
Proof.
  intros Hc. unfold row_of, col_of.
  replace (base + r * X + c - base)%nat with (c + r * X)%nat by lia.
  rewrite Nat.div_add by lia. rewrite Nat.Div0.mod_add.
  rewrite Nat.div_small, Nat.mod_small by done. done.
Qed.

Lemma cell_of_coords (base X Y a : nat) :
  a ∈ seq base (X * Y) →
  (row_of base X a < Y)%nat ∧ (col_of base X a < X)%nat
  ∧ a = (base + row_of base X a * X + col_of base X a)%nat.
Proof.
  intros [Hlo Hhi]%elem_of_seq. unfold row_of, col_of.
  assert (0 < X)%nat as HX by (destruct X; lia).
  pose proof (Nat.div_mod_eq (a - base) X) as Hdm.
  pose proof (Nat.mod_upper_bound (a - base) X ltac:(lia)) as Hm.
  split_and!; [|done|lia].
  apply Nat.Div0.div_lt_upper_bound. lia.
Qed.

Lemma cell_in_grid (base X Y r c : nat) :
  (r < Y)%nat → (c < X)%nat → (base + r * X + c)%nat ∈ seq base (X * Y).
Proof.
  intros Hr Hc. apply elem_of_seq.
  pose proof (grid_cell_bound X Y r c Hr Hc). lia.
Qed.

(** The sum, over the cells of the grid, of the terms of the cells whose
    neighbour in one direction is the cell [(r, c)]: it is the term of the
    one cell that lies in the opposite direction. *)
Lemma sum_over_sources (base X Y r c : nat) (f : nat → Qc)
    (to back : nat → nat → nat * nat) :
  (r < Y)%nat → (c < X)%nat →
  (∀ r' c', (r' < Y)%nat → (c' < X)%nat →
     ((to r' c').1 < Y)%nat ∧ ((to r' c').2 < X)%nat
     ∧ ((back r' c').1 < Y)%nat ∧ ((back r' c').2 < X)%nat
     ∧ back (to r' c').1 (to r' c').2 = (r', c')
     ∧ to (back r' c').1 (back r' c').2 = (r', c')) →
  sum ((λ a, if decide
                  ((base + (to (row_of base X a) (col_of base X a)).1 * X
                    + (to (row_of base X a) (col_of base X a)).2)%nat
                   = (base + r * X + c)%nat)
             then f a else 0) <$> seq base (X * Y))
  = f (base + (back r c).1 * X + (back r c).2)%nat.
Proof.
  intros Hr Hc Hto.
  destruct (Hto r c Hr Hc) as (_ & _ & Hbr & Hbc & _ & Htb).
  apply (sum_unique
    (λ a, (base + (to (row_of base X a) (col_of base X a)).1 * X
           + (to (row_of base X a) (col_of base X a)).2)%nat
          = (base + r * X + c)%nat) f).
  - apply NoDup_seq.
  - by apply cell_in_grid.
  - intros a Ha.
    destruct (cell_of_coords base X Y a Ha) as (Hra & Hca & Heq).
    destruct (Hto _ _ Hra Hca) as (Htr & Htc & _ & _ & Hbt & _).
    split.
    + intros E. apply grid_injective in E as [E1 E2]; [|done..].
      rewrite E1, E2 in Hbt. rewrite Heq. by rewrite Hbt.
    + intros ->.
      destruct (coords_of_cell base X (back r c).1 (back r c).2 Hbc)
        as [-> ->].
      by rewrite Htb.
Qed.

(** What the demes of a constructed torus send to the cell [(r, c)]: the
    cell receives over one edge from each of its four neighbours. *)
Lemma incoming_on_torus (h : Deme.heap) (base X Y : nat) (rate : Qc)
    (r c g : nat) :
  (r < Y)%nat → (c < X)%nat →
  (∀ r' c', (r' < Y)%nat → (c' < X)%nat →
     neighbours_of h (base + r' * X + c')
     = Some (row_edges base X rate r' c' ++ column_edges base X Y rate r' c')) →
  let cell r c := (base + r * X + c)%nat in
  incoming h (seq base (X * Y)) (cell r c) g
  = rate * (density_entry h (cell r (torus_prev X c)) g
            + density_entry h (cell r (torus_next X c)) g
            + density_entry h (cell (torus_prev Y r) c) g
            + density_entry h (cell (torus_next Y r) c) g).
Proof.
  intros Hr Hc Hedges cell. unfold incoming.
  set (f a := density_entry h a g * rate).
  set (ind (to : nat → nat → nat * nat) (a : nat) :=
         if decide
              ((base + (to (row_of base X a) (col_of base X a)).1 * X
                + (to (row_of base X a) (col_of base X a)).2)%nat
               = (base + r * X + c)%nat)
         then f a else 0).
  rewrite (sum_fmap_ext_in
    (λ a, ind (λ r' c', (r', torus_prev X c')) a
          + (ind (λ r' c', (r', torus_next X c')) a
             + (ind (λ r' c', (torus_prev Y r', c')) a
                + ind (λ r' c', (torus_next Y r', c')) a))) _ _).
  2:{ intros a Ha.
      destruct (cell_of_coords base X Y a Ha) as (Hra & Hca & Heq).
      assert (neighbours_of h a
              = Some (row_edges base X rate (row_of base X a) (col_of base X a)
                      ++ column_edges base X Y rate (row_of base X a)
                           (col_of base X a))) as ->.
      { rewrite Heq at 1. by apply Hedges. }
      unfold carried, row_edges, column_edges, ind, f, cell. simpl.
      rewrite !sum_cons, sum_nil. ring. }
  rewrite !sum_fmap_plus. unfold ind.
  rewrite (sum_over_sources base X Y r c f (λ r' c', (r', torus_prev X c'))
             (λ r' c', (r', torus_next X c')) Hr Hc).
  2:{ intros r' c' Hr' Hc'. simpl.
      pose proof (torus_prev_lt X c' Hc'). pose proof (torus_next_lt X c' Hc').
      split_and!; try done.
      - by rewrite torus_next_prev.
      - by rewrite torus_prev_next. }
  rewrite (sum_over_sources base X Y r c f (λ r' c', (r', torus_next X c'))
             (λ r' c', (r', torus_prev X c')) Hr Hc).
  2:{ intros r' c' Hr' Hc'. simpl.
      pose proof (torus_prev_lt X c' Hc'). pose proof (torus_next_lt X c' Hc').
      split_and!; try done.
      - by rewrite torus_prev_next.
      - by rewrite torus_next_prev. }
  rewrite (sum_over_sources base X Y r c f (λ r' c', (torus_prev Y r', c'))
             (λ r' c', (torus_next Y r', c')) Hr Hc).
  2:{ intros r' c' Hr' Hc'. simpl.
      pose proof (torus_prev_lt Y r' Hr'). pose proof (torus_next_lt Y r' Hr').
      split_and!; try done.
      - by rewrite torus_next_prev.
      - by rewrite torus_prev_next. }
  rewrite (sum_over_sources base X Y r c f (λ r' c', (torus_next Y r', c'))
             (λ r' c', (torus_prev Y r', c')) Hr Hc).
  2:{ intros r' c' Hr' Hc'. simpl.
      pose proof (torus_prev_lt Y r' Hr'). pose proof (torus_next_lt Y r' Hr').
      split_and!; try done.
      - by rewrite torus_prev_next.
      - by rewrite torus_next_prev. }
  unfold f, cell. simpl. ring.
Qed.

(** X26: one migration on a freshly constructed torus is the
    stepping-stone step.  When the constructor was given one density list
    per deme, each of the length of the genotype list, [migration()]
    returns, and afterwards the density of a genotype in the deme at row
    [r], column [c] is [1 - 4 * migrationRate] times the density it had
    plus [migrationRate] times the sum of the densities of that genotype
    in the four neighbouring demes (left, right, up and down, with
    wrap-around). *)
Theorem TwoDTorus_migration_on_torus
    (xlen ylen : Z) genotypes genotypeDensities migrationRate refugeProportion
    (h0 : Deme.heap) (t : TwoDTorus.t) (h : Deme.heap) (r c g : nat) :
  (0 < xlen)%Z → (0 < ylen)%Z →
  NoDup (take (Z.to_nat xlen * Z.to_nat ylen) genotypeDensities) →
  (∀ i a, (i < Z.to_nat xlen * Z.to_nat ylen)%nat →
     genotypeDensities !! i = Some a →
     ∃ dens, Deme.heap_lists h0 !! a = Some dens
             ∧ length dens = length genotypes) →
  TwoDTorus.init xlen ylen genotypes genotypeDensities migrationRate
                 refugeProportion h0 = Ok (t, h) →
  (r < Z.to_nat ylen)%nat → (c < Z.to_nat xlen)%nat →
  let X := Z.to_nat xlen in
  let Y := Z.to_nat ylen in
  let cell r c := (length (Deme.heap_demes h0) + r * X + c)%nat in
  ∃ h',
    TwoDTorus.migration t h = Ok ((), h')
    ∧ density_entry h' (cell r c) g
      = density_entry h (cell r c) g * (1 - (1 + 1 + 1 + 1) * migrationRate)
        + migrationRate
          * (density_entry h (cell r (torus_prev X c)) g
             + density_entry h (cell r (torus_next X c)) g
             + density_entry h (cell (torus_prev Y r) c) g
             + density_entry h (cell (torus_next Y r) c) g).
Proof.
  intros Hx Hy Hnd Hlen Hrun Hr Hc X Y cell.
  destruct (init_metapopulation_ok _ _ _ _ _ _ _ _ _ Hx Hy Hnd Hlen Hrun)
    as [Hrect Hok].
  apply init_Ok_inv in Hrun as (_ & _ & Hdemes & _ & Hedges & _); [|done..].
  fold X Y in Hedges, Hdemes.
  assert (all_demes t = seq (length (Deme.heap_demes h0)) (X * Y)) as Hall.
  { unfold all_demes. by rewrite Hdemes, concat_grid. }
  destruct (migration_entries t h (length genotypes) (cell r c) g Hrect Hok)
    as (h' & Hmig & Hent).
  { rewrite Hall. by apply cell_in_grid. }
  exists h'. split; [done|]. rewrite Hent, Hall.
  pose proof (incoming_on_torus h _ X Y migrationRate r c g Hr Hc Hedges)
    as Hin.
  cbv zeta in Hin. unfold cell. rewrite Hin.
  f_equal. f_equal. unfold out_rate. rewrite (Hedges r c Hr Hc).
  unfold row_edges, column_edges. simpl. rewrite !sum_cons, sum_nil. ring.
Qed.

Lemma TwoDTorus_migration_on_torus_witness :
  let cell r c := (length (Deme.heap_demes eg_torus_lists) + r * 2 + c)%nat in
  ∃ h',
    TwoDTorus.migration eg_torus eg_torus_heap = Ok ((), h')
    ∧ density_entry h' (cell 0 1)%nat 1
      = density_entry eg_torus_heap (cell 0 1)%nat 1
        * (1 - (1 + 1 + 1 + 1) * q 1 10)
        + q 1 10
          * (density_entry eg_torus_heap (cell 0 (torus_prev 2 1))%nat 1
             + density_entry eg_torus_heap (cell 0 (torus_next 2 1))%nat 1
             + density_entry eg_torus_heap (cell (torus_prev 2 0) 1)%nat 1
             + density_entry eg_torus_heap (cell (torus_next 2 0) 1)%nat 1).
Proof.
  apply (TwoDTorus_migration_on_torus 2 2 [eg_g00; eg_g01] [0; 1; 2; 3]%nat
           (q 1 10) (TwoDTorus.RefugeFloat 0) eg_torus_lists eg_torus
           eg_torus_heap 0 1 1).
  - lia.
  - lia.
  - apply (bool_decide_eq_true_1 _). by vm_compute.
  - intros i a Hi Ha.
    assert (i = 0 ∨ i = 1 ∨ i = 2 ∨ i = 3)%nat as Hcases by (simpl in Hi; lia).
    destruct Hcases as [-> | [-> | [-> | ->]]]; injection Ha as <-;
      eexists; (split; [reflexivity|reflexivity]).
  - apply (bool_decide_eq_true_1 _). by vm_compute.
  - simpl. lia.
  - simpl. lia.
Defined.
